(** * Quiz platform: attempt lifecycle and grading

    A shallow embedding of [quiz/models.py] and [quiz/views.py], of the
    preview of [quiz/admin.py] and of the loader
    [quiz/management/commands/loaddemo.py].

    - The database is a record of tables; a table is a finite map from
      primary key to row, the many-to-many relation between answers and
      their selected options is a finite set of (answer, option) pairs.
    - A view is a function from the database, the request and the clock to
      the database after the request, the messages it queued and its
      response.  The views open no transaction, so every statement is
      committed as it runs (Django's autocommit); an uncaught exception
      leaves the statements before it applied.
    - Python numbers are integers ([Z]) and binary64 floats
      ([spec_float], with the correctly rounded operations of
      [SpecFloat] at precision 53). *)

From Stdlib Require Import ZArith Floats.SpecFloat.
From stdpp Require Import gmap list sorting strings.

Local Open Scope Z_scope.

(** ** Python numbers *)

Module Py.

Definition prec : Z := 53.
Definition emax : Z := 1024.

(** A Python number as it occurs in the models: [int] or [float]. *)
Inductive num :=
| Int (n : Z)
| Float (x : spec_float).

(** An integer as an exact, not normalised, float operand. *)
Definition exact (n : Z) : spec_float :=
  match n with
  | 0 => S754_zero false
  | Z.pos p => S754_finite false p 0
  | Z.neg p => S754_finite true p 0
  end.

(** [float(n)]: the nearest binary64 (the models only convert [100]). *)
Definition float_of_int (n : Z) : spec_float :=
  binary_normalize prec emax n 0 false.

(** [a / b] on two ints: the correctly rounded quotient.  Python raises
    [ZeroDivisionError] for [b = 0] and [OverflowError] for a quotient
    out of range; here these are the non-finite results of [SFdiv],
    which [int_] below refuses in turn. *)
Definition truediv (a b : Z) : spec_float :=
  SFdiv prec emax (exact a) (exact b).

(** [x * y] on floats. *)
Definition mul (x y : spec_float) : spec_float := SFmul prec emax x y.

(** The integer nearest to [n / d], ties to the even one
    ([0 <= n], [0 < d]). *)
Definition div_half_even (n d : Z) : Z :=
  let q := n / d in
  match 2 * (n mod d) ?= d with
  | Lt => q
  | Gt => q + 1
  | Eq => if Z.even q then q else q + 1
  end.

(** The magnitude of a finite float [m * 2^e] times [scale], rounded to
    the nearest integer, ties to even. *)
Definition scaled_half_even (m : positive) (e : Z) (scale : Z) : Z :=
  if 0 <=? e then Z.pos m * 2 ^ e * scale
  else div_half_even (Z.pos m * scale) (2 ^ (- e)).

(** [round(x, ndigits)] on a float, for [ndigits >= 0]: CPython prints
    the exact value of [x] correctly rounded (half to even) to
    [ndigits] decimals and reads the decimal string back, which gives
    the binary64 nearest to it.  Non-finite values round to themselves. *)
Definition round (x : spec_float) (ndigits : nat) : spec_float :=
  match x with
  | S754_finite s m e =>
      let scale := 10 ^ Z.of_nat ndigits in
      match scaled_half_even m e scale with
      | Z.pos h => SFdiv prec emax (S754_finite s h 0) (exact scale)
      | _ => S754_zero s
      end
  | _ => x
  end.

(** The float a decimal literal [h e-ndigits] denotes, e.g.
    [decimal 6667 2] for [66.67]. *)
Definition decimal (h : Z) (ndigits : nat) : spec_float :=
  SFdiv prec emax (exact h) (exact (10 ^ Z.of_nat ndigits)).

(** [int(x)]: truncation toward zero; raises on [nan] and infinities
    ([None]). *)
Definition int_of_float (x : spec_float) : option Z :=
  match x with
  | S754_zero _ => Some 0
  | S754_finite s m e =>
      Some (cond_Zopp s (if 0 <=? e then Z.pos m * 2 ^ e
                         else Z.pos m / 2 ^ (- e)))
  | _ => None
  end.

Definition int_ (v : num) : option Z :=
  match v with
  | Int n => Some n
  | Float x => int_of_float x
  end.

(** Comparison of a float with an int: Python compares the exact
    values; [nan] is unordered. *)
Definition float_compare_int (x : spec_float) (n : Z) : option comparison :=
  match x with
  | S754_nan => None
  | S754_infinity s => Some (if s then Lt else Gt)
  | S754_zero _ => Some (0 ?= n)
  | S754_finite s m e =>
      let v := cond_Zopp s (Z.pos m) in
      Some (if 0 <=? e then v * 2 ^ e ?= n else v ?= n * 2 ^ (- e))
  end.

Definition compare_int (v : num) (n : Z) : option comparison :=
  match v with
  | Int k => Some (k ?= n)
  | Float x => float_compare_int x n
  end.

(** [v >= n] *)
Definition ge (v : num) (n : Z) : bool :=
  match compare_int v n with
  | Some (Eq | Gt) => true
  | _ => false
  end.

(** [v == n] *)
Definition eq (v : num) (n : Z) : bool :=
  match compare_int v n with
  | Some Eq => true
  | _ => false
  end.

End Py.

(** ** quiz/models.py *)

Module models.

(** Rows of the five tables; a foreign key holds the primary key it
    refers to, a timestamp is a clock reading. *)

Module Category.
Record t := {
  name : string;
  description : string;
  created_at : Z;
}.
End Category.

Module Question.
Inductive QUESTION_TYPES := single | multiple.
Record t := {
  category : Z;
  text : string;
  question_type : QUESTION_TYPES;
  is_deleted : bool;
  deleted_at : option Z;
  created_at : Z;
  updated_at : Z;
}.
End Question.

Module Option.
Record t := {
  question : Z;
  text : string;
  is_correct : bool;
}.
End Option.

Module QuizAttempt.
Record t := {
  user : Z;
  category : Z;
  total_questions : Z;
  passing_score : Z;
  time_limit : Z;
  score : option Z;          (* IntegerField(null=True) *)
  passed : bool;
  started_at : Z;
  completed_at : option Z;
}.
End QuizAttempt.

Module Answer.
Record t := {
  attempt : Z;
  question : Z;
  is_flagged : bool;
  answered_at : Z;
}.
End Answer.

(** The database.  [selected_options] is the table behind
    [Answer.selected_options]: pairs (answer id, option id). *)
Record Store := {
  categories : gmap Z Category.t;
  questions : gmap Z Question.t;
  options : gmap Z Option.t;
  attempts : gmap Z QuizAttempt.t;
  answers : gmap Z Answer.t;
  selected_options : gset (Z * Z);
}.

Definition with_attempts (db : Store) (m : gmap Z QuizAttempt.t) : Store :=
  {| categories := categories db; questions := questions db;
     options := options db; attempts := m; answers := answers db;
     selected_options := selected_options db |}.

Definition with_answers (db : Store) (m : gmap Z Answer.t) : Store :=
  {| categories := categories db; questions := questions db;
     options := options db; attempts := attempts db; answers := m;
     selected_options := selected_options db |}.

Definition with_selected_options (db : Store) (s : gset (Z * Z)) : Store :=
  {| categories := categories db; questions := questions db;
     options := options db; attempts := attempts db; answers := answers db;
     selected_options := s |}.

(** *** Queries *)

(** [.order_by('id')]: the rows of a table by ascending primary key.
    A query without an ordering is read in this order as well. *)
Definition by_id {A} : relation (Z * A) := λ r1 r2, r1.1 ≤ r2.1.

#[global] Instance by_id_dec {A} : RelDecision (@by_id A) :=
  λ r1 r2, decide (r1.1 ≤ r2.1).

Definition order_by_id {A} (table : gmap Z A) : list (Z * A) :=
  merge_sort by_id (map_to_list table).

(** The key an auto-increment column gives the next row. *)
Definition auto_increment {A} (table : gmap Z A) : Z :=
  1 + foldr Z.max 0 (map_to_list table).*1.

(** [attempt.answers.all()] *)
Definition answers_of (db : Store) (attempt_id : Z) : list (Z * Answer.t) :=
  filter (λ r, Answer.attempt r.2 = attempt_id) (order_by_id (answers db)).

(** [question.options.filter(is_correct=True)] *)
Definition correct_options (db : Store) (question_id : Z)
  : list (Z * Option.t) :=
  filter (λ r, Option.question r.2 = question_id ∧ Option.is_correct r.2 = true)
         (order_by_id (options db)).

(** [answer.selected_options.all()]: the options joined to the answer
    through [selected_options]. *)
Definition selected_options_all (db : Store) (answer_id : Z)
  : list (Z * Option.t) :=
  filter (λ r, (answer_id, r.1) ∈ selected_options db)
         (order_by_id (options db)).

(** [set(queryset)]: model instances are equal, and hash, by primary
    key. *)
Definition set_ {A} (rows : list (Z * A)) : gset Z := list_to_set rows.*1.

(** *** Answer.is_correct *)
Definition is_correct (db : Store) (self : Z * Answer.t) : bool :=
  let correct_options := set_ (correct_options db (Answer.question self.2)) in
  let selected := set_ (selected_options_all db self.1) in
  bool_decide (correct_options = selected).

(** *** QuizAttempt.calculate_score *)
Definition calculate_score (db : Store) (self : Z) : Py.num :=
  let total_answers := Z.of_nat (length (answers_of db self)) in
  if total_answers =? 0 then Py.Int 0
  else
    let correct_answers :=
      Z.of_nat (length (filter (λ a, is_correct db a = true)
                               (answers_of db self))) in
    let percentage :=
      Py.mul (Py.truediv correct_answers total_answers)
             (Py.float_of_int 100) in
    Py.Float (Py.round percentage 2).

(** *** QuizAttempt.submit_quiz

    [self] is the instance as fetched.  The method assigns
    [completed_at], [score] and [passed] on the instance and saves it;
    saving an [IntegerField] stores [int(value)].  The result is the
    [score] attribute left on the instance together with the database
    after the save, or [None] when the save raises. *)
Definition submit_quiz (db : Store) (self : Z * QuizAttempt.t) (now : Z)
  : option (Py.num * Store) :=
  let completed_at := Some now in
  let score := calculate_score db self.1 in
  let passed := Py.ge score (QuizAttempt.passing_score self.2) in
  stored_score ← Py.int_ score;
  let row :=
    {| QuizAttempt.user := QuizAttempt.user self.2;
       QuizAttempt.category := QuizAttempt.category self.2;
       QuizAttempt.total_questions := QuizAttempt.total_questions self.2;
       QuizAttempt.passing_score := QuizAttempt.passing_score self.2;
       QuizAttempt.time_limit := QuizAttempt.time_limit self.2;
       QuizAttempt.score := Some stored_score;
       QuizAttempt.passed := passed;
       QuizAttempt.started_at := QuizAttempt.started_at self.2;
       QuizAttempt.completed_at := completed_at |} in
  Some (score, with_attempts db (<[self.1 := row]> (attempts db))).

Definition with_categories (db : Store) (m : gmap Z Category.t) : Store :=
  {| categories := m; questions := questions db;
     options := options db; attempts := attempts db; answers := answers db;
     selected_options := selected_options db |}.

Definition with_questions (db : Store) (m : gmap Z Question.t) : Store :=
  {| categories := categories db; questions := m;
     options := options db; attempts := attempts db; answers := answers db;
     selected_options := selected_options db |}.

Definition with_options (db : Store) (m : gmap Z Option.t) : Store :=
  {| categories := categories db; questions := questions db;
     options := m; attempts := attempts db; answers := answers db;
     selected_options := selected_options db |}.

(** *** Question.delete

    The soft delete: the row is marked and saved ([updated_at] is
    [auto_now]), nothing is removed. *)
Definition Question_delete (db : Store) (self : Z * Question.t) (now : Z) : Store :=
  let row :=
    {| Question.category := Question.category self.2;
       Question.text := Question.text self.2;
       Question.question_type := Question.question_type self.2;
       Question.is_deleted := true;
       Question.deleted_at := Some now;
       Question.created_at := Question.created_at self.2;
       Question.updated_at := now |} in
  with_questions db (<[self.1 := row]> (questions db)).

End models.

(** ** quiz/views.py *)

Module views.
Import models.

(** A value posted under [options].  [request.POST.getlist('options')] is a
    list of strings, and [Option.objects.get(id=...)] converts the string it
    is given with [int()] before it looks the key up.  A posted value is
    kept as what [int()] makes of it: [numeral n] for a string it reads as
    the integer [n] (['9'], [' 9'], ['+9']), [not_a_number] for a string it
    rejects (['abc'], [''], ['1.0']). *)
Inductive posted :=
| numeral (n : Z)
| not_a_number.

Module HttpRequest.
Inductive Method := GET | POST.
(** [user] is the logged-in user ([login_required]); [POST_options]
    is [request.POST.getlist('options')]. *)
Record t := {
  user : Z;
  method : Method;
  POST_options : list posted;
}.
End HttpRequest.

(** The targets of [redirect], by URL name. *)
Inductive url :=
| to_dashboard
| to_take_quiz (attempt_id : Z)
| to_quiz_results (attempt_id : Z).

Inductive level := ERROR | SUCCESS.
Definition message : Type := level * string.

(** Exceptions no view catches. *)
Inductive Exception :=
| Option_DoesNotExist      (* Option.objects.get found no row *)
| IntegrityError           (* unique_together = [attempt, question] *)
| ValueError               (* list.index on a missing value; int() on a
                              posted value that is no number *)
| NotAnInteger.            (* int() of a non-finite score on save *)

(** The context [question_view] renders. *)
Record question_context := {
  ctx_attempt : Z;
  ctx_answer : Z;
  ctx_question : Z;
  prev_id : option Z;
  next_id : option Z;
  is_first : bool;
  is_last : bool;
  has_selection : bool;
}.

(** An entry of the [results] list of [quiz_results]. *)
Record result_entry := {
  res_question : Z;
  res_selected_options : list Z;
  res_correct_options : list Z;
  res_is_correct : bool;
}.

Inductive HttpResponse :=
| Http404
| redirect (to : url)
| render_question_view (context : question_context)
| render_review_panel (attempt_id : Z) (answers : list (Z * Answer.t))
| render_results (attempt_id : Z) (results : list result_entry)
| JsonResponse (flagged : bool)
| ServerError (e : Exception).

Definition result : Type := Store * list message * HttpResponse.

(** [get_object_or_404(QuizAttempt, id=attempt_id, user=request.user)] *)
Definition get_attempt_or_404 (db : Store) (attempt_id user : Z)
  : option QuizAttempt.t :=
  match attempts db !! attempt_id with
  | Some row => if decide (QuizAttempt.user row = user) then Some row else None
  | None => None
  end.

(** [get_object_or_404(Answer, id=answer_id, attempt=attempt)] *)
Definition get_answer_or_404 (db : Store) (answer_id attempt_id : Z)
  : option Answer.t :=
  match answers db !! answer_id with
  | Some row => if decide (Answer.attempt row = attempt_id) then Some row else None
  | None => None
  end.

(** *** start_quiz *)

(** [Meta.ordering = ['-created_at']]: newest first. *)
Definition newest_first : relation (Z * Question.t) :=
  λ r1 r2, Question.created_at r2.2 ≤ Question.created_at r1.2.

#[global] Instance newest_first_dec : RelDecision newest_first :=
  λ r1 r2, decide (Question.created_at r2.2 ≤ Question.created_at r1.2).

(** [Question.objects.filter(category=category, is_deleted=False)] *)
Definition all_questions (db : Store) (category_id : Z)
  : list (Z * Question.t) :=
  filter (λ r, Question.category r.2 = category_id
               ∧ Question.is_deleted r.2 = false)
         (merge_sort newest_first (order_by_id (questions db))).

(** [random.sample(population, k)] returns the elements at [k]
    distinct positions of [population].  Which positions is the random
    source's choice; it is the argument [positions]. *)
Definition random_sample {A} (population : list A) (k : nat)
    (positions : list nat) : list A :=
  omap (λ i, population !! i) (take k positions).

(** What [random.sample] guarantees about the positions it picks from
    a population of [n]. *)
Definition sample_positions (n k : nat) (positions : list nat) : Prop :=
  length positions = k ∧ NoDup positions ∧ Forall (λ i, (i < n)%nat) positions.

(** [QuizAttempt.objects.create(user=..., category=...,
    total_questions=...)]: the other fields take their defaults,
    [started_at] is [auto_now_add]. *)
Definition QuizAttempt_create (db : Store) (user category total_questions now : Z)
  : Z * Store :=
  let id := auto_increment (attempts db) in
  let row :=
    {| QuizAttempt.user := user;
       QuizAttempt.category := category;
       QuizAttempt.total_questions := total_questions;
       QuizAttempt.passing_score := 70;
       QuizAttempt.time_limit := 30;
       QuizAttempt.score := None;
       QuizAttempt.passed := false;
       QuizAttempt.started_at := now;
       QuizAttempt.completed_at := None |} in
  (id, with_attempts db (<[id := row]> (attempts db))).

(** [Answer.objects.create(attempt=attempt, question=question)]: a
    second row for the same attempt and question violates
    [unique_together]. *)
Definition Answer_create (db : Store) (attempt question now : Z)
  : option Store :=
  match filter (λ r, Answer.question r.2 = question) (answers_of db attempt) with
  | [] =>
      let row :=
        {| Answer.attempt := attempt;
           Answer.question := question;
           Answer.is_flagged := false;
           Answer.answered_at := now |} in
      Some (with_answers db (<[auto_increment (answers db) := row]> (answers db)))
  | _ :: _ => None
  end.

(** [for question in selected_questions: Answer.objects.create(...)] *)
Fixpoint create_answers (db : Store) (attempt : Z)
    (selected_questions : list (Z * Question.t)) (now : Z)
  : Store * option Exception :=
  match selected_questions with
  | [] => (db, None)
  | question :: rest =>
      match Answer_create db attempt question.1 now with
      | Some db' => create_answers db' attempt rest now
      | None => (db, Some IntegrityError)
      end
  end.

Definition start_quiz (db : Store) (request : HttpRequest.t)
    (category_id : Z) (now : Z) (positions : list nat) : result :=
  match categories db !! category_id with
  | None => (db, [], Http404)
  | Some category =>
      let all_questions := all_questions db category_id in
      if Z.of_nat (length all_questions) =? 0 then
        (db,
         [(ERROR, "No questions available for " +:+ Category.name category)],
         redirect to_dashboard)
      else
        let num_questions := Z.min 10 (Z.of_nat (length all_questions)) in
        let selected_questions :=
          random_sample all_questions (Z.to_nat num_questions) positions in
        let '(attempt, db1) :=
          QuizAttempt_create db (HttpRequest.user request) category_id
                             num_questions now in
        match create_answers db1 attempt selected_questions now with
        | (db2, None) => (db2, [], redirect (to_take_quiz attempt))
        | (db2, Some e) => (db2, [], ServerError e)
        end
  end.

(** *** question_view *)

(** [answer.selected_options.clear()] *)
Definition selected_options_clear (db : Store) (answer_id : Z) : Store :=
  with_selected_options db
    (filter (λ p, p.1 ≠ answer_id) (selected_options db)).

(** [Option.objects.get(id=option_id)] on a posted value: [ValueError]
    from the conversion of a value that is no number, [DoesNotExist] for a
    number that is the key of no option. *)
Definition Option_objects_get (db : Store) (option_id : posted)
  : Exception + Z * Option.t :=
  match option_id with
  | not_a_number => inl ValueError
  | numeral id =>
      match options db !! id with
      | None => inl Option_DoesNotExist
      | Some row => inr (id, row)
      end
  end.

(** [for option_id in selected_option_ids:
       option = Option.objects.get(id=option_id)
       answer.selected_options.add(option)] *)
Fixpoint selected_options_add_each (db : Store) (answer_id : Z)
    (selected_option_ids : list posted) : Store * option Exception :=
  match selected_option_ids with
  | [] => (db, None)
  | option_id :: rest =>
      match Option_objects_get db option_id with
      | inl e => (db, Some e)
      | inr option =>
          selected_options_add_each
            (with_selected_options db
               ({[ (answer_id, option.1) ]} ∪ selected_options db))
            answer_id rest
      end
  end.

(** [answer.save()]: writes the instance back; [answered_at] is
    [auto_now]. *)
Definition Answer_save (db : Store) (self : Z * Answer.t) (now : Z) : Store :=
  let row :=
    {| Answer.attempt := Answer.attempt self.2;
       Answer.question := Answer.question self.2;
       Answer.is_flagged := Answer.is_flagged self.2;
       Answer.answered_at := now |} in
  with_answers db (<[self.1 := row]> (answers db)).

(** [Answer.objects.filter(attempt=attempt).order_by('id')
      .values_list('id', flat=True)] *)
Definition ordered_ids (db : Store) (attempt_id : Z) : list Z :=
  (answers_of db attempt_id).*1.

(** [l.index(x)]: the first position of [x], [None] for [ValueError]. *)
Definition index (l : list Z) (x : Z) : option Z :=
  (λ r, Z.of_nat r.1) <$> list_find (λ y, y = x) l.

(** [l[i]] for [0 <= i < len(l)]. *)
Definition item (l : list Z) (i : Z) : option Z := l !! Z.to_nat i.

Definition question_view (db : Store) (request : HttpRequest.t)
    (attempt_id answer_id : Z) (now : Z) : result :=
  match get_attempt_or_404 db attempt_id (HttpRequest.user request) with
  | None => (db, [], Http404)
  | Some attempt =>
  match get_answer_or_404 db answer_id attempt_id with
  | None => (db, [], Http404)
  | Some answer =>
      let ordered_ids := ordered_ids db attempt_id in
      match index ordered_ids answer_id with
      | None => (db, [], ServerError ValueError)
      | Some idx =>
          let len := Z.of_nat (length ordered_ids) in
          let prev_id := if 0 <? idx then item ordered_ids (idx - 1) else None in
          let next_id :=
            if idx <? len - 1 then item ordered_ids (idx + 1) else None in
          let '(db', raised) :=
            match HttpRequest.method request with
            | HttpRequest.POST =>
                let selected_option_ids := HttpRequest.POST_options request in
                match selected_options_add_each
                        (selected_options_clear db answer_id)
                        answer_id selected_option_ids with
                | (db1, None) => (Answer_save db1 (answer_id, answer) now, None)
                | (db1, Some e) => (db1, Some e)
                end
            | HttpRequest.GET => (db, None)
            end in
          match raised with
          | Some e => (db', [], ServerError e)
          | None =>
              let has_selection :=
                bool_decide (selected_options_all db' answer_id ≠ []) in
              (db', [],
               render_question_view
                 {| ctx_attempt := attempt_id;
                    ctx_answer := answer_id;
                    ctx_question := Answer.question answer;
                    prev_id := prev_id;
                    next_id := next_id;
                    is_first := idx =? 0;
                    is_last := idx =? len - 1;
                    has_selection := has_selection |})
          end
      end
  end
  end.

(** *** toggle_flag *)
Definition toggle_flag (db : Store) (request : HttpRequest.t)
    (answer_id : Z) (now : Z) : result :=
  match answers db !! answer_id with      (* get_object_or_404(Answer, id=answer_id) *)
  | None => (db, [], Http404)
  | Some answer =>
      let is_flagged := negb (Answer.is_flagged answer) in
      let answer :=
        {| Answer.attempt := Answer.attempt answer;
           Answer.question := Answer.question answer;
           Answer.is_flagged := is_flagged;
           Answer.answered_at := Answer.answered_at answer |} in
      (Answer_save db (answer_id, answer) now, [], JsonResponse is_flagged)
  end.

(** *** review_panel *)
Definition review_panel (db : Store) (request : HttpRequest.t)
    (attempt_id : Z) : result :=
  match get_attempt_or_404 db attempt_id (HttpRequest.user request) with
  | None => (db, [], Http404)
  | Some attempt => (db, [], render_review_panel attempt_id (answers_of db attempt_id))
  end.

(** *** submit_quiz *)
Definition submit_quiz (db : Store) (request : HttpRequest.t)
    (attempt_id : Z) (now : Z) : result :=
  match get_attempt_or_404 db attempt_id (HttpRequest.user request) with
  | None => (db, [], Http404)
  | Some attempt =>
      match HttpRequest.method request with
      | HttpRequest.POST =>
          match models.submit_quiz db (attempt_id, attempt) now with
          | Some (_, db') =>
              (db', [(SUCCESS, "Quiz submitted successfully!")],
               redirect (to_quiz_results attempt_id))
          | None => (db, [], ServerError NotAnInteger)
          end
      | HttpRequest.GET => (db, [], redirect (to_take_quiz attempt_id))
      end
  end.

(** *** quiz_results *)
Definition quiz_results (db : Store) (request : HttpRequest.t)
    (attempt_id : Z) : result :=
  match get_attempt_or_404 db attempt_id (HttpRequest.user request) with
  | None => (db, [], Http404)
  | Some attempt =>
      let results :=
        (λ answer,
           {| res_question := Answer.question answer.2;
              res_selected_options := (selected_options_all db answer.1).*1;
              res_correct_options :=
                (correct_options db (Answer.question answer.2)).*1;
              res_is_correct := is_correct db answer |})
          <$> answers_of db attempt_id in
      (db, [], render_results attempt_id results)
  end.

(** *** dashboard and take_quiz

    The two views that render pages of their own; [page] adds their
    renderings to the responses above. *)

(** [Meta.ordering = ['name']] of [Category]. *)
Definition by_name : relation (Z * Category.t) :=
  λ r1 r2, String.le (Category.name r1.2) (Category.name r2.2).

#[global] Instance by_name_dec : RelDecision by_name :=
  λ r1 r2, decide (String.le (Category.name r1.2) (Category.name r2.2)).

(** [.order_by('-completed_at')]: latest first, rows without a completion
    time last. *)
Definition completed_le (t1 t2 : option Z) : Prop :=
  match t1, t2 with
  | None, _ => True
  | Some _, None => False
  | Some a, Some b => a ≤ b
  end.

Definition latest_first : relation (Z * QuizAttempt.t) :=
  λ r1 r2, completed_le (QuizAttempt.completed_at r2.2)
                        (QuizAttempt.completed_at r1.2).

#[global] Instance completed_le_dec : RelDecision completed_le.
Proof.
  intros [a|] [b|]; simpl; [apply Z_le_dec|right; tauto|left; exact I|left; exact I].
Defined.

#[global] Instance latest_first_dec : RelDecision latest_first :=
  λ r1 r2, decide (completed_le (QuizAttempt.completed_at r2.2)
                                (QuizAttempt.completed_at r1.2)).

Record dashboard_context := {
  ctx_categories : list (Z * Category.t);
  recent_attempts : list (Z * QuizAttempt.t);
}.

Record take_quiz_context := {
  tq_attempt : Z;
  tq_answers : list (Z * Answer.t);
  current_answer : option (Z * Answer.t);
  total_questions : Z;
}.

Inductive page :=
| response (r : HttpResponse)
| render_dashboard (context : dashboard_context)
| render_take_quiz (context : take_quiz_context).

(** [QuizAttempt.objects.filter(user=request.user,
      completed_at__isnull=False).order_by('-completed_at')[:5]] *)
Definition recent_attempts_of (db : Store) (user : Z) : list (Z * QuizAttempt.t) :=
  take 5
    (merge_sort latest_first
       (filter (λ r, QuizAttempt.user r.2 = user
                     ∧ QuizAttempt.completed_at r.2 ≠ None)
               (order_by_id (attempts db)))).

Definition dashboard (db : Store) (request : HttpRequest.t)
  : Store * list message * page :=
  let categories := merge_sort by_name (order_by_id (categories db)) in
  let recent_attempts := recent_attempts_of db (HttpRequest.user request) in
  (db, [],
   render_dashboard {| ctx_categories := categories;
                       recent_attempts := recent_attempts |}).

Definition take_quiz (db : Store) (request : HttpRequest.t) (attempt_id : Z)
  : Store * list message * page :=
  match get_attempt_or_404 db attempt_id (HttpRequest.user request) with
  | None => (db, [], response Http404)
  | Some attempt =>
      match QuizAttempt.completed_at attempt with
      | Some _ => (db, [], response (redirect (to_quiz_results attempt_id)))
      | None =>
          let answers := answers_of db attempt_id in
          (db, [],
           render_take_quiz
             {| tq_attempt := attempt_id;
                tq_answers := answers;
                current_answer := head answers;
                total_questions := Z.of_nat (length answers) |})
      end
  end.

End views.

(** ** quiz/admin.py *)

Module admin.

(** [QuestionAdmin.text_preview], on the text of the question: a Python
    string is a sequence of characters, here of any type [C]; [dot] is
    the full stop. *)
Definition text_preview {C} (dot : C) (text : list C) : list C :=
  if 100 <? Z.of_nat (length text) then take 100 text ++ [dot; dot; dot]
  else text.

End admin.

(** ** quiz/management/commands/loaddemo.py *)

Module loaddemo.
Import models.

Module cat_data.
Record t := { name : string; description : string }.
End cat_data.

Module q_data.
Record t := {
  text : string;
  type : Question.QUESTION_TYPES;
  options : list (string * bool);
}.
End q_data.

Definition categories_data : list cat_data.t :=
  [{| cat_data.name := "Python Programming";
      cat_data.description := "Test your Python programming knowledge" |};
   {| cat_data.name := "Web Development";
      cat_data.description := "Questions about HTML, CSS, and JavaScript" |};
   {| cat_data.name := "General Knowledge";
      cat_data.description := "Fun general knowledge questions" |}].

Definition python_questions : list q_data.t :=
  [
  {| q_data.text := "What is the output of print(2 ** 3)?";
     q_data.type := Question.single;
     q_data.options :=
       [("6", false);
        ("8", true);
        ("9", false);
        ("5", false)] |};
  {| q_data.text := "Which of the following is NOT a valid Python data type?";
     q_data.type := Question.single;
     q_data.options :=
       [("int", false);
        ("float", false);
        ("char", true);
        ("str", false)] |};
  {| q_data.text := "What keyword is used to create a function in Python?";
     q_data.type := Question.single;
     q_data.options :=
       [("function", false);
        ("def", true);
        ("func", false);
        ("define", false)] |};
  {| q_data.text := "Which of the following are mutable data types in Python? (Select all that apply)";
     q_data.type := Question.multiple;
     q_data.options :=
       [("List", true);
        ("Tuple", false);
        ("Dictionary", true);
        ("String", false)] |};
  {| q_data.text := "What is the correct way to create a list in Python?";
     q_data.type := Question.single;
     q_data.options :=
       [("list = (1, 2, 3)", false);
        ("list = [1, 2, 3]", true);
        ("list = {1, 2, 3}", false);
        ("list = <1, 2, 3>", false)] |}
  ].

Definition web_questions : list q_data.t :=
  [
  {| q_data.text := "What does HTML stand for?";
     q_data.type := Question.single;
     q_data.options :=
       [("Hyper Text Markup Language", true);
        ("High Tech Modern Language", false);
        ("Home Tool Markup Language", false);
        ("Hyperlinks and Text Markup Language", false)] |};
  {| q_data.text := "Which CSS property is used to change text color?";
     q_data.type := Question.single;
     q_data.options :=
       [("text-color", false);
        ("font-color", false);
        ("color", true);
        ("text-style", false)] |};
  {| q_data.text := "What is the correct HTML tag for inserting a line break?";
     q_data.type := Question.single;
     q_data.options :=
       [("<break>", false);
        ("<br>", true);
        ("<lb>", false);
        ("<newline>", false)] |};
  {| q_data.text := "Which of these are JavaScript frameworks? (Select all that apply)";
     q_data.type := Question.multiple;
     q_data.options :=
       [("React", true);
        ("Django", false);
        ("Vue.js", true);
        ("Flask", false)] |}
  ].

Definition gk_questions : list q_data.t :=
  [
  {| q_data.text := "What is the capital of France?";
     q_data.type := Question.single;
     q_data.options :=
       [("London", false);
        ("Berlin", false);
        ("Paris", true);
        ("Madrid", false)] |};
  {| q_data.text := "How many continents are there?";
     q_data.type := Question.single;
     q_data.options :=
       [("5", false);
        ("6", false);
        ("7", true);
        ("8", false)] |};
  {| q_data.text := "What is the largest planet in our solar system?";
     q_data.type := Question.single;
     q_data.options :=
       [("Earth", false);
        ("Mars", false);
        ("Jupiter", true);
        ("Saturn", false)] |}
  ].

(** Exceptions the command does not catch. *)
Inductive Exception :=
| DoesNotExist
| MultipleObjectsReturned.

(** [Model.objects.get(...)] on the rows that match. *)
Definition get {A} (matching : list (Z * A)) : Exception + (Z * A) :=
  match matching with
  | [] => inl DoesNotExist
  | [row] => inr row
  | _ :: _ :: _ => inl MultipleObjectsReturned
  end.

(** The categories named [name]. *)
Definition categories_named (db : Store) (name : string)
  : list (Z * Category.t) :=
  filter (λ r, Category.name r.2 = name) (order_by_id (categories db)).

(** The questions, deleted ones included, with this text and category. *)
Definition questions_matching (db : Store) (text : string) (category : Z)
  : list (Z * Question.t) :=
  filter (λ r, Question.text r.2 = text ∧ Question.category r.2 = category)
         (order_by_id (questions db)).

(** [Category.objects.get_or_create(name=..., defaults={'description': ...})]:
    the database after it, and the key of the category or the exception. *)
Definition Category_get_or_create (db : Store) (data : cat_data.t) (now : Z)
  : Store * (Exception + Z) :=
  match get (categories_named db (cat_data.name data)) with
  | inr category => (db, inr category.1)
  | inl DoesNotExist =>
      let id := auto_increment (categories db) in
      let row := {| Category.name := cat_data.name data;
                    Category.description := cat_data.description data;
                    Category.created_at := now |} in
      (with_categories db (<[id := row]> (categories db)), inr id)
  | inl e => (db, inl e)
  end.

(** [for cat_data in categories_data: Category.objects.get_or_create(...)] *)
Fixpoint load_categories (db : Store) (data : list cat_data.t) (now : Z)
  : Store * option Exception :=
  match data with
  | [] => (db, None)
  | cat :: rest =>
      match Category_get_or_create db cat now with
      | (db', inr _) => load_categories db' rest now
      | (db', inl e) => (db', Some e)
      end
  end.

(** [Question.objects.get_or_create(text=..., category=...,
      defaults={'question_type': ...})]: the database after it, and the key
    of the question with the [created] flag, or the exception. *)
Definition Question_get_or_create (db : Store) (text : string) (category : Z)
    (question_type : Question.QUESTION_TYPES) (now : Z)
  : Store * (Exception + (Z * bool)) :=
  match get (questions_matching db text category) with
  | inr question => (db, inr (question.1, false))
  | inl DoesNotExist =>
      let id := auto_increment (questions db) in
      let row := {| Question.category := category;
                    Question.text := text;
                    Question.question_type := question_type;
                    Question.is_deleted := false;
                    Question.deleted_at := None;
                    Question.created_at := now;
                    Question.updated_at := now |} in
      (with_questions db (<[id := row]> (questions db)), inr (id, true))
  | inl e => (db, inl e)
  end.

(** [for option_text, is_correct in q_data['options']:
       Option.objects.create(question=..., text=..., is_correct=...)] *)
Fixpoint create_options (db : Store) (question : Z)
    (options_data : list (string * bool)) : Store :=
  match options_data with
  | [] => db
  | (option_text, is_correct) :: rest =>
      let row := {| Option.question := question;
                    Option.text := option_text;
                    Option.is_correct := is_correct |} in
      create_options
        (with_options db (<[auto_increment (options db) := row]> (options db)))
        question rest
  end.

(** [for q_data in ..._questions: ...], the loop the command runs for each
    of its three lists. *)
Fixpoint load_questions (db : Store) (category : Z) (data : list q_data.t)
    (now : Z) : Store * option Exception :=
  match data with
  | [] => (db, None)
  | q :: rest =>
      match Question_get_or_create db (q_data.text q) category
                                   (q_data.type q) now with
      | (db', inr (question, created)) =>
          let db'' :=
            if created then create_options db' question (q_data.options q)
            else db' in
          load_questions db'' category rest now
      | (db', inl e) => (db', Some e)
      end
  end.

(** [cat = Category.objects.get(name=...)], then the loop over the
    questions of this category. *)
Definition load_category_questions (db : Store) (name : string)
    (data : list q_data.t) (now : Z) : Store * option Exception :=
  match get (categories_named db name) with
  | inl e => (db, Some e)
  | inr category => load_questions db category.1 data now
  end.

(** [Command.handle], on the tables of the quiz: the categories, then the
    questions of each category with their options.  (The lines it prints
    and the demo user, a row of the authentication tables, are outside
    this database.) *)
Definition handle (db : Store) (now : Z) : Store * option Exception :=
  match load_categories db categories_data now with
  | (db1, Some e) => (db1, Some e)
  | (db1, None) =>
  match load_category_questions db1 "Python Programming" python_questions now with
  | (db2, Some e) => (db2, Some e)
  | (db2, None) =>
  match load_category_questions db2 "Web Development" web_questions now with
  | (db3, Some e) => (db3, Some e)
  | (db3, None) =>
      load_category_questions db3 "General Knowledge" gk_questions now
  end
  end
  end.

End loaddemo.

Import models.

(** ** Notions the statements use *)

(** Option [o] is among the selected options of answer [answer_id]. *)
Definition selected_in (db : Store) (answer_id o : Z) : Prop :=
  (answer_id, o) ∈ selected_options db ∧ is_Some (options db !! o).

(** Option [o] is an option of question [question_id] marked correct. *)
Definition correct_for (db : Store) (question_id o : Z) : Prop :=
  ∃ row, options db !! o = Some row
         ∧ Option.question row = question_id
         ∧ Option.is_correct row = true.

(** The posted value [v] is the id of an option: a number, and the key of
    a row of the options. *)
Definition names_option (db : Store) (v : views.posted) : Prop :=
  match v with
  | views.numeral id => is_Some (options db !! id)
  | views.not_a_number => False
  end.

#[global] Instance names_option_dec db v : Decision (names_option db v).
Proof. destruct v; simpl; apply _. Defined.

(** The exception [Option.objects.get] raises on a posted value that is
    not the id of an option. *)
Definition lookup_error (v : views.posted) : views.Exception :=
  match v with
  | views.numeral _ => views.Option_DoesNotExist
  | views.not_a_number => views.ValueError
  end.

(** The database with the type of question [id] replaced by [f id]. *)
Definition retype (f : Z → Question.QUESTION_TYPES) (db : Store) : Store :=
  {| categories := categories db;
     questions :=
       map_imap (λ id q,
         Some {| Question.category := Question.category q;
                 Question.text := Question.text q;
                 Question.question_type := f id;
                 Question.is_deleted := Question.is_deleted q;
                 Question.deleted_at := Question.deleted_at q;
                 Question.created_at := Question.created_at q;
                 Question.updated_at := Question.updated_at q |})
         (questions db);
     options := options db; attempts := attempts db; answers := answers db;
     selected_options := selected_options db |}.

(** The foreign keys the database enforces on answers and on their
    selected options. *)
Definition fk_integrity (db : Store) : Prop :=
  map_Forall (λ _ a, is_Some (attempts db !! Answer.attempt a)) (answers db)
  ∧ set_Forall (λ p, is_Some (answers db !! p.1)) (selected_options db).

(** The eligible questions of a category: its questions that are not
    marked deleted. *)
Definition eligible (db : Store) (category_id : Z) : gmap Z Question.t :=
  filter (λ r, Question.category r.2 = category_id
               ∧ Question.is_deleted r.2 = false)
         (questions db).

(** The answer rows [start_quiz] inserts for the questions [qs], under
    consecutive keys from [first_id]. *)
Fixpoint created_answers (first_id attempt : Z) (qs : list Z) (now : Z)
  : list (Z * Answer.t) :=
  match qs with
  | [] => []
  | q :: rest =>
      (first_id,
       {| Answer.attempt := attempt; Answer.question := q;
          Answer.is_flagged := false; Answer.answered_at := now |})
      :: created_answers (first_id + 1) attempt rest now
  end.

(** The score [calculate_score] returns for an attempt with
    [total_answers] answers of which [correct_answers] are correct. *)
Definition score_of_counts (correct_answers total_answers : Z) : Py.num :=
  if total_answers =? 0 then Py.Int 0
  else Py.Float (Py.round (Py.mul (Py.truediv correct_answers total_answers)
                                  (Py.float_of_int 100)) 2).

(** A float that is not negative: a zero, a finite value or an infinity
    with the sign bit clear ([nan], which carries no sign here, counts
    as well). *)
Definition sign_clear (x : spec_float) : Prop :=
  match x with
  | S754_zero s | S754_infinity s | S754_finite s _ _ => s = false
  | S754_nan => True
  end.

(** A float that is a zero or finite with [digits + exponent <= B], that
    is, of magnitude below [2 ^ B]. *)
Definition finite_below (B : Z) (x : spec_float) : Prop :=
  match x with
  | S754_zero _ => True
  | S754_finite _ m e => Zdigits2 (Z.pos m) + e ≤ B
  | _ => False
  end.

(** ** A sample database *)

Module demo.

Definition category (name : string) : Category.t :=
  {| Category.name := name; Category.description := ""; Category.created_at := 0 |}.

Definition question (category : Z) (type : Question.QUESTION_TYPES)
    (deleted : option Z) (created : Z) : Question.t :=
  {| Question.category := category; Question.text := "?";
     Question.question_type := type;
     Question.is_deleted := bool_decide (is_Some deleted);
     Question.deleted_at := deleted;
     Question.created_at := created; Question.updated_at := created |}.

Definition option_ (question : Z) (text : string) (is_correct : bool) : Option.t :=
  {| Option.question := question; Option.text := text;
     Option.is_correct := is_correct |}.

Definition attempt (user category total_questions : Z) : QuizAttempt.t :=
  {| QuizAttempt.user := user; QuizAttempt.category := category;
     QuizAttempt.total_questions := total_questions;
     QuizAttempt.passing_score := 70; QuizAttempt.time_limit := 30;
     QuizAttempt.score := None; QuizAttempt.passed := false;
     QuizAttempt.started_at := 100; QuizAttempt.completed_at := None |}.

Definition answer (attempt question : Z) : Answer.t :=
  {| Answer.attempt := attempt; Answer.question := question;
     Answer.is_flagged := false; Answer.answered_at := 100 |}.

(** Three categories: the first with three questions, the second with
    a deleted question only, the third with a question none of whose
    options is marked correct.  No attempt yet. *)
Definition catalog : Store :=
  {| categories :=
       list_to_map [(1, category "Python Programming");
                    (2, category "Web Development");
                    (3, category "General Knowledge")];
     questions :=
       list_to_map [(1, question 1 Question.single None 10);
                    (2, question 1 Question.multiple None 11);
                    (3, question 1 Question.single None 12);
                    (4, question 2 Question.single (Some 20) 13);
                    (5, question 3 Question.single None 14)];
     options :=
       list_to_map [(1, option_ 1 "A" true); (2, option_ 1 "B" false);
                    (3, option_ 1 "C" false); (4, option_ 1 "D" false);
                    (5, option_ 2 "List" true); (6, option_ 2 "Tuple" false);
                    (7, option_ 2 "Dictionary" true); (8, option_ 2 "String" false);
                    (9, option_ 3 "def" true); (10, option_ 3 "func" false);
                    (11, option_ 4 "x" true); (12, option_ 4 "y" false);
                    (13, option_ 5 "p" false); (14, option_ 5 "q" false)];
     attempts := ∅;
     answers := ∅;
     selected_options := ∅ |}.

(** User 7 has an attempt on the first category with answers 1, 2, 3
    for questions 1, 2, 3, and an attempt on the third with answer 4
    for question 5.  Answers 1 and 2 select exactly the correct
    options, answer 3 a wrong one, answer 4 nothing. *)
Definition in_progress : Store :=
  {| categories := categories catalog;
     questions := questions catalog;
     options := options catalog;
     attempts := list_to_map [(1, attempt 7 1 3); (2, attempt 7 3 1)];
     answers :=
       list_to_map [(1, answer 1 1); (2, answer 1 2); (3, answer 1 3);
                    (4, answer 2 5)];
     selected_options := list_to_set [(1, 1); (2, 5); (2, 7); (3, 10)] |}.

Definition request (user : Z) (method : views.HttpRequest.Method)
    (option_ids : list Z) : views.HttpRequest.t :=
  {| views.HttpRequest.user := user; views.HttpRequest.method := method;
     views.HttpRequest.POST_options := views.numeral <$> option_ids |}.

End demo.

(** ** Notions of the further properties *)

(** The row under [id] replaced by [row']. *)
Definition replace_row {A} (id : Z) (row' : A) (r : Z * A) : Z * A :=
  if decide (r.1 = id) then (id, row') else r.

(** The entry [quiz_results] builds for an answer. *)
Definition result_entry_of (db : Store) (answer : Z * Answer.t) : views.result_entry :=
  {| views.res_question := Answer.question answer.2;
     views.res_selected_options := (selected_options_all db answer.1).*1;
     views.res_correct_options := (correct_options db (Answer.question answer.2)).*1;
     views.res_is_correct := is_correct db answer |}.

(** The [(attempt, question)] pair of an answer, the columns of its
    [unique_together]. *)
Definition attempt_question (r : Z * Answer.t) : Z * Z :=
  (Answer.attempt r.2, Answer.question r.2).

(** A consistent database: every foreign key refers to a stored row, no
    two categories share a name ([unique]) and no two answers attempt and
    question ([unique_together]), the question of an answer is of the
    category of its attempt, and an attempt records the number of its
    answers, between 1 and 10. *)
Definition consistent (db : Store) : Prop :=
  map_Forall (λ _ q, is_Some (categories db !! Question.category q)) (questions db)
  ∧ map_Forall (λ _ o, is_Some (questions db !! Option.question o)) (options db)
  ∧ map_Forall (λ _ a, is_Some (categories db !! QuizAttempt.category a)) (attempts db)
  ∧ map_Forall (λ _ a, is_Some (attempts db !! Answer.attempt a)
                       ∧ is_Some (questions db !! Answer.question a)) (answers db)
  ∧ set_Forall (λ p, is_Some (answers db !! p.1) ∧ is_Some (options db !! p.2))
               (selected_options db)
  ∧ NoDup (Category.name <$> (order_by_id (categories db)).*2)
  ∧ NoDup (attempt_question <$> order_by_id (answers db))
  ∧ map_Forall (λ _ a, Question.category <$> questions db !! Answer.question a
                       = QuizAttempt.category <$> attempts db !! Answer.attempt a)
               (answers db)
  ∧ map_Forall (λ id a, QuizAttempt.total_questions a
                        = Z.of_nat (length (answers_of db id))
                        ∧ 1 ≤ QuizAttempt.total_questions a ≤ 10)
               (attempts db).

(** [db'] extends [db]: the catalogue tables of [db'] hold every row of
    [db] unchanged, and the tables of the attempts are the same. *)
Definition extends (db db' : Store) : Prop :=
  categories db ⊆ categories db'
  ∧ questions db ⊆ questions db'
  ∧ options db ⊆ options db'
  ∧ attempts db' = attempts db
  ∧ answers db' = answers db
  ∧ selected_options db' = selected_options db.

(** The text and the flag of the options of a question, in key order, as
    the loader's data list them. *)
Definition options_data_of (db : Store) (question : Z) : list (string * bool) :=
  (λ r, (Option.text r.2, Option.is_correct r.2))
    <$> filter (λ r, Option.question r.2 = question) (order_by_id (options db)).

(** The three lists of questions of the command, under the names of their
    categories. *)
Definition questions_data : list (string * list loaddemo.q_data.t) :=
  [("Python Programming", loaddemo.python_questions);
   ("Web Development", loaddemo.web_questions);
   ("General Knowledge", loaddemo.gk_questions)].

(** What the loader's question loops leave in [db'], started in [db], when
    [data] holds of the categories and entries they ran over: a question
    that is new has the category and the text, type and options of an
    entry, the options appended to whatever options referred to its key;
    the options of the other keys are as before; a new option refers to a
    stored question. *)
Definition loaded (data : Z → loaddemo.q_data.t → Prop) (db db' : Store) : Prop :=
  (∀ id row, questions db' !! id = Some row → questions db !! id = None →
     ∃ q, data (Question.category row) q
          ∧ Question.text row = loaddemo.q_data.text q
          ∧ Question.question_type row = loaddemo.q_data.type q
          ∧ Question.is_deleted row = false
          ∧ options_data_of db' id
            = options_data_of db id ++ loaddemo.q_data.options q)
  ∧ (∀ id, is_Some (questions db !! id) ∨ questions db' !! id = None →
           options_data_of db' id = options_data_of db id)
  ∧ (∀ o row, options db' !! o = Some row →
              options db !! o = Some row
              ∨ is_Some (questions db' !! Option.question row)).

(** [db'] keeps the matches of [db]: a name or a text and category that
    [get_or_create] finds in [db] it finds in [db'] with the same rows, and
    where [db] has at most one match, so has [db']. *)
Definition keeps_matches (db db' : Store) : Prop :=
  (∀ name, loaddemo.categories_named db name ≠ [] →
           loaddemo.categories_named db' name = loaddemo.categories_named db name)
  ∧ (∀ name, (length (loaddemo.categories_named db name) ≤ 1)%nat →
             (length (loaddemo.categories_named db' name) ≤ 1)%nat)
  ∧ (∀ t c, loaddemo.questions_matching db t c ≠ [] →
            loaddemo.questions_matching db' t c = loaddemo.questions_matching db t c)
  ∧ (∀ t c, (length (loaddemo.questions_matching db t c) ≤ 1)%nat →
            (length (loaddemo.questions_matching db' t c) ≤ 1)%nat).

(** Some name or some text and category has two matches or more. *)
Definition ambiguous (db : Store) : Prop :=
  (∃ name, (2 ≤ length (loaddemo.categories_named db name))%nat)
  ∨ (∃ t c, (2 ≤ length (loaddemo.questions_matching db t c))%nat).

(** The database before anything is stored. *)
Definition empty_store : Store :=
  {| categories := ∅; questions := ∅; options := ∅; attempts := ∅;
     answers := ∅; selected_options := ∅ |}.

(** One write to the database by the code of the application: a request
    to one of the views that write, with a sample as [random.sample] draws
    it for [start_quiz], the soft delete of a stored question, or a run of
    the loader.  (The views that only read leave the database as it is.) *)
Inductive step : Store → Store → Prop :=
| step_start_quiz db request category_id now positions :
    views.sample_positions
      (length (views.all_questions db category_id))
      (Nat.min 10 (length (views.all_questions db category_id))) positions →
    step db (views.start_quiz db request category_id now positions).1.1
| step_question_view db request attempt_id answer_id now :
    step db (views.question_view db request attempt_id answer_id now).1.1
| step_toggle_flag db request answer_id now :
    step db (views.toggle_flag db request answer_id now).1.1
| step_submit_quiz db request attempt_id now :
    step db (views.submit_quiz db request attempt_id now).1.1
| step_Question_delete db id q now :
    questions db !! id = Some q →
    step db (Question_delete db (id, q) now)
| step_loaddemo db now :
    step db (loaddemo.handle db now).1.

(** A float that is a zero or finite of magnitude at most the integer [K]:
    [m * 2^e <= K], with the exponent not above 0. *)
Definition at_most (K : Z) (x : spec_float) : Prop :=
  match x with
  | S754_zero _ => True
  | S754_finite _ m e => e ≤ 0 ∧ Z.pos m ≤ K * 2 ^ (- e)
  | _ => False
  end.

(** * Tables read in key order *)

Section tables.
Context {A : Type}.
Implicit Types (table : gmap Z A) (id : Z) (row : A).

#[global] Instance by_id_total : Total (@by_id A).
Proof. intros r1 r2. unfold by_id. lia. Qed.

#[global] Instance by_id_trans : Transitive (@by_id A).
Proof. intros r1 r2 r3. unfold by_id. lia. Qed.

Lemma order_by_id_perm table : order_by_id table ≡ₚ map_to_list table.
Proof. apply merge_sort_Permutation. Qed.

Lemma elem_of_order_by_id table id row :
  (id, row) ∈ order_by_id table ↔ table !! id = Some row.
Proof. by rewrite order_by_id_perm, elem_of_map_to_list. Qed.

Lemma order_by_id_keys_NoDup table : NoDup (order_by_id table).*1.
Proof. rewrite order_by_id_perm. apply NoDup_fst_map_to_list. Qed.

Lemma order_by_id_NoDup table : NoDup (order_by_id table).
Proof. eapply NoDup_fmap_1, order_by_id_keys_NoDup. Qed.

Lemma order_by_id_sorted table : StronglySorted by_id (order_by_id table).
Proof. apply StronglySorted_merge_sort; apply _. Qed.

Lemma order_by_id_length table : length (order_by_id table) = size table.
Proof. by rewrite order_by_id_perm, length_map_to_list. Qed.

(** Two key-sorted listings of one table are the same list. *)
Lemma order_by_id_unique table (l : list (Z * A)) :
  StronglySorted by_id l → l ≡ₚ map_to_list table → l = order_by_id table.
Proof.
  intros Hl Hp. apply (StronglySorted_unique_strong by_id).
  - intros [i1 x1] [i2 x2] H1 H2. unfold by_id; simpl. intros ? ?.
    assert (i1 = i2) as -> by lia.
    rewrite Hp in H1. apply elem_of_order_by_id in H2.
    apply elem_of_map_to_list in H1. congruence.
  - done.
  - apply order_by_id_sorted.
  - by rewrite Hp, order_by_id_perm.
Qed.

(** The keys of the table are strictly increasing in the listing. *)
Lemma order_by_id_keys_sorted table :
  StronglySorted Z.lt (order_by_id table).*1.
Proof.
  pose proof (order_by_id_sorted table) as Hs.
  pose proof (order_by_id_keys_NoDup table) as Hn.
  induction Hs as [|r l _ IH Hr]; csimpl in *; [constructor|].
  apply NoDup_cons in Hn as [Hr' Hn].
  constructor; [by apply IH|].
  apply Forall_fmap, Forall_forall. intros r' Hin.
  rewrite Forall_forall in Hr. specialize (Hr _ Hin). unfold by_id in Hr.
  assert (r.1 ≠ r'.1); [|simpl; lia].
  intros Heq. apply Hr'. rewrite Heq. by apply list_elem_of_fmap_2.
Qed.

Lemma auto_increment_above table id row :
  table !! id = Some row → id < auto_increment table.
Proof.
  intros Hin. apply elem_of_map_to_list in Hin.
  apply (list_elem_of_fmap_2 fst) in Hin. simpl in Hin.
  unfold auto_increment. induction Hin; simpl; lia.
Qed.

Lemma auto_increment_fresh table : table !! auto_increment table = None.
Proof.
  destruct (table !! auto_increment table) eqn:E; [|done].
  apply auto_increment_above in E. lia.
Qed.

(** A row stored under a key above all others comes last. *)
Lemma order_by_id_insert_last table id row :
  (∀ id' row', table !! id' = Some row' → id' < id) →
  order_by_id (<[id := row]> table) = order_by_id table ++ [(id, row)].
Proof.
  intros Hmax. symmetry. apply order_by_id_unique.
  - apply StronglySorted_app_2.
    + intros [i1 x1] r2 H1 ->%list_elem_of_singleton.
      apply elem_of_order_by_id, Hmax in H1. unfold by_id; simpl. lia.
    + apply order_by_id_sorted.
    + repeat constructor.
  - rewrite map_to_list_insert.
    + by rewrite order_by_id_perm, Permutation_app_comm.
    + destruct (table !! id) eqn:E; [|done]. apply Hmax in E. lia.
Qed.

Lemma order_by_id_create table row :
  order_by_id (<[auto_increment table := row]> table)
  = order_by_id table ++ [(auto_increment table, row)].
Proof. apply order_by_id_insert_last, auto_increment_above. Qed.

Lemma auto_increment_create table row :
  auto_increment (<[auto_increment table := row]> table)
  = auto_increment table + 1.
Proof.
  unfold auto_increment at 1.
  assert (∀ l1 l2 : list Z, l1 ≡ₚ l2 → foldr Z.max 0 l1 = foldr Z.max 0 l2) as Hperm.
  { induction 1; simpl; lia. }
  rewrite (Hperm _ ((auto_increment table, row) :: map_to_list table).*1).
  - csimpl. fold (auto_increment table - 1).
    unfold auto_increment. lia.
  - apply fmap_Permutation, map_to_list_insert, auto_increment_fresh.
Qed.

End tables.

(** * Grading an answer *)

Section grading.
Implicit Types (db : Store) (self : Z * Answer.t).

Lemma elem_of_set_ {A} (rows : list (Z * A)) id :
  id ∈ set_ rows ↔ ∃ row, (id, row) ∈ rows.
Proof.
  unfold set_. rewrite elem_of_list_to_set, list_elem_of_fmap. split.
  - intros [[i row] [-> Hin]]. by exists row.
  - intros [row Hin]. by exists (id, row).
Qed.

Lemma elem_of_correct_options db question_id id row :
  (id, row) ∈ correct_options db question_id
  ↔ options db !! id = Some row
    ∧ Option.question row = question_id ∧ Option.is_correct row = true.
Proof.
  unfold correct_options.
  rewrite list_elem_of_filter, elem_of_order_by_id. simpl. tauto.
Qed.

Lemma elem_of_selected_options_all db answer_id id row :
  (id, row) ∈ selected_options_all db answer_id
  ↔ options db !! id = Some row ∧ (answer_id, id) ∈ selected_options db.
Proof.
  unfold selected_options_all.
  rewrite list_elem_of_filter, elem_of_order_by_id. simpl. tauto.
Qed.

Lemma set_correct_options db question_id o :
  o ∈ set_ (correct_options db question_id) ↔ correct_for db question_id o.
Proof.
  rewrite elem_of_set_. unfold correct_for.
  by setoid_rewrite elem_of_correct_options.
Qed.

Lemma set_selected_options db answer_id o :
  o ∈ set_ (selected_options_all db answer_id) ↔ selected_in db answer_id o.
Proof.
  rewrite elem_of_set_. unfold selected_in, is_Some.
  setoid_rewrite elem_of_selected_options_all. split.
  - intros (row & Hrow & Hin). eauto.
  - intros (Hin & row & Hrow). eauto.
Qed.

Lemma is_correct_spec db self :
  is_correct db self = true
  ↔ ∀ o, selected_in db self.1 o ↔ correct_for db (Answer.question self.2) o.
Proof.
  unfold is_correct. rewrite bool_decide_eq_true, set_eq.
  setoid_rewrite set_correct_options. setoid_rewrite set_selected_options.
  split; intros H o; by rewrite H.
Qed.

Lemma is_correct_retype f db self :
  is_correct (retype f db) self = is_correct db self.
Proof. reflexivity. Qed.

Lemma selected_options_all_nil db answer_id :
  selected_options_all db answer_id = [] ↔ ∀ o, ¬ selected_in db answer_id o.
Proof.
  split.
  - intros Hnil o Hsel. apply set_selected_options in Hsel.
    rewrite Hnil in Hsel. unfold set_ in Hsel. set_solver.
  - intros Hno. destruct (selected_options_all db answer_id) as [|[o row] l] eqn:E;
      [done|].
    destruct (Hno o). apply set_selected_options, elem_of_set_.
    exists row. rewrite E. left.
Qed.

End grading.

(** C1.  An answer is graded correct exactly when its selected options are
    the options of its question that are marked correct: every option is
    selected if and only if it is a correct option of the question.  The
    grade does not depend on the question types: it is the same whatever
    type each question is given. *)
Theorem is_correct_exact_match (db : Store) (self : Z * Answer.t) :
  (is_correct db self = true
   ↔ ∀ o, selected_in db self.1 o ↔ correct_for db (Answer.question self.2) o)
  ∧ (∀ f, is_correct (retype f db) self = is_correct db self).
Proof.
  split; [apply is_correct_spec|].
  intros f. apply is_correct_retype.
Qed.

(** The single-answer question of the sample database has options 1 (A,
    correct), 2, 3 and 4: selecting {A} is correct, {A, B} and {} are not. *)
Example is_correct_single_question :
  let answer_1 := (1, demo.answer 1 1) in
  let selecting ids :=
    with_selected_options demo.in_progress (list_to_set ((λ o, (1, o)) <$> ids)) in
  is_correct (selecting [1]) answer_1 = true
  ∧ is_correct (selecting [1; 2]) answer_1 = false
  ∧ is_correct (selecting []) answer_1 = false.
Proof. by vm_compute. Qed.

(** The multiple-answer question has correct options 5 (List) and 7
    (Dictionary) among 5 to 8. *)
Example is_correct_multiple_question :
  let answer_2 := (2, demo.answer 1 2) in
  let selecting ids :=
    with_selected_options demo.in_progress (list_to_set ((λ o, (2, o)) <$> ids)) in
  is_correct (selecting [5; 7]) answer_2 = true
  ∧ is_correct (selecting [5]) answer_2 = false
  ∧ is_correct (selecting [5; 7; 6]) answer_2 = false.
Proof. by vm_compute. Qed.

(** C10.  When no option of the answer's question is marked correct, the
    answer is graded correct exactly when no option is selected for it; an
    untouched answer to such a question, with no pair in the table of the
    selections, is correct. *)
Theorem is_correct_without_correct_option (db : Store) (self : Z * Answer.t) :
  (∀ o, ¬ correct_for db (Answer.question self.2) o) →
  (is_correct db self = true ↔ ∀ o, ¬ selected_in db self.1 o)
  ∧ ((∀ o, (self.1, o) ∉ selected_options db) → is_correct db self = true).
Proof.
  intros Hno.
  assert (is_correct db self = true ↔ ∀ o, ¬ selected_in db self.1 o) as Hiff.
  { rewrite is_correct_spec. split.
    - intros H o Hsel. by apply (Hno o), H.
    - intros H o. split; intros Ho; [by apply H in Ho | by apply Hno in Ho]. }
  split; [done|].
  intros Hempty. apply Hiff. intros o [Hin _]. by apply (Hempty o).
Qed.

Lemma is_correct_without_correct_option_witness :
  (is_correct demo.in_progress (4, demo.answer 2 5) = true
   ↔ ∀ o, ¬ selected_in demo.in_progress 4 o)
  ∧ ((∀ o, (4, o) ∉ selected_options demo.in_progress) →
     is_correct demo.in_progress (4, demo.answer 2 5) = true).
Proof.
  apply (is_correct_without_correct_option demo.in_progress (4, demo.answer 2 5)).
  intros o (row & Hrow & Hquestion & Hcorrect).
  assert (map_Forall (λ _ r, ¬ (Option.question r = 5 ∧ Option.is_correct r = true))
                     (options demo.in_progress)) as Hall by compute_done.
  by apply (Hall o row Hrow).
Defined.

(** * Ownership of attempts *)

Section ownership.
Implicit Types (db : Store) (request : views.HttpRequest.t).

Lemma get_attempt_or_404_Some db attempt_id user attempt :
  views.get_attempt_or_404 db attempt_id user = Some attempt
  ↔ attempts db !! attempt_id = Some attempt ∧ QuizAttempt.user attempt = user.
Proof.
  unfold views.get_attempt_or_404.
  destruct (attempts db !! attempt_id) as [row|]; [|by split; [|intros []]].
  case_decide; (split; [intros [= <-] | intros [[= <-] ?]]); done.
Qed.

Lemma get_answer_or_404_Some db answer_id attempt_id answer :
  views.get_answer_or_404 db answer_id attempt_id = Some answer
  ↔ answers db !! answer_id = Some answer ∧ Answer.attempt answer = attempt_id.
Proof.
  unfold views.get_answer_or_404.
  destruct (answers db !! answer_id) as [row|]; [|by split; [|intros []]].
  case_decide; (split; [intros [= <-] | intros [[= <-] ?]]); done.
Qed.

Lemma get_attempt_or_404_other_user db attempt_id user attempt :
  attempts db !! attempt_id = Some attempt →
  QuizAttempt.user attempt ≠ user →
  views.get_attempt_or_404 db attempt_id user = None.
Proof.
  intros Hrow Hne. unfold views.get_attempt_or_404. rewrite Hrow.
  by case_decide.
Qed.

(** The views that look the attempt up with [user=request.user] answer
    404 to anybody but its owner and leave the database as it is. *)
Lemma attempt_views_other_user db request attempt_id answer_id now attempt :
  attempts db !! attempt_id = Some attempt →
  QuizAttempt.user attempt ≠ views.HttpRequest.user request →
  views.question_view db request attempt_id answer_id now = (db, [], views.Http404)
  ∧ views.review_panel db request attempt_id = (db, [], views.Http404)
  ∧ views.submit_quiz db request attempt_id now = (db, [], views.Http404)
  ∧ views.quiz_results db request attempt_id = (db, [], views.Http404).
Proof.
  intros Hrow Hne.
  pose proof (get_attempt_or_404_other_user _ _ _ _ Hrow Hne) as Hnone.
  unfold views.question_view, views.review_panel, views.submit_quiz,
    views.quiz_results.
  by rewrite Hnone.
Qed.

End ownership.

Lemma attempt_views_other_user_witness :
  let db := demo.in_progress in
  let request := demo.request 8 views.HttpRequest.POST [1] in
  views.question_view db request 1 1 200 = (db, [], views.Http404)
  ∧ views.review_panel db request 1 = (db, [], views.Http404)
  ∧ views.submit_quiz db request 1 200 = (db, [], views.Http404)
  ∧ views.quiz_results db request 1 = (db, [], views.Http404).
Proof.
  apply (attempt_views_other_user demo.in_progress
           (demo.request 8 views.HttpRequest.POST [1]) 1 1 200 (demo.attempt 7 1 3)).
  - reflexivity.
  - simpl. lia.
Defined.

(** C4.  [toggle_flag] looks the answer up by its id alone.  In the sample
    database answer 1 belongs to attempt 1 of user 7; a request of user 8
    flips its flag and is answered with the new value, while the views that
    filter on the owner answer the same user with 404 and change nothing. *)
Theorem toggle_flag_ignores_owner :
  let db := demo.in_progress in
  let intruder := demo.request 8 views.HttpRequest.POST [] in
  QuizAttempt.user <$> attempts db !! 1 = Some 7
  ∧ Answer.attempt <$> answers db !! 1 = Some 1
  ∧ Answer.is_flagged <$> answers db !! 1 = Some false
  ∧ (views.toggle_flag db intruder 1 200).2 = views.JsonResponse true
  ∧ Answer.is_flagged <$> answers (views.toggle_flag db intruder 1 200).1.1 !! 1
    = Some true
  ∧ views.question_view db intruder 1 1 200 = (db, [], views.Http404).
Proof. by vm_compute. Qed.

(** * Flagging *)

(** C9.  [toggle_flag] stores the negation of the answer's flag and
    answers with the stored value; a second call stores and answers the
    original flag again. *)
Theorem toggle_flag_twice (db : Store) (request request' : views.HttpRequest.t)
    (answer_id now now' : Z) (answer : Answer.t) :
  answers db !! answer_id = Some answer →
  ∃ db1 db2,
    views.toggle_flag db request answer_id now
    = (db1, [], views.JsonResponse (negb (Answer.is_flagged answer)))
    ∧ Answer.is_flagged <$> answers db1 !! answer_id
      = Some (negb (Answer.is_flagged answer))
    ∧ views.toggle_flag db1 request' answer_id now'
      = (db2, [], views.JsonResponse (Answer.is_flagged answer))
    ∧ Answer.is_flagged <$> answers db2 !! answer_id
      = Some (Answer.is_flagged answer).
Proof.
  intros Hrow. unfold views.toggle_flag. rewrite Hrow.
  eexists _, _. split; [reflexivity|].
  unfold views.Answer_save; simpl. rewrite !lookup_insert_eq. simpl.
  rewrite negb_involutive.
  split; [done|]. split; [reflexivity|].
  simpl. by rewrite lookup_insert_eq.
Qed.

Lemma toggle_flag_twice_witness :
  ∃ db1 db2,
    views.toggle_flag demo.in_progress (demo.request 7 views.HttpRequest.POST []) 2 200
    = (db1, [], views.JsonResponse true)
    ∧ Answer.is_flagged <$> answers db1 !! 2 = Some true
    ∧ views.toggle_flag db1 (demo.request 7 views.HttpRequest.POST []) 2 201
      = (db2, [], views.JsonResponse false)
    ∧ Answer.is_flagged <$> answers db2 !! 2 = Some false.
Proof.
  apply (toggle_flag_twice demo.in_progress _ _ 2 200 201 (demo.answer 1 2)).
  reflexivity.
Defined.

(** * Starting a quiz *)

Section sampling.
Context {A : Type}.
Implicit Types (population : list A) (positions : list nat).

Lemma filter_all (P : A → Prop) `{∀ x, Decision (P x)} (l : list A) :
  Forall P l → filter P l = l.
Proof.
  induction 1 as [|x l Hx _ IH]; [done|].
  by rewrite filter_cons_True, IH.
Qed.

Lemma filter_none (P : A → Prop) `{∀ x, Decision (P x)} (l : list A) :
  Forall (λ x, ¬ P x) l → filter P l = [].
Proof.
  induction 1 as [|x l Hx _ IH]; [done|].
  by rewrite filter_cons_False.
Qed.

Lemma omap_lookup_in_range population positions :
  Forall (λ i, (i < length population)%nat) positions →
  length (omap (λ i, population !! i) positions) = length positions
  ∧ (∀ x, x ∈ omap (λ i, population !! i) positions
          ↔ ∃ i, i ∈ positions ∧ population !! i = Some x).
Proof.
  intros Hrange. split; [|intros x; apply list_elem_of_omap].
  induction Hrange as [|i l Hi _ IH]; [done|]. csimpl.
  destruct (lookup_lt_is_Some_2 population i Hi) as [x ->]. simpl.
  by rewrite IH.
Qed.

Lemma omap_lookup_NoDup population positions :
  NoDup population → NoDup positions →
  NoDup (omap (λ i, population !! i) positions).
Proof.
  intros Hpop. induction 1 as [|i l Hi Hl IH]; csimpl; [constructor|].
  destruct (population !! i) as [x|] eqn:Hx; simpl; [|done].
  constructor; [|done].
  rewrite list_elem_of_omap. intros (j & Hj & Hx').
  assert (i = j) as -> by apply (NoDup_lookup population i j x Hpop Hx Hx').
  done.
Qed.

(** What the caller of [random.sample] gets: [k] elements of the
    population, no position taken twice. *)
Lemma random_sample_spec population k positions :
  views.sample_positions (length population) k positions →
  length (views.random_sample population k positions) = k
  ∧ (∀ x, x ∈ views.random_sample population k positions → x ∈ population)
  ∧ (NoDup population → NoDup (views.random_sample population k positions)).
Proof.
  intros (Hlen & Hnodup & Hrange). unfold views.random_sample.
  rewrite take_ge by lia.
  destruct (omap_lookup_in_range population positions Hrange) as [Hl Hin].
  split; [lia|]. split.
  - intros x (i & _ & Hi)%Hin. by eapply list_elem_of_lookup_2.
  - intros Hpop. by apply omap_lookup_NoDup.
Qed.

Lemma random_sample_fmap {B} (f : A → B) population k positions :
  f <$> views.random_sample population k positions
  = views.random_sample (f <$> population) k positions.
Proof.
  unfold views.random_sample. rewrite list_fmap_omap.
  apply list_omap_ext, Forall_Forall2_diag, Forall_forall.
  intros i _. by rewrite list_lookup_fmap.
Qed.

End sampling.

Section start_quiz.
Implicit Types (db : Store) (request : views.HttpRequest.t).

Lemma elem_of_all_questions db category_id id q :
  (id, q) ∈ views.all_questions db category_id
  ↔ eligible db category_id !! id = Some q.
Proof.
  unfold views.all_questions, eligible.
  rewrite list_elem_of_filter, merge_sort_Permutation, elem_of_order_by_id.
  rewrite map_lookup_filter_Some. simpl. tauto.
Qed.

Lemma all_questions_keys_NoDup db category_id :
  NoDup (views.all_questions db category_id).*1.
Proof.
  unfold views.all_questions.
  assert (∀ l : list (Z * Question.t), NoDup l.*1 →
            NoDup (filter (λ r, Question.category r.2 = category_id
                                ∧ Question.is_deleted r.2 = false) l).*1) as Hf.
  { induction l as [|r l IH]; [done|]. csimpl. intros [Hr Hl]%NoDup_cons.
    rewrite filter_cons. case_decide; csimpl; [|by apply IH].
    apply NoDup_cons. split; [|by apply IH].
    intros (r' & Heq & Hin%list_elem_of_filter)%list_elem_of_fmap.
    apply Hr. rewrite Heq. apply list_elem_of_fmap_2. tauto. }
  apply Hf. rewrite merge_sort_Permutation. apply order_by_id_keys_NoDup.
Qed.

Lemma all_questions_perm db category_id :
  views.all_questions db category_id ≡ₚ map_to_list (eligible db category_id).
Proof.
  apply NoDup_Permutation.
  - eapply NoDup_fmap_1, all_questions_keys_NoDup.
  - apply NoDup_map_to_list.
  - intros [id q]. by rewrite elem_of_all_questions, elem_of_map_to_list.
Qed.

(** The view sees as many questions as the category has eligible ones. *)
Lemma all_questions_length db category_id :
  length (views.all_questions db category_id) = size (eligible db category_id).
Proof. by rewrite all_questions_perm, length_map_to_list. Qed.

Lemma created_answers_keys first_id attempt qs now id row :
  (id, row) ∈ created_answers first_id attempt qs now →
  first_id ≤ id
  ∧ Answer.attempt row = attempt ∧ Answer.is_flagged row = false
  ∧ Answer.question row ∈ qs.
Proof.
  revert first_id. induction qs as [|q rest IH]; intros first_id; simpl.
  - by intros ?%not_elem_of_nil.
  - intros [[= -> ->] | Hin]%elem_of_cons.
    + simpl. split; [lia|]. split; [done|]. split; [done|]. left.
    + apply IH in Hin as (? & ? & ? & ?).
      split; [lia|]. split; [done|]. split; [done|]. by right.
Qed.

Lemma created_answers_length first_id attempt qs now :
  length (created_answers first_id attempt qs now) = length qs.
Proof.
  revert first_id. induction qs as [|q rest IH]; intros first_id; [done|].
  simpl. by rewrite IH.
Qed.

Lemma created_answers_questions first_id attempt qs now :
  Answer.question <$> (created_answers first_id attempt qs now).*2 = qs.
Proof.
  revert first_id. induction qs as [|q rest IH]; intros first_id; [done|].
  csimpl. by rewrite IH.
Qed.

(** The loop over the sampled questions: with no question twice and none
    answered in the attempt before, every [create] succeeds and the new
    rows follow the old ones in key order. *)
Lemma create_answers_ok db attempt (qs : list (Z * Question.t)) now :
  NoDup qs.*1 →
  (∀ id r, answers db !! id = Some r → Answer.attempt r = attempt →
           Answer.question r ∉ qs.*1) →
  ∃ db',
    views.create_answers db attempt qs now = (db', None)
    ∧ order_by_id (answers db')
      = order_by_id (answers db)
        ++ created_answers (auto_increment (answers db)) attempt qs.*1 now
    ∧ (∀ id r, answers db !! id = Some r → answers db' !! id = Some r)
    ∧ categories db' = categories db ∧ questions db' = questions db
    ∧ options db' = options db ∧ attempts db' = attempts db
    ∧ selected_options db' = selected_options db.
Proof.
  revert db. induction qs as [|q rest IH]; intros db Hnodup Hnew; simpl.
  { exists db. rewrite app_nil_r. by repeat split. }
  csimpl in Hnodup. apply NoDup_cons in Hnodup as [Hq Hrest].
  unfold views.Answer_create.
  rewrite (filter_none (λ r, Answer.question r.2 = q.1)).
  2:{ apply Forall_forall. intros [id r] Hin Hsame. simpl in Hsame.
      apply list_elem_of_filter in Hin as [Hatt Hin]. simpl in Hatt.
      apply elem_of_order_by_id in Hin.
      apply (Hnew id r Hin Hatt). rewrite Hsame. left. }
  set (row := {| Answer.attempt := attempt; Answer.question := q.1;
                 Answer.is_flagged := false; Answer.answered_at := now |}).
  set (db1 := with_answers db (<[auto_increment (answers db) := row]> (answers db))).
  destruct (IH db1 Hrest) as (db' & Hrun & Horder & Hkept & Hc & Hqs & Ho & Ha & Hs).
  { intros id r. unfold db1; simpl. rewrite lookup_insert.
    case_decide as Hid.
    - intros [= <-] _. done.
    - intros Hr Hatt Hin. apply (Hnew id r Hr Hatt). by right. }
  exists db'. split; [done|]. split.
  { rewrite Horder. unfold db1; simpl.
    rewrite order_by_id_create, auto_increment_create, <- app_assoc. done. }
  split.
  { intros id r Hr. apply Hkept. unfold db1; simpl.
    rewrite lookup_insert_ne; [done|].
    intros <-. by rewrite auto_increment_fresh in Hr. }
  by rewrite Hc, Hqs, Ho, Ha, Hs.
Qed.

End start_quiz.

(** C6.  For a category without eligible questions [start_quiz] queues the
    error message, redirects to the dashboard and leaves the database as
    it was: no attempt and no answer is created. *)
Theorem start_quiz_no_questions (db : Store) (request : views.HttpRequest.t)
    (category_id now : Z) (positions : list nat) (category : Category.t) :
  categories db !! category_id = Some category →
  eligible db category_id = ∅ →
  views.start_quiz db request category_id now positions
  = (db,
     [(views.ERROR, "No questions available for " +:+ Category.name category)],
     views.redirect views.to_dashboard).
Proof.
  intros Hcat Hnone. unfold views.start_quiz. rewrite Hcat.
  by rewrite all_questions_length, Hnone, map_size_empty.
Qed.

Lemma start_quiz_no_questions_witness :
  views.start_quiz demo.catalog (demo.request 7 views.HttpRequest.GET []) 2 100 [0%nat]
  = (demo.catalog,
     [(views.ERROR, "No questions available for Web Development")],
     views.redirect views.to_dashboard).
Proof.
  apply (start_quiz_no_questions demo.catalog _ 2 100 [0%nat]
           (demo.category "Web Development")); reflexivity.
Defined.

(** C5.  For a category with [k > 0] eligible questions and a draw of
    [min 10 k] distinct positions, [start_quiz] inserts one attempt, under a
    key not used before, with [total_questions = min 10 k], no score, not
    passed and not completed, and redirects to it.  The sampled questions
    are [min 10 k] distinct eligible questions of the category; the answers
    of the new attempt, in key order, are one per sampled question in the
    order of the sample, each not flagged and with nothing selected.  The
    answers that were there before are kept. *)
Theorem start_quiz_creates_attempt (db : Store) (request : views.HttpRequest.t)
    (category_id now : Z) (positions : list nat) (category : Category.t) :
  fk_integrity db →
  categories db !! category_id = Some category →
  (0 < size (eligible db category_id))%nat →
  views.sample_positions (size (eligible db category_id))
                         (Nat.min 10 (size (eligible db category_id)))
                         positions →
  ∃ db' attempt_id attempt sampled,
    views.start_quiz db request category_id now positions
    = (db', [], views.redirect (views.to_take_quiz attempt_id))
    ∧ attempts db !! attempt_id = None
    ∧ attempts db' = <[attempt_id := attempt]> (attempts db)
    ∧ QuizAttempt.user attempt = views.HttpRequest.user request
    ∧ QuizAttempt.category attempt = category_id
    ∧ QuizAttempt.total_questions attempt
      = Z.of_nat (Nat.min 10 (size (eligible db category_id)))
    ∧ QuizAttempt.score attempt = None
    ∧ QuizAttempt.passed attempt = false
    ∧ QuizAttempt.completed_at attempt = None
    ∧ length sampled = Nat.min 10 (size (eligible db category_id))
    ∧ NoDup sampled
    ∧ (∀ q, q ∈ sampled → is_Some (eligible db category_id !! q))
    ∧ length (answers_of db' attempt_id)
      = Nat.min 10 (size (eligible db category_id))
    ∧ Answer.question <$> (answers_of db' attempt_id).*2 = sampled
    ∧ (∀ a, a ∈ answers_of db' attempt_id →
            Answer.is_flagged a.2 = false ∧ selected_options_all db' a.1 = [])
    ∧ (∀ id r, answers db !! id = Some r → answers db' !! id = Some r).
Proof.
  intros [Hfk_answers Hfk_selected] Hcat Hk Hdraw.
  unfold views.start_quiz. rewrite Hcat.
  pose proof (all_questions_length db category_id) as Hlen.
  set (all_questions := views.all_questions db category_id) in *.
  set (k := size (eligible db category_id)) in *.
  destruct (Z.eqb_spec (Z.of_nat (length all_questions)) 0) as [|_]; [lia|].
  replace (Z.to_nat (Z.min 10 (Z.of_nat (length all_questions))))
    with (Nat.min 10 k) by lia.
  assert (views.sample_positions (length all_questions) (Nat.min 10 k) positions)
    as Hdraw1 by (by rewrite Hlen).
  assert (views.sample_positions (length all_questions.*1) (Nat.min 10 k) positions)
    as Hdraw2 by (by rewrite length_fmap).
  set (selected_questions :=
         views.random_sample all_questions (Nat.min 10 k) positions).
  destruct (random_sample_spec all_questions _ _ Hdraw1) as (Hslen & Hsin & _).
  assert (NoDup selected_questions.*1) as Hsnodup.
  { unfold selected_questions. rewrite random_sample_fmap.
    apply (random_sample_spec _ _ _ Hdraw2), all_questions_keys_NoDup. }
  unfold views.QuizAttempt_create.
  set (attempt_id := auto_increment (attempts db)).
  set (attempt := {| QuizAttempt.user := views.HttpRequest.user request;
                     QuizAttempt.category := category_id |}).
  set (db1 := with_attempts db (<[attempt_id := attempt]> (attempts db))).
  assert (∀ id r, answers db !! id = Some r → Answer.attempt r ≠ attempt_id)
    as Hold.
  { intros id r Hr Heq. destruct (Hfk_answers id r Hr) as [x Hx]. simpl in Hx.
    rewrite Heq in Hx. unfold attempt_id in Hx.
    by rewrite auto_increment_fresh in Hx. }
  destruct (create_answers_ok db1 attempt_id selected_questions now Hsnodup)
    as (db' & -> & Horder & Hkept & _ & _ & Ho & Ha & Hs).
  { intros id r Hr Heq. by destruct (Hold id r Hr). }
  assert (answers_of db' attempt_id
          = created_answers (auto_increment (answers db)) attempt_id
                            selected_questions.*1 now) as Hanswers.
  { unfold answers_of. rewrite Horder, filter_app.
    rewrite filter_none, filter_all; [done| |].
    - apply Forall_forall. intros [id r] Hin.
      by apply created_answers_keys in Hin as (_ & ? & _).
    - apply Forall_forall. intros [id r] Hin%elem_of_order_by_id.
      by apply Hold in Hin. }
  exists db', attempt_id, attempt, selected_questions.*1.
  split; [done|]. split; [apply auto_increment_fresh|]. split; [done|].
  do 2 (split; [done|]). split; [unfold attempt; cbn [QuizAttempt.total_questions]; lia|].
  do 3 (split; [done|]).
  split; [by rewrite length_fmap|]. split; [done|]. split.
  { intros q (r & -> & Hin%Hsin)%list_elem_of_fmap. destruct r as [id row].
    exists row. by apply elem_of_all_questions. }
  rewrite Hanswers. split.
  { by rewrite created_answers_length, length_fmap. }
  split; [apply created_answers_questions|]. split; [|done].
  intros [id r] Hin. apply created_answers_keys in Hin as (Hid & _ & Hflag & _).
  split; [done|]. simpl. apply filter_none, Forall_forall.
  intros [o orow] _. simpl. rewrite Hs. intros Hsel.
  destruct (Hfk_selected _ Hsel) as [x Hx]. simpl in Hx.
  apply auto_increment_above in Hx. lia.
Qed.

Lemma start_quiz_creates_attempt_witness :
  ∃ db' attempt_id,
    views.start_quiz demo.in_progress (demo.request 8 views.HttpRequest.GET [])
                     1 300 [2; 0; 1]%nat
    = (db', [], views.redirect (views.to_take_quiz attempt_id))
    ∧ length (answers_of db' attempt_id) = 3%nat
    ∧ (∀ a, a ∈ answers_of db' attempt_id →
            Answer.is_flagged a.2 = false ∧ selected_options_all db' a.1 = []).
Proof.
  destruct (start_quiz_creates_attempt demo.in_progress
              (demo.request 8 views.HttpRequest.GET []) 1 300 [2; 0; 1]%nat
              (demo.category "Python Programming"))
    as (db' & attempt_id & attempt & sampled & Hrun & _ & _ & _ & _ & _ & _ & _
        & _ & _ & _ & _ & Hlen & _ & Hfresh & _).
  - split; compute_done.
  - reflexivity.
  - vm_compute. lia.
  - split; [reflexivity|]. split; compute_done.
  - exists db', attempt_id. split; [exact Hrun|]. split; [exact Hlen|exact Hfresh].
Defined.

(** * Navigation between the answers of an attempt *)

Section navigation.
Implicit Types (db : Store) (l before after : list Z).

Lemma elem_of_answers_of db attempt_id id row :
  (id, row) ∈ answers_of db attempt_id
  ↔ answers db !! id = Some row ∧ Answer.attempt row = attempt_id.
Proof.
  unfold answers_of. rewrite list_elem_of_filter, elem_of_order_by_id.
  simpl. tauto.
Qed.

Lemma elem_of_ordered_ids db attempt_id id :
  id ∈ views.ordered_ids db attempt_id
  ↔ ∃ row, answers db !! id = Some row ∧ Answer.attempt row = attempt_id.
Proof.
  unfold views.ordered_ids. rewrite list_elem_of_fmap. split.
  - intros ([i row] & -> & Hin%elem_of_answers_of). by exists row.
  - intros (row & Hin). exists (id, row). by rewrite elem_of_answers_of.
Qed.

Lemma filter_keys_sorted {A} (P : Z * A → Prop) `{∀ r, Decision (P r)}
    (rows : list (Z * A)) :
  StronglySorted Z.lt rows.*1 → StronglySorted Z.lt (filter P rows).*1.
Proof.
  induction rows as [|r rows IH]; [done|]. csimpl.
  intros [Hr Hrows]%StronglySorted_cons. rewrite filter_cons.
  case_decide; csimpl; [|by apply IH].
  apply StronglySorted_cons. split; [|by apply IH].
  rewrite Forall_forall in Hr |- *.
  intros id (r' & -> & Hin%list_elem_of_filter)%list_elem_of_fmap.
  apply Hr, list_elem_of_fmap_2. tauto.
Qed.

(** The ids the view navigates over are in ascending key order. *)
Lemma ordered_ids_sorted db attempt_id :
  StronglySorted Z.lt (views.ordered_ids db attempt_id).
Proof. apply filter_keys_sorted, order_by_id_keys_sorted. Qed.

Lemma index_split l x :
  x ∈ l →
  ∃ before after,
    l = before ++ x :: after ∧ (x ∉ before)
    ∧ views.index l x = Some (Z.of_nat (length before)).
Proof.
  intros Hin. apply list_elem_of_split_l in Hin as (before & after & -> & Hnot).
  exists before, after. split; [done|]. split; [done|].
  unfold views.index.
  assert (list_find (λ y, y = x) (before ++ x :: after)
          = Some (length before, x)) as ->; [|done].
  apply list_find_Some. split; [by apply list_lookup_middle|].
  split; [done|]. intros j y Hj Hlt ->.
  rewrite lookup_app_l in Hj by done.
  by apply list_elem_of_lookup_2 in Hj.
Qed.

Lemma nav_prev before x after :
  (if 0 <? Z.of_nat (length before)
   then views.item (before ++ x :: after) (Z.of_nat (length before) - 1)
   else None) = last before.
Proof.
  destruct before as [|y before _] using rev_ind; [done|].
  rewrite length_app, last_snoc. simpl.
  destruct (Z.ltb_spec 0 (Z.of_nat (length before + 1))) as [_|]; [|lia].
  unfold views.item.
  replace (Z.to_nat (Z.of_nat (length before + 1) - 1)) with (length before) by lia.
  rewrite <- app_assoc. by apply list_lookup_middle.
Qed.

Lemma nav_next before x after :
  (if Z.of_nat (length before)
      <? Z.of_nat (length (before ++ x :: after)) - 1
   then views.item (before ++ x :: after) (Z.of_nat (length before) + 1)
   else None) = head after.
Proof.
  rewrite length_app. simpl. destruct after as [|y after]; simpl.
  - destruct (Z.ltb_spec (Z.of_nat (length before))
                (Z.of_nat (length before + 1) - 1)); [lia|done].
  - destruct (Z.ltb_spec (Z.of_nat (length before))
                (Z.of_nat (length before + S (S (length after))) - 1)); [|lia].
    unfold views.item.
    replace (Z.to_nat (Z.of_nat (length before) + 1))
      with (length before + 1)%nat by lia.
    rewrite lookup_app_r by lia.
    by replace (length before + 1 - length before)%nat with 1%nat by lia.
Qed.

Lemma nav_first before :
  (Z.of_nat (length before) =? 0) = bool_decide (before = []).
Proof. by destruct before. Qed.

Lemma nav_last before x after :
  (Z.of_nat (length before)
   =? Z.of_nat (length (before ++ x :: after)) - 1)
  = bool_decide (after = []).
Proof.
  rewrite length_app. destruct after; simpl.
  - apply Z.eqb_eq. lia.
  - apply Z.eqb_neq. lia.
Qed.

End navigation.

(** C8.  The answer ids of an attempt, as [question_view] reads them, are
    the keys of its answers in ascending order, the order in which the rows
    were inserted.  The requested answer occurs in this sequence, and
    whenever the view renders, [prev_id] and [next_id] are its neighbours in
    the sequence ([None] where there is none), and [is_first] and [is_last]
    say whether nothing precedes or follows it.  A GET request always
    renders and changes nothing. *)
Theorem question_view_navigation (db : Store) (request : views.HttpRequest.t)
    (attempt_id answer_id now : Z) (attempt : QuizAttempt.t) (answer : Answer.t) :
  views.get_attempt_or_404 db attempt_id (views.HttpRequest.user request)
  = Some attempt →
  views.get_answer_or_404 db answer_id attempt_id = Some answer →
  ∃ before after,
    views.ordered_ids db attempt_id = before ++ answer_id :: after
    ∧ StronglySorted Z.lt (views.ordered_ids db attempt_id)
    ∧ (∀ id, id ∈ views.ordered_ids db attempt_id
             ↔ ∃ row, answers db !! id = Some row
                      ∧ Answer.attempt row = attempt_id)
    ∧ (∀ db' messages context,
         views.question_view db request attempt_id answer_id now
         = (db', messages, views.render_question_view context) →
         views.prev_id context = last before
         ∧ views.next_id context = head after
         ∧ views.is_first context = bool_decide (before = [])
         ∧ views.is_last context = bool_decide (after = []))
    ∧ (views.HttpRequest.method request = views.HttpRequest.GET →
       ∃ context,
         views.question_view db request attempt_id answer_id now
         = (db, [], views.render_question_view context)).
Proof.
  intros Hattempt Hanswer.
  assert (answer_id ∈ views.ordered_ids db attempt_id) as Hin.
  { apply elem_of_ordered_ids. exists answer.
    by apply get_answer_or_404_Some. }
  destruct (index_split _ _ Hin) as (before & after & Hsplit & _ & Hidx).
  exists before, after. split; [done|].
  split; [apply ordered_ids_sorted|]. split; [apply elem_of_ordered_ids|].
  unfold views.question_view. rewrite Hattempt, Hanswer, Hidx.
  rewrite Hsplit, nav_prev, nav_next, nav_first, nav_last.
  split.
  - intros db' messages context.
    destruct (views.HttpRequest.method request).
    + intros [= _ _ <-]. done.
    + destruct (views.selected_options_add_each _ _ _) as [db1 [e|]].
      * intros [=].
      * intros [= _ _ <-]. done.
  - intros ->. eauto.
Qed.

Lemma question_view_navigation_witness :
  ∃ before after,
    views.ordered_ids demo.in_progress 1 = before ++ 2 :: after
    ∧ ∀ db' messages context,
        views.question_view demo.in_progress
                            (demo.request 7 views.HttpRequest.GET []) 1 2 200
        = (db', messages, views.render_question_view context) →
        views.prev_id context = last before
        ∧ views.next_id context = head after
        ∧ views.is_first context = bool_decide (before = [])
        ∧ views.is_last context = bool_decide (after = []).
Proof.
  destruct (question_view_navigation demo.in_progress
              (demo.request 7 views.HttpRequest.GET []) 1 2 200
              (demo.attempt 7 1 3) (demo.answer 1 2))
    as (before & after & Hsplit & _ & _ & Hnav & _).
  - reflexivity.
  - reflexivity.
  - exists before, after. split; [exact Hsplit|exact Hnav].
Defined.

(** In the sample database the answers of attempt 1 are 1, 2, 3: the first
    has no predecessor and 2 next, the last has no successor. *)
Example question_view_navigation_example :
  let get answer_id :=
    (views.question_view demo.in_progress
       (demo.request 7 views.HttpRequest.GET []) 1 answer_id 200).2 in
  views.ordered_ids demo.in_progress 1 = [1; 2; 3]
  ∧ (∃ c, get 1 = views.render_question_view c
          ∧ views.is_first c = true ∧ views.is_last c = false
          ∧ views.prev_id c = None ∧ views.next_id c = Some 2)
  ∧ (∃ c, get 3 = views.render_question_view c
          ∧ views.is_first c = false ∧ views.is_last c = true
          ∧ views.prev_id c = Some 2 ∧ views.next_id c = None).
Proof.
  split; [by vm_compute|].
  split; eexists; (split; [vm_compute; reflexivity|done]).
Qed.

(** * Saving a selection *)

Section selection.
Implicit Types (db : Store) (ids before : list Z) (rest after : list views.posted).

Lemma with_selected_options_twice db s1 s2 :
  with_selected_options (with_selected_options db s1) s2
  = with_selected_options db s2.
Proof. reflexivity. Qed.

(** As long as every posted value is the id of an option, the loop adds
    one pair after the other. *)
Lemma selected_options_add_each_prefix db answer_id before rest :
  Forall (λ o, is_Some (options db !! o)) before →
  views.selected_options_add_each db answer_id ((views.numeral <$> before) ++ rest)
  = views.selected_options_add_each
      (with_selected_options db
         (list_to_set ((λ o, (answer_id, o)) <$> before) ∪ selected_options db))
      answer_id rest.
Proof.
  revert db. induction before as [|o before IH]; intros db Hall.
  - simpl. rewrite (left_id_L ∅ (∪)). by destruct db.
  - apply Forall_cons in Hall as [[row Hrow] Hall]. simpl. rewrite Hrow.
    rewrite IH by done. rewrite with_selected_options_twice. simpl.
    do 2 f_equal. rewrite (assoc_L (∪)). f_equal. apply (comm_L (∪)).
Qed.

Lemma selected_options_add_each_all db answer_id ids :
  Forall (λ o, is_Some (options db !! o)) ids →
  views.selected_options_add_each db answer_id (views.numeral <$> ids)
  = (with_selected_options db
       (list_to_set ((λ o, (answer_id, o)) <$> ids) ∪ selected_options db),
     None).
Proof.
  intros Hall. rewrite <- (app_nil_r (views.numeral <$> ids)).
  by rewrite selected_options_add_each_prefix.
Qed.

(** The first posted value that is not the id of an option ends the loop
    with the exception of its lookup. *)
Lemma selected_options_add_each_missing db answer_id before bad after :
  Forall (λ o, is_Some (options db !! o)) before →
  ¬ names_option db bad →
  views.selected_options_add_each db answer_id
    ((views.numeral <$> before) ++ bad :: after)
  = (with_selected_options db
       (list_to_set ((λ o, (answer_id, o)) <$> before) ∪ selected_options db),
     Some (lookup_error bad)).
Proof.
  intros Hall Hbad. rewrite selected_options_add_each_prefix by done.
  destruct bad as [id|]; simpl in *; [|done].
  destruct (options db !! id) as [row|]; [|done].
  destruct Hbad. by eexists.
Qed.

(** A list of posted values is a list of ids of options, or has a first
    value that is none. *)
Lemma posted_ids db (l : list views.posted) :
  Forall (names_option db) l →
  ∃ ids, l = views.numeral <$> ids ∧ Forall (λ o, is_Some (options db !! o)) ids.
Proof.
  induction 1 as [|v l Hv _ (ids & -> & Hids)]; [by exists []|].
  destruct v as [id|]; [|done]. exists (id :: ids). split; [done|].
  by apply Forall_cons.
Qed.

Lemma posted_first_bad db (l : list views.posted) :
  ¬ Forall (names_option db) l →
  ∃ before bad after,
    l = (views.numeral <$> before) ++ bad :: after
    ∧ Forall (λ o, is_Some (options db !! o)) before
    ∧ ¬ names_option db bad.
Proof.
  induction l as [|v l IH]; intros Hnot; [by destruct Hnot|].
  destruct (decide (names_option db v)) as [Hv|Hv].
  - destruct IH as (before & bad & after & -> & Hbefore & Hbad).
    { intros Hl. apply Hnot. by apply Forall_cons. }
    destruct v as [id|]; [|done].
    exists (id :: before), bad, after. split; [done|]. split; [|done].
    by apply Forall_cons.
  - by exists [], v, l.
Qed.

(** The pairs in the table after [clear] and the additions [stored]. *)
Lemma elem_of_cleared_and_added (s : gset (Z * Z)) answer_id stored a o :
  (a, o) ∈ list_to_set ((λ o, (answer_id, o)) <$> stored)
           ∪ filter (λ p, p.1 ≠ answer_id) s
  ↔ if decide (a = answer_id) then o ∈ stored else (a, o) ∈ s.
Proof.
  rewrite elem_of_union, elem_of_list_to_set, list_elem_of_fmap, elem_of_filter.
  simpl. case_decide as Ha.
  - subst a. split.
    + intros [(o' & [= ->] & Hin) | [Hne _]]; [done|by destruct Hne].
    + intros Hin. left. by exists o.
  - split.
    + intros [(o' & [= -> _] & _) | [_ Hin]]; [by destruct Ha|done].
    + intros Hin. by right.
Qed.

End selection.

(** C3, as the code has it.  A POST to [question_view] whose posted values
    are all ids of options, whichever questions own these options, replaces
    the selection of the answer by the posted ids and renders.  A POST
    with a value that is not the id of an option fails: with the exception
    of the lookup of the first such value, [Option.DoesNotExist] for a
    number that is the key of no option and [ValueError] for a value that
    is no number.  The selections of the other answers are untouched in
    both cases. *)
Theorem question_view_post_selection (db : Store) (request : views.HttpRequest.t)
    (attempt_id answer_id now : Z) (attempt : QuizAttempt.t) (answer : Answer.t) :
  views.get_attempt_or_404 db attempt_id (views.HttpRequest.user request)
  = Some attempt →
  views.get_answer_or_404 db answer_id attempt_id = Some answer →
  views.HttpRequest.method request = views.HttpRequest.POST →
  (∀ ids,
     views.HttpRequest.POST_options request = views.numeral <$> ids →
     Forall (λ o, is_Some (options db !! o)) ids →
     ∃ db' context,
       views.question_view db request attempt_id answer_id now
       = (db', [], views.render_question_view context)
       ∧ ∀ a o, (a, o) ∈ selected_options db'
                ↔ if decide (a = answer_id) then o ∈ ids
                  else (a, o) ∈ selected_options db)
  ∧ (¬ Forall (names_option db) (views.HttpRequest.POST_options request) →
     ∃ db' before bad after,
       views.HttpRequest.POST_options request
       = (views.numeral <$> before) ++ bad :: after
       ∧ Forall (λ o, is_Some (options db !! o)) before
       ∧ ¬ names_option db bad
       ∧ views.question_view db request attempt_id answer_id now
         = (db', [], views.ServerError (lookup_error bad))
       ∧ ∀ a o, a ≠ answer_id →
                ((a, o) ∈ selected_options db' ↔ (a, o) ∈ selected_options db)).
Proof.
  intros Hattempt Hanswer Hpost.
  assert (answer_id ∈ views.ordered_ids db attempt_id) as Hin.
  { apply elem_of_ordered_ids. exists answer.
    by apply get_answer_or_404_Some. }
  destruct (index_split _ _ Hin) as (before' & after' & _ & _ & Hidx).
  unfold views.question_view. rewrite Hattempt, Hanswer, Hidx, Hpost.
  split.
  - intros ids -> Hall.
    rewrite selected_options_add_each_all by done.
    eexists _, _. split; [reflexivity|].
    intros a o. simpl. apply elem_of_cleared_and_added.
  - intros (before & bad & after & Hposted & Hall & Hbad)%posted_first_bad.
    rewrite Hposted, selected_options_add_each_missing by done.
    eexists _, before, bad, after. do 3 (split; [done|]).
    split; [reflexivity|].
    intros a o Ha. simpl. rewrite elem_of_cleared_and_added.
    by rewrite decide_False.
Qed.

Lemma question_view_post_selection_witness :
  ∃ db' context,
    views.question_view demo.in_progress
                        (demo.request 7 views.HttpRequest.POST [2; 3]) 1 1 200
    = (db', [], views.render_question_view context)
    ∧ ∀ a o, (a, o) ∈ selected_options db'
             ↔ if decide (a = 1) then o ∈ [2; 3]
               else (a, o) ∈ selected_options demo.in_progress.
Proof.
  destruct (question_view_post_selection demo.in_progress
              (demo.request 7 views.HttpRequest.POST [2; 3]) 1 1 200
              (demo.attempt 7 1 3) (demo.answer 1 1)) as [Hall _].
  - reflexivity.
  - reflexivity.
  - reflexivity.
  - apply (Hall [2; 3]); [reflexivity|compute_done].
Defined.

(** C3 as the specification words it does not hold.  Answer 1 of the
    sample database is for question 1 and has option 1 selected; option 9
    belongs to question 3.  Posting option 9 for answer 1 is not refused:
    the view renders, and answer 1 now has option 9 selected instead of
    option 1. *)
Lemma question_view_accepts_option_of_other_question :
  let db := demo.in_progress in
  let posted :=
    views.question_view db (demo.request 7 views.HttpRequest.POST [9]) 1 1 200 in
  Answer.question <$> answers db !! 1 = Some 1
  ∧ Option.question <$> options db !! 9 = Some 3
  ∧ (selected_options_all db 1).*1 = [1]
  ∧ (∃ context, posted.2 = views.render_question_view context)
  ∧ (selected_options_all posted.1.1 1).*1 = [9].
Proof.
  do 3 (split; [by vm_compute|]).
  split; [eexists; vm_compute; reflexivity|by vm_compute].
Qed.

(** An id that names no option fails the request half way: answer 2 had
    options 5 and 7 selected; posting 5, 99, 7 leaves it with option 5. *)
Example question_view_missing_option_partial :
  let db := demo.in_progress in
  let posted :=
    views.question_view db (demo.request 7 views.HttpRequest.POST [5; 99; 7]) 1 2 200 in
  (selected_options_all db 2).*1 = [5; 7]
  ∧ posted.2 = views.ServerError views.Option_DoesNotExist
  ∧ (selected_options_all posted.1.1 2).*1 = [5].
Proof. by vm_compute. Qed.

(** So does a value that is no number, with [ValueError]: posting 5, abc, 7
    for answer 2 leaves it with option 5 as well. *)
Example question_view_not_a_number_partial :
  let db := demo.in_progress in
  let request :=
    {| views.HttpRequest.user := 7;
       views.HttpRequest.method := views.HttpRequest.POST;
       views.HttpRequest.POST_options :=
         [views.numeral 5; views.not_a_number; views.numeral 7] |} in
  let posted := views.question_view db request 1 2 200 in
  posted.2 = views.ServerError views.ValueError
  ∧ (selected_options_all posted.1.1 2).*1 = [5].
Proof. by vm_compute. Qed.

(** * Scoring and submission *)

Section score.
Implicit Types (db : Store) (x y : spec_float).

Lemma calculate_score_counts db self :
  calculate_score db self
  = score_of_counts
      (Z.of_nat (length (filter (λ a, is_correct db a = true) (answers_of db self))))
      (Z.of_nat (length (answers_of db self))).
Proof. reflexivity. Qed.

(** An attempt without answers scores the integer 0. *)
Lemma calculate_score_no_answers db self :
  answers_of db self = [] → calculate_score db self = Py.Int 0.
Proof. intros H. unfold calculate_score. by rewrite H. Qed.

Lemma binary_round_aux_sign_clear m e l :
  sign_clear (binary_round_aux Py.prec Py.emax false m e l).
Proof.
  unfold binary_round_aux.
  destruct (shr_fexp _ _ m e l) as [mrs' e'].
  destruct (shr_fexp _ _ _ e' loc_Exact) as [mrs'' e''].
  destruct (shr_m mrs''); [done| |done].
  by destruct (e'' <=? Py.emax - Py.prec).
Qed.

Lemma exact_sign_clear n : 0 ≤ n → sign_clear (Py.exact n).
Proof. destruct n; [done|done|lia]. Qed.

Lemma SFdiv_sign_clear x y :
  sign_clear x → sign_clear y → sign_clear (SFdiv Py.prec Py.emax x y).
Proof.
  destruct x as [sx|sx| |sx mx ex], y as [sy|sy| |sy my ey]; simpl;
    try done; try (by intros -> ->).
  intros -> ->. simpl.
  destruct (SFdiv_core_binary _ _ _ _ _ _) as [[mz ez] lz].
  apply binary_round_aux_sign_clear.
Qed.

Lemma mul_sign_clear x y :
  sign_clear x → sign_clear y → sign_clear (Py.mul x y).
Proof.
  destruct x as [sx|sx| |sx mx ex], y as [sy|sy| |sy my ey]; simpl;
    try done; try (by intros -> ->).
  intros -> ->. apply binary_round_aux_sign_clear.
Qed.

Lemma round_sign_clear x ndigits :
  sign_clear x → sign_clear (Py.round x ndigits).
Proof.
  destruct x as [s|s| |s m e]; try done.
  intros Hs. simpl in Hs. subst s. unfold Py.round.
  destruct (Py.scaled_half_even m e _); [done| |done].
  apply SFdiv_sign_clear; [done|].
  apply exact_sign_clear. lia.
Qed.

(** The score is never negative. *)
Lemma score_of_counts_sign_clear correct_answers total_answers :
  0 ≤ correct_answers → 0 ≤ total_answers →
  match score_of_counts correct_answers total_answers with
  | Py.Int n => n = 0
  | Py.Float x => sign_clear x
  end.
Proof.
  intros Hc Ht. unfold score_of_counts.
  destruct (total_answers =? 0); [done|].
  apply round_sign_clear, mul_sign_clear; [|done].
  apply SFdiv_sign_clear; by apply exact_sign_clear.
Qed.

(** For a float that is not negative, comparing it with an integer is
    comparing its integer part. *)
Lemma ge_int_of_float x z n :
  sign_clear x → Py.int_of_float x = Some z →
  Py.ge (Py.Float x) n = (n <=? z).
Proof.
  destruct x as [s|s| |s m e]; try done.
  - intros _ [= <-]. unfold Py.ge; simpl. by destruct n.
  - intros Hs. simpl in Hs. subst s.
    unfold Py.int_of_float, Py.ge, Py.compare_int, Py.float_compare_int, cond_Zopp.
    intros [= <-]. destruct (0 <=? e) eqn:He.
    + generalize (Z.pos m * 2 ^ e). intros v.
      destruct (Z.compare_spec v n); symmetry;
        [apply Z.leb_le|apply Z.leb_gt|apply Z.leb_le]; lia.
    + apply Z.leb_gt in He.
      assert (0 < 2 ^ (- e)) as Hd by (apply Z.pow_pos_nonneg; lia).
      revert Hd. generalize (2 ^ (- e)). intros d Hd.
      destruct (Z.compare_spec (Z.pos m) (n * d)); symmetry.
      * apply Z.leb_le, Z.div_le_lower_bound; lia.
      * apply Z.leb_gt, Z.div_lt_upper_bound; lia.
      * apply Z.leb_le, Z.div_le_lower_bound; lia.
Qed.

Lemma ge_of_eq v n : Py.eq v n = true → Py.ge v n = true.
Proof.
  unfold Py.eq, Py.ge. by destruct (Py.compare_int v n) as [[]|].
Qed.

(** What [submit_quiz] stores when the save goes through. *)
Lemma submit_quiz_Some db self now score db' :
  models.submit_quiz db self now = Some (score, db') →
  score = calculate_score db self.1
  ∧ ∃ stored_score,
      Py.int_ score = Some stored_score
      ∧ attempts db' !! self.1
        = Some {| QuizAttempt.user := QuizAttempt.user self.2;
                  QuizAttempt.category := QuizAttempt.category self.2;
                  QuizAttempt.total_questions := QuizAttempt.total_questions self.2;
                  QuizAttempt.passing_score := QuizAttempt.passing_score self.2;
                  QuizAttempt.time_limit := QuizAttempt.time_limit self.2;
                  QuizAttempt.score := Some stored_score;
                  QuizAttempt.passed :=
                    Py.ge score (QuizAttempt.passing_score self.2);
                  QuizAttempt.started_at := QuizAttempt.started_at self.2;
                  QuizAttempt.completed_at := Some now |}.
Proof.
  unfold models.submit_quiz.
  destruct (Py.int_ (calculate_score db self.1)) as [stored|] eqn:Hint;
    simpl; [|done].
  intros [= <- <-]. split; [done|]. exists stored. split; [done|].
  simpl. by rewrite lookup_insert_eq.
Qed.

End score.

(** * The range of the score

    The operations of [calculate_score] on counts [0 <= correct <= total]
    stay finite: the quotient is at most 1, the percentage at most 100,
    and [round] keeps it there.  The bounds are on [digits + exponent] of
    the results of [binary_round_aux]. *)

Section float_range.

Lemma digits2_pos_size p : digits2_pos p = Pos.size p.
Proof. induction p; simpl; congruence. Qed.

Lemma Zdigits2_log2 m : 0 < m → Zdigits2 m = Z.log2 m + 1.
Proof.
  destruct m as [|p|p]; [lia| |lia]. intros _. simpl.
  rewrite digits2_pos_size. destruct p; simpl; lia.
Qed.

Lemma Zdigits2_nonneg m : 0 ≤ Zdigits2 m.
Proof. destruct m; simpl; lia. Qed.

(** m < 2 ^ k bounds the number of digits. *)
Lemma Zdigits2_le m k : 0 ≤ m → 0 ≤ k → m < 2 ^ k → Zdigits2 m ≤ k.
Proof.
  intros Hm Hk Hlt. destruct (decide (m = 0)) as [->|]; [done|].
  rewrite Zdigits2_log2 by lia.
  assert (Z.log2 m < k); [|lia]. apply Z.log2_lt_pow2; lia.
Qed.

Lemma Zdigits2_lt_pow2 m : 0 ≤ m → m < 2 ^ Zdigits2 m.
Proof.
  intros Hm. destruct (decide (m = 0)) as [->|]; [done|].
  rewrite Zdigits2_log2 by lia.
  apply Z.log2_spec. lia.
Qed.

Lemma Zdigits2_ge_pow2 m : 0 < m → 2 ^ (Zdigits2 m - 1) ≤ m.
Proof.
  intros Hm. rewrite Zdigits2_log2 by lia.
  replace (Z.log2 m + 1 - 1) with (Z.log2 m) by lia.
  apply Z.log2_spec. lia.
Qed.

Lemma shr_1_m r : 0 ≤ shr_m r → shr_m (shr_1 r) = shr_m r / 2.
Proof.
  destruct r as [m rr ss]. simpl. intros Hm.
  destruct m as [|[p|p|]|p]; try done; try lia; simpl.
  - rewrite Pos2Z.inj_xI. apply (Z.div_unique _ _ _ 1); lia.
  - rewrite Pos2Z.inj_xO. apply (Z.div_unique _ _ _ 0); lia.
Qed.

Lemma iter_pos_shr_1_m p r :
  0 ≤ shr_m r → shr_m (SpecFloat.iter_pos shr_1 p r) = shr_m r / 2 ^ Z.pos p.
Proof.
  revert r. induction p as [p IH|p IH|]; intros r Hr; simpl.
  - assert (0 ≤ shr_m (shr_1 r)) by (rewrite shr_1_m by done; apply Z.div_pos; lia).
    assert (0 ≤ shr_m (SpecFloat.iter_pos shr_1 p (shr_1 r)))
      by (rewrite IH by done; apply Z.div_pos; [done|apply Z.pow_pos_nonneg; lia]).
    rewrite !IH, shr_1_m by done.
    assert (0 < 2 ^ Z.pos p) by (apply Z.pow_pos_nonneg; lia).
    rewrite !Z.div_div by lia. f_equal.
    rewrite Pos2Z.inj_xI.
    replace (2 * Z.pos p + 1) with (1 + Z.pos p + Z.pos p) by lia.
    rewrite !Z.pow_add_r by lia. change (2 ^ 1) with 2. ring.
  - assert (0 ≤ shr_m (SpecFloat.iter_pos shr_1 p r))
      by (rewrite IH by done; apply Z.div_pos; [done|apply Z.pow_pos_nonneg; lia]).
    rewrite !IH by done.
    assert (0 < 2 ^ Z.pos p) by (apply Z.pow_pos_nonneg; lia).
    rewrite Z.div_div by lia. f_equal.
    rewrite Pos2Z.inj_xO. rewrite <- Z.pow_add_r by lia. f_equal. lia.
  - rewrite shr_1_m by done. done.
Qed.

Lemma Zdigits2_div_pow2 m n :
  0 ≤ m → 0 ≤ n → Zdigits2 (m / 2 ^ n) ≤ Z.max 0 (Zdigits2 m - n).
Proof.
  intros Hm Hn.
  pose proof (Zdigits2_nonneg m) as Hd.
  pose proof (Zdigits2_lt_pow2 m Hm) as Hlt.
  assert (0 < 2 ^ n) by (apply Z.pow_pos_nonneg; lia).
  assert (0 ≤ m / 2 ^ n) by (apply Z.div_pos; lia).
  destruct (Z.le_gt_cases n (Zdigits2 m)) as [Hle|Hgt].
  - rewrite Z.max_r by lia. apply Zdigits2_le; [done|lia|].
    apply Z.div_lt_upper_bound; [done|].
    rewrite <- Z.pow_add_r by lia. by replace (n + (Zdigits2 m - n)) with (Zdigits2 m) by lia.
  - rewrite Z.max_l by lia.
    rewrite Z.div_small; [done|]. split; [done|].
    eapply Z.lt_le_trans; [exact Hlt|]. apply Z.pow_le_mono_r; lia.
Qed.

Lemma shr_record_of_loc_m m l : shr_m (shr_record_of_loc m l) = m.
Proof. by destruct l as [|[]]. Qed.

Lemma shr_fexp_bound m e l :
  0 ≤ m →
  let r := shr_fexp Py.prec Py.emax m e l in
  0 ≤ shr_m r.1
  ∧ r.2 = Z.max e (fexp Py.prec Py.emax (Zdigits2 m + e))
  ∧ Zdigits2 (shr_m r.1) + r.2 ≤ Z.max (Zdigits2 m + e) r.2.
Proof.
  intros Hm. unfold shr_fexp, shr.
  set (n := fexp Py.prec Py.emax (Zdigits2 m + e) - e).
  pose proof (Zdigits2_nonneg m) as Hd.
  destruct n as [|p|p] eqn:Hn; simpl; rewrite ?shr_record_of_loc_m.
  - split; [done|]. split; lia.
  - rewrite iter_pos_shr_1_m by (by rewrite shr_record_of_loc_m).
    rewrite shr_record_of_loc_m.
    pose proof (Zdigits2_div_pow2 m (Z.pos p) Hm).
    split; [apply Z.div_pos; [done|apply Z.pow_pos_nonneg; lia]|].
    split; lia.
  - split; [done|]. split; lia.
Qed.

Lemma round_nearest_even_bound m l :
  0 ≤ m →
  0 ≤ round_nearest_even m l
  ∧ Zdigits2 (round_nearest_even m l) ≤ Zdigits2 m + 1.
Proof.
  intros Hm.
  assert (Zdigits2 (m + 1) ≤ Zdigits2 m + 1) as Hsucc.
  { pose proof (Zdigits2_nonneg m). apply Zdigits2_le; [lia|lia|].
    pose proof (Zdigits2_lt_pow2 m Hm).
    rewrite Z.pow_add_r, Z.pow_1_r by lia. lia. }
  unfold round_nearest_even. destruct l as [|[]]; try (split; lia).
  destruct (Z.even m); split; lia.
Qed.

Lemma binary_round_aux_finite s m e l B :
  0 ≤ m → Zdigits2 m + e ≤ B → -1074 ≤ B ≤ 971 →
  finite_below (B + 1) (binary_round_aux Py.prec Py.emax s m e l).
Proof.
  intros Hm HB Hrange. unfold binary_round_aux.
  pose proof (shr_fexp_bound m e l Hm) as H1. simpl in H1.
  destruct (shr_fexp Py.prec Py.emax m e l) as [mrs' e']. simpl in H1.
  destruct H1 as (Hm1 & He' & Hd1).
  pose proof (round_nearest_even_bound (shr_m mrs') (loc_of_shr_record mrs') Hm1)
    as [Hm2 Hd2].
  set (m2 := round_nearest_even (shr_m mrs') (loc_of_shr_record mrs')) in *.
  pose proof (shr_fexp_bound m2 e' loc_Exact Hm2) as H2. simpl in H2.
  destruct (shr_fexp Py.prec Py.emax m2 e' loc_Exact) as [mrs'' e'']. simpl in H2.
  destruct H2 as (Hm3 & He'' & Hd3).
  pose proof (Zdigits2_nonneg m) as Hd.
  unfold fexp, emin, Py.prec, Py.emax in *.
  destruct (shr_m mrs'') as [|p|p] eqn:Hm''; simpl; [done| |lia].
  simpl in Hd3.
  destruct (Z.leb_spec e'' (1024 - 53)); simpl; lia.
Qed.

Lemma SFdiv_core_binary_bound m1 e1 m2 e2 :
  0 < m1 → 0 < m2 →
  let r := SFdiv_core_binary Py.prec Py.emax m1 e1 m2 e2 in
  0 ≤ r.1.1
  ∧ Zdigits2 r.1.1 + r.1.2
    ≤ Z.max (Zdigits2 m1 + e1 - (Zdigits2 m2 + e2) + 1) (e1 - e2).
Proof.
  intros Hm1 Hm2. unfold SFdiv_core_binary.
  set (e' := Z.min _ (e1 - e2)).
  set (s := e1 - e2 - e').
  assert (0 ≤ s) as Hs by lia.
  set (m' := match s with Z.pos _ => Z.shiftl m1 s | 0 => m1 | Z.neg _ => 0 end).
  assert (m' = m1 * 2 ^ s) as Hm'.
  { unfold m'. destruct s as [|p|p] eqn:E; [lia| |lia].
    by rewrite Z.shiftl_mul_pow2. }
  pose proof (Z_div_mod m' m2 ltac:(lia)) as Hdiv.
  destruct (Z.div_eucl m' m2) as [q r]. simpl. destruct Hdiv as [Hq Hr].
  assert (0 < 2 ^ s) by (apply Z.pow_pos_nonneg; lia).
  assert (0 ≤ q) as Hq0 by nia.
  split; [done|].
  pose proof (Zdigits2_lt_pow2 m1 ltac:(lia)) as H1.
  pose proof (Zdigits2_ge_pow2 m2 Hm2) as H2.
  pose proof (Zdigits2_nonneg m1) as Hd1.
  assert (1 ≤ Zdigits2 m2) as Hd2 by (destruct m2; simpl; lia).
  set (d1 := Zdigits2 m1) in *. set (d2 := Zdigits2 m2) in *.
  assert (q * 2 ^ (d2 - 1) < 2 ^ (d1 + s)) as Hlt.
  { rewrite Z.pow_add_r by lia.
    assert (0 < 2 ^ (d2 - 1)) by (apply Z.pow_pos_nonneg; lia).
    nia. }
  destruct (Z.le_gt_cases (d2 - 1) (d1 + s)) as [Hle|Hgt].
  - assert (Zdigits2 q ≤ d1 + s - d2 + 1); [|lia].
    apply Zdigits2_le; [done|lia|].
    replace (d1 + s) with ((d1 + s - d2 + 1) + (d2 - 1)) in Hlt by lia.
    rewrite Z.pow_add_r in Hlt by lia.
    assert (0 < 2 ^ (d2 - 1)) by (apply Z.pow_pos_nonneg; lia).
    nia.
  - assert (q = 0) as ->; [|simpl; lia].
    assert (2 ^ (d1 + s) ≤ 2 ^ (d2 - 1)) by (apply Z.pow_le_mono_r; lia).
    assert (0 < 2 ^ (d2 - 1)) by (apply Z.pow_pos_nonneg; lia).
    nia.
Qed.

Lemma Zdigits2_mul a b :
  0 ≤ a → 0 ≤ b → Zdigits2 (a * b) ≤ Zdigits2 a + Zdigits2 b.
Proof.
  intros Ha Hb.
  pose proof (Zdigits2_nonneg a). pose proof (Zdigits2_nonneg b).
  apply Zdigits2_le; [lia|lia|].
  rewrite Z.pow_add_r by lia.
  pose proof (Zdigits2_lt_pow2 a Ha). pose proof (Zdigits2_lt_pow2 b Hb).
  nia.
Qed.

Lemma Zdigits2_mono a b : 0 ≤ a ≤ b → Zdigits2 a ≤ Zdigits2 b.
Proof.
  intros Hab. pose proof (Zdigits2_nonneg b).
  apply Zdigits2_le; [lia|lia|].
  pose proof (Zdigits2_lt_pow2 b ltac:(lia)). lia.
Qed.

Lemma SFdiv_finite s1 m1 s2 m2 B :
  Zdigits2 (Z.pos m1) - Zdigits2 (Z.pos m2) + 1 ≤ B → 0 ≤ B ≤ 971 →
  finite_below (B + 1)
    (SFdiv Py.prec Py.emax (S754_finite s1 m1 0) (S754_finite s2 m2 0)).
Proof.
  intros HB Hrange. unfold SFdiv.
  pose proof (SFdiv_core_binary_bound (Z.pos m1) 0 (Z.pos m2) 0
                ltac:(lia) ltac:(lia)) as Hcore. simpl in Hcore.
  destruct (SFdiv_core_binary _ _ _ _ _ _) as [[mz ez] lz]. simpl in Hcore.
  destruct Hcore as [Hmz Hdz].
  apply binary_round_aux_finite; [done| |lia].
  simpl in HB. lia.
Qed.

Lemma truediv_finite c t :
  0 ≤ c ≤ t → 0 < t → finite_below 2 (Py.truediv c t).
Proof.
  intros Hc Ht. unfold Py.truediv.
  destruct t as [|pt|pt]; [lia| |lia].
  destruct c as [|pc|pc]; [done| |lia].
  apply (SFdiv_finite _ _ _ _ 1); [|lia].
  pose proof (Zdigits2_mono (Z.pos pc) (Z.pos pt) ltac:(lia)). lia.
Qed.

Lemma mul_100_finite x B :
  finite_below B x → -1081 ≤ B ≤ 964 →
  finite_below (B + 8) (Py.mul x (Py.float_of_int 100)).
Proof.
  intros Hx Hrange. change (Py.float_of_int 100)
    with (S754_finite false 7036874417766400 (-46)).
  destruct x as [s|s| |s m e]; try done. simpl in Hx.
  unfold Py.mul, SFmul.
  replace (B + 8) with ((B + 7) + 1) by lia.
  apply binary_round_aux_finite; [lia| |lia].
  rewrite Pos2Z.inj_mul.
  pose proof (Zdigits2_mul (Z.pos m) 7036874417766400 ltac:(lia) ltac:(lia)) as Hmul.
  change (Zdigits2 7036874417766400) with 53 in Hmul.
  change (Zdigits2 (Z.pos m)) with (Z.pos (digits2_pos m)) in Hmul. lia.
Qed.

Lemma Zdigits2_succ m : 0 ≤ m → Zdigits2 (m + 1) ≤ Zdigits2 m + 1.
Proof.
  intros Hm. pose proof (Zdigits2_nonneg m).
  apply Zdigits2_le; [lia|lia|].
  pose proof (Zdigits2_lt_pow2 m Hm).
  rewrite Z.pow_add_r, Z.pow_1_r by lia. lia.
Qed.

Lemma div_half_even_bound n d :
  0 ≤ n → 0 < d → n / d ≤ Py.div_half_even n d ≤ n / d + 1.
Proof.
  intros Hn Hd. unfold Py.div_half_even.
  destruct (2 * (n mod d) ?= d); [destruct (Z.even (n / d))| |]; lia.
Qed.

Lemma scaled_half_even_bound m e B :
  Zdigits2 (Z.pos m) + e ≤ B →
  0 ≤ Py.scaled_half_even m e 100
  ∧ Zdigits2 (Py.scaled_half_even m e 100) ≤ Z.max (B + 7) 0 + 1.
Proof.
  intros HB. unfold Py.scaled_half_even.
  pose proof (Zdigits2_lt_pow2 (Z.pos m) ltac:(lia)) as Hm.
  pose proof (Zdigits2_nonneg (Z.pos m)) as Hd.
  destruct (Z.leb_spec 0 e) as [He|He].
  - assert (0 < 2 ^ e) by (apply Z.pow_pos_nonneg; lia).
    split; [lia|].
    pose proof (Zdigits2_mul (Z.pos m * 2 ^ e) 100 ltac:(lia) ltac:(lia)) as Hmul.
    change (Zdigits2 100) with 7 in Hmul.
    assert (Zdigits2 (Z.pos m * 2 ^ e) ≤ Zdigits2 (Z.pos m) + e); [|lia].
    apply Zdigits2_le; [lia|lia|].
    rewrite Z.pow_add_r by lia. nia.
  - assert (0 < 2 ^ (- e)) by (apply Z.pow_pos_nonneg; lia).
    pose proof (div_half_even_bound (Z.pos m * 100) (2 ^ (- e))
                  ltac:(lia) ltac:(lia)) as [Hlo Hhi].
    assert (0 ≤ Z.pos m * 100 / 2 ^ (- e)) by (apply Z.div_pos; lia).
    split; [lia|].
    assert (Zdigits2 (Py.div_half_even (Z.pos m * 100) (2 ^ (- e)))
            ≤ Zdigits2 (Z.pos m * 100 / 2 ^ (- e) + 1)) as Hmono
      by (apply Zdigits2_mono; lia).
    pose proof (Zdigits2_succ (Z.pos m * 100 / 2 ^ (- e)) ltac:(lia)) as Hsucc.
    pose proof (Zdigits2_div_pow2 (Z.pos m * 100) (- e) ltac:(lia) ltac:(lia)) as Hdiv.
    pose proof (Zdigits2_mul (Z.pos m) 100 ltac:(lia) ltac:(lia)) as Hmul.
    change (Zdigits2 100) with 7 in Hmul.
    lia.
Qed.

Lemma round_2_finite x :
  finite_below 10 x → finite_below 13 (Py.round x 2).
Proof.
  destruct x as [s|s| |s m e]; try done. intros Hx. simpl in Hx.
  unfold Py.round. change (10 ^ Z.of_nat 2) with 100.
  destruct (scaled_half_even_bound m e 10 Hx) as [Hh Hd].
  destruct (Py.scaled_half_even m e 100) as [|h|h]; [done| |done].
  change (Py.exact 100) with (S754_finite false 100 0).
  apply (SFdiv_finite _ _ _ _ 12); [|lia].
  change (Zdigits2 100) with 7. lia.
Qed.

Lemma finite_below_int B x : finite_below B x → is_Some (Py.int_of_float x).
Proof. destruct x; simpl; eauto; done. Qed.

(** Every score can be stored: [int] never raises on it. *)
Lemma score_of_counts_storable c t :
  0 ≤ c ≤ t → is_Some (Py.int_ (score_of_counts c t)).
Proof.
  intros Hc. unfold score_of_counts.
  destruct (Z.eqb_spec t 0) as [|Ht]; [by eexists|].
  simpl. apply (finite_below_int 13), round_2_finite.
  apply (mul_100_finite _ 2); [|lia].
  apply truediv_finite; lia.
Qed.

End float_range.

(** [submit_quiz] always saves. *)
Lemma submit_quiz_total (db : Store) (self : Z * QuizAttempt.t) (now : Z) :
  is_Some (models.submit_quiz db self now).
Proof.
  unfold models.submit_quiz.
  destruct (score_of_counts_storable
    (Z.of_nat (length (filter (λ a, is_correct db a = true) (answers_of db self.1))))
    (Z.of_nat (length (answers_of db self.1)))) as [stored Hstored].
  - pose proof (length_filter (λ a, is_correct db a = true) (answers_of db self.1)).
    lia.
  - rewrite calculate_score_counts, Hstored. simpl. eauto.
Qed.

(** C7.  [submit_quiz] saves every attempt, and the [passed] flag it stores
    is the comparison [score >= passing_score] of the score just calculated
    with the attempt's passing score; a score equal to the passing score
    passes.  The stored flag is also [stored score >= passing_score] for the
    integer the score column holds. *)
Theorem submit_quiz_passed (db : Store) (self : Z * QuizAttempt.t) (now : Z) :
  ∃ score db' row stored_score,
    models.submit_quiz db self now = Some (score, db')
    ∧ attempts db' !! self.1 = Some row
    ∧ score = calculate_score db self.1
    ∧ QuizAttempt.passing_score row = QuizAttempt.passing_score self.2
    ∧ QuizAttempt.passed row = Py.ge score (QuizAttempt.passing_score row)
    ∧ (Py.eq score (QuizAttempt.passing_score row) = true →
       QuizAttempt.passed row = true)
    ∧ QuizAttempt.score row = Some stored_score
    ∧ QuizAttempt.passed row = (QuizAttempt.passing_score row <=? stored_score).
Proof.
  destruct (submit_quiz_total db self now) as [[score db'] Hrun].
  pose proof Hrun as (Hscore & stored & Hint & Hrow)%submit_quiz_Some.
  eexists score, db', _, stored. split; [exact Hrun|]. split; [exact Hrow|]. simpl.
  split; [done|]. split; [done|]. split; [done|].
  split; [apply ge_of_eq|]. split; [done|].
  pose proof (score_of_counts_sign_clear
    (Z.of_nat (length (filter (λ a, is_correct db a = true) (answers_of db self.1))))
    (Z.of_nat (length (answers_of db self.1)))) as Hsign.
  rewrite <- calculate_score_counts, <- Hscore in Hsign.
  destruct score as [n|x]; simpl in *.
  - injection Hint as <-. unfold Py.ge; simpl.
    destruct (Z.compare_spec n (QuizAttempt.passing_score self.2)),
      (Z.leb_spec (QuizAttempt.passing_score self.2) n); done || (exfalso; lia).
  - apply ge_int_of_float; [|done]. apply Hsign; lia.
Qed.

(** Attempt 2 of the sample database has one answer, graded correct: the
    score is 100.0, stored as 100, and passes at 70. *)
Example submit_quiz_example :
  ∃ db' row,
    models.submit_quiz demo.in_progress (2, demo.attempt 7 3 1) 200
    = Some (Py.Float (Py.decimal 1000 1), db')
    ∧ attempts db' !! 2 = Some row
    ∧ QuizAttempt.score row = Some 100
    ∧ QuizAttempt.passed row = true
    ∧ QuizAttempt.completed_at row = Some 200.
Proof.
  eexists _, _. split; [vm_compute; reflexivity|].
  split; [vm_compute; reflexivity|]. done.
Qed.

(** Three correct answers out of four score 75.0, which passes at 70 and
    fails at 80; seven out of ten score 70.0, which passes at 70. *)
Example score_of_counts_examples :
  score_of_counts 3 4 = Py.Float (Py.decimal 750 1)
  ∧ Py.ge (score_of_counts 3 4) 70 = true
  ∧ Py.ge (score_of_counts 3 4) 80 = false
  ∧ Py.eq (score_of_counts 7 10) 70 = true
  ∧ Py.ge (score_of_counts 7 10) 70 = true.
Proof. by vm_compute. Qed.

(** C2.  The score calculated for an attempt with three answers of which
    two are correct is the float 66.67; the row [submit_quiz] saves holds
    the integer 66, which is not that score.  (Attempt 1 of the sample
    database.) *)
Theorem submit_quiz_truncates_score :
  let db := demo.in_progress in
  length (answers_of db 1) = 3%nat
  ∧ length (filter (λ a, is_correct db a = true) (answers_of db 1)) = 2%nat
  ∧ calculate_score db 1 = Py.Float (Py.decimal 6667 2)
  ∧ (∃ db',
       models.submit_quiz db (1, demo.attempt 7 1 3) 200
       = Some (Py.Float (Py.decimal 6667 2), db')
       ∧ QuizAttempt.score <$> attempts db' !! 1 = Some (Some 66))
  ∧ Py.eq (Py.Float (Py.decimal 6667 2)) 66 = false.
Proof.
  do 3 (split; [by vm_compute|]). split; [|by vm_compute].
  eexists. split; [vm_compute; reflexivity|by vm_compute].
Qed.

(** What the score column holds after a submission is [int(score)]: the
    score with its decimals cut off. *)
Lemma submit_quiz_stores_int (db db' : Store) (self : Z * QuizAttempt.t)
    (now : Z) (score : Py.num) :
  models.submit_quiz db self now = Some (score, db') →
  QuizAttempt.score <$> attempts db' !! self.1
  = Some (Py.int_ (calculate_score db self.1)).
Proof.
  intros (-> & stored & -> & ->)%submit_quiz_Some. done.
Qed.

(** Submitting twice.  A submission changes the attempt's row only, so a
    second submission of the attempt as it is then stored calculates the
    same score and stores the same score and the same [passed] flag. *)
Theorem submit_quiz_twice (db : Store) (self : Z * QuizAttempt.t) (now now' : Z) :
  ∃ score db1 row1 db2 row2,
    models.submit_quiz db self now = Some (score, db1)
    ∧ attempts db1 !! self.1 = Some row1
    ∧ models.submit_quiz db1 (self.1, row1) now' = Some (score, db2)
    ∧ attempts db2 !! self.1 = Some row2
    ∧ QuizAttempt.score row2 = QuizAttempt.score row1
    ∧ QuizAttempt.passed row2 = QuizAttempt.passed row1.
Proof.
  destruct (submit_quiz_total db self now) as [[score db1] Hrun1].
  pose proof Hrun1 as (Hscore & stored & Hint & Hrow1)%submit_quiz_Some.
  assert (calculate_score db1 self.1 = calculate_score db self.1) as Hsame.
  { unfold models.submit_quiz in Hrun1. rewrite <- Hscore, Hint in Hrun1.
    simpl in Hrun1. by injection Hrun1 as <-. }
  set (row1 := {| QuizAttempt.user := QuizAttempt.user self.2;
                  QuizAttempt.score := Some stored |}) in Hrow1.
  destruct (submit_quiz_total db1 (self.1, row1) now') as [[score' db2] Hrun2].
  pose proof Hrun2 as (Hscore' & stored' & Hint' & Hrow2)%submit_quiz_Some.
  simpl in Hscore', Hrow2. rewrite Hsame, <- Hscore in Hscore'. subst score'.
  eexists score, db1, row1, db2, _.
  split; [exact Hrun1|]. split; [exact Hrow1|]. split; [exact Hrun2|].
  split; [exact Hrow2|]. simpl. split; [congruence|done].
Qed.

(** * Rows updated in place *)

Section update.
Context {A : Type}.
Implicit Types (table : gmap Z A) (id : Z) (row : A).

Lemma replace_row_key id row' r : (replace_row id row' r).1 = r.1.
Proof. unfold replace_row. by case_decide. Qed.

Lemma order_by_id_update table id row row' :
  table !! id = Some row →
  order_by_id (<[id := row']> table) = replace_row id row' <$> order_by_id table.
Proof.
  intros Hrow. symmetry. apply order_by_id_unique.
  - eapply StronglySorted_fmap; [|apply order_by_id_sorted].
    intros r1 r2. unfold by_id. by rewrite !replace_row_key.
  - apply NoDup_Permutation.
    + apply (NoDup_fmap_1 fst). rewrite <- list_fmap_compose.
      erewrite list_fmap_ext; [apply order_by_id_keys_NoDup|].
      intros i r _. apply replace_row_key.
    + apply NoDup_map_to_list.
    + intros [i x]. rewrite elem_of_map_to_list, list_elem_of_fmap, lookup_insert.
      split.
      * intros ([j y] & Heq & Hin%elem_of_order_by_id).
        unfold replace_row in Heq. simpl in Heq.
        repeat case_decide; simplify_eq; done.
      * case_decide as Hid.
        -- intros [= <-]. subst i. exists (id, row). split.
           ++ unfold replace_row. simpl. by case_decide.
           ++ by apply elem_of_order_by_id.
        -- intros Hx. exists (i, x). split.
           ++ unfold replace_row. simpl. case_decide; [congruence|done].
           ++ by apply elem_of_order_by_id.
Qed.

Lemma filter_fmap_comm (P : Z * A → Prop) `{∀ r, Decision (P r)}
    (f : Z * A → Z * A) (l : list (Z * A)) :
  (∀ r, r ∈ l → P (f r) ↔ P r) → filter P (f <$> l) = f <$> filter P l.
Proof.
  induction l as [|r l IH]; intros Hf; [done|]. csimpl.
  rewrite !filter_cons.
  pose proof (Hf r ltac:(left)) as Hr.
  rewrite IH by (intros; apply Hf; by right).
  repeat case_decide; try done; tauto.
Qed.

Lemma length_filter_ext {B C} (P : C → Prop) (Q : B → Prop)
    `{∀ r, Decision (P r)} `{∀ r, Decision (Q r)} (f : B → C) (l : list B) :
  (∀ r, r ∈ l → P (f r) ↔ Q r) →
  length (filter P (f <$> l)) = length (filter Q l).
Proof.
  induction l as [|r l IH]; intros Hf; [done|]. csimpl.
  rewrite !filter_cons.
  pose proof (Hf r ltac:(left)) as Hr.
  specialize (IH ltac:(intros; apply Hf; by right)).
  repeat case_decide; simpl; try lia; tauto.
Qed.

Lemma filter_keys_NoDup (P : Z * A → Prop) `{∀ r, Decision (P r)}
    (l : list (Z * A)) :
  NoDup l.*1 → NoDup (filter P l).*1.
Proof.
  induction l as [|r l IH]; [done|]. csimpl. intros [Hr Hl]%NoDup_cons.
  rewrite filter_cons. case_decide; csimpl; [|by apply IH].
  apply NoDup_cons. split; [|by apply IH].
  intros (r' & Heq & Hin%list_elem_of_filter)%list_elem_of_fmap.
  apply Hr. rewrite Heq. apply list_elem_of_fmap_2. tauto.
Qed.

End update.

(** * What the views leave alone *)

Section frames.
Implicit Types (db : Store) (request : views.HttpRequest.t).

Lemma answers_of_save db (self : Z * Answer.t) now old attempt_id :
  answers db !! self.1 = Some old →
  Answer.attempt self.2 = Answer.attempt old →
  answers_of (views.Answer_save db self now) attempt_id
  = replace_row self.1
      {| Answer.attempt := Answer.attempt self.2;
         Answer.question := Answer.question self.2;
         Answer.is_flagged := Answer.is_flagged self.2;
         Answer.answered_at := now |}
      <$> answers_of db attempt_id.
Proof.
  intros Hold Hatt. unfold answers_of, views.Answer_save. simpl.
  rewrite (order_by_id_update _ _ old) by done.
  apply filter_fmap_comm. intros [id r] Hin%elem_of_order_by_id.
  unfold replace_row. simpl. case_decide as Hid; [|done].
  simpl. subst id. rewrite Hold in Hin. injection Hin as <-. by rewrite Hatt.
Qed.

Lemma ordered_ids_save db (self : Z * Answer.t) now old attempt_id :
  answers db !! self.1 = Some old →
  Answer.attempt self.2 = Answer.attempt old →
  views.ordered_ids (views.Answer_save db self now) attempt_id
  = views.ordered_ids db attempt_id.
Proof.
  intros Hold Hatt. unfold views.ordered_ids.
  rewrite (answers_of_save _ _ _ old) by done.
  rewrite <- list_fmap_compose. apply list_fmap_ext.
  intros i r _. apply replace_row_key.
Qed.

(** Grading reads the options and the selections only. *)
Lemma is_correct_with_answers db m self :
  is_correct (with_answers db m) self = is_correct db self.
Proof. reflexivity. Qed.

Lemma is_correct_with_attempts db m self :
  is_correct (with_attempts db m) self = is_correct db self.
Proof. reflexivity. Qed.

Lemma calculate_score_save db (self : Z * Answer.t) now old attempt_id :
  answers db !! self.1 = Some old →
  Answer.attempt self.2 = Answer.attempt old →
  Answer.question self.2 = Answer.question old →
  calculate_score (views.Answer_save db self now) attempt_id
  = calculate_score db attempt_id.
Proof.
  intros Hold Hatt Hq. unfold calculate_score.
  rewrite (answers_of_save _ _ _ old) by done.
  rewrite length_fmap.
  rewrite (length_filter_ext _ (λ a, is_correct db a = true)); [done|].
  intros [id r] Hin. apply elem_of_answers_of in Hin as [Hin _].
  unfold replace_row. simpl. case_decide as Hid; [|done].
  subst id. rewrite Hold in Hin. injection Hin as <-.
  unfold is_correct. simpl. by rewrite Hq.
Qed.

Lemma selected_options_add_each_frame db answer_id ids :
  let r := views.selected_options_add_each db answer_id ids in
  categories r.1 = categories db ∧ questions r.1 = questions db
  ∧ options r.1 = options db ∧ attempts r.1 = attempts db
  ∧ answers r.1 = answers db
  ∧ ∀ a o, a ≠ answer_id →
           ((a, o) ∈ selected_options r.1 ↔ (a, o) ∈ selected_options db).
Proof.
  revert db. induction ids as [|v ids IH]; intros db; simpl.
  { by repeat split. }
  destruct (views.Option_objects_get db v) as [e|[o row]]; [by repeat split|].
  destruct (IH (with_selected_options db ({[(answer_id, o)]} ∪ selected_options db)))
    as (Hc & Hq & Ho & Hat & Han & Hsel).
  simpl in *. repeat (split; [done|]).
  intros a o' Ha. rewrite (Hsel a o' Ha), elem_of_union, elem_of_singleton.
  split; [intros [[= -> _]| ?]; [done|done] | by right].
Qed.

End frames.

(** [toggle_flag] on an existing answer writes that answer's row only:
    its flag and its [answered_at].  The selections, the grade of every
    answer, the score of every attempt and the order of the answers are
    what they were. *)
Theorem toggle_flag_frame (db : Store) (request : views.HttpRequest.t)
    (answer_id now : Z) (answer : Answer.t) :
  answers db !! answer_id = Some answer →
  ∃ db',
    views.toggle_flag db request answer_id now
    = (db', [], views.JsonResponse (negb (Answer.is_flagged answer)))
    ∧ answers db'
      = <[answer_id := {| Answer.attempt := Answer.attempt answer;
                          Answer.question := Answer.question answer;
                          Answer.is_flagged := negb (Answer.is_flagged answer);
                          Answer.answered_at := now |}]> (answers db)
    ∧ categories db' = categories db ∧ questions db' = questions db
    ∧ options db' = options db ∧ attempts db' = attempts db
    ∧ selected_options db' = selected_options db
    ∧ (∀ attempt_id,
         views.ordered_ids db' attempt_id = views.ordered_ids db attempt_id)
    ∧ (∀ self, is_correct db' self = is_correct db self)
    ∧ (∀ attempt_id, calculate_score db' attempt_id = calculate_score db attempt_id).
Proof.
  intros Hrow. unfold views.toggle_flag. rewrite Hrow.
  eexists. split; [reflexivity|]. split; [reflexivity|].
  do 5 (split; [reflexivity|]). split; [|split].
  - intros attempt_id. by apply (ordered_ids_save _ _ _ answer).
  - intros self. reflexivity.
  - intros attempt_id. by apply (calculate_score_save _ _ _ answer).
Qed.

Lemma toggle_flag_frame_witness :
  ∃ db',
    views.toggle_flag demo.in_progress (demo.request 7 views.HttpRequest.POST []) 3 200
    = (db', [], views.JsonResponse true)
    ∧ selected_options db' = selected_options demo.in_progress
    ∧ calculate_score db' 1 = calculate_score demo.in_progress 1.
Proof.
  destruct (toggle_flag_frame demo.in_progress
              (demo.request 7 views.HttpRequest.POST []) 3 200 (demo.answer 1 3)
              eq_refl)
    as (db' & Hrun & _ & _ & _ & _ & _ & Hsel & _ & _ & Hscore).
  exists db'. split; [exact Hrun|]. split; [exact Hsel|exact (Hscore 1)].
Defined.

(** [question_view] never writes the catalogue or the attempts (so not the
    stored score either), never adds or removes an answer, and never
    changes the attempt, question or flag of one, the order of the answers
    or the selection of another answer, whatever the request and however it
    ends.  A GET request changes nothing at all. *)
Theorem question_view_frame (db : Store) (request : views.HttpRequest.t)
    (attempt_id answer_id now : Z) :
  ∃ db' messages response,
    views.question_view db request attempt_id answer_id now
    = (db', messages, response)
    ∧ categories db' = categories db ∧ questions db' = questions db
    ∧ options db' = options db ∧ attempts db' = attempts db
    ∧ (∀ id, (Answer.attempt <$> answers db' !! id = Answer.attempt <$> answers db !! id)
             ∧ (Answer.question <$> answers db' !! id = Answer.question <$> answers db !! id)
             ∧ (Answer.is_flagged <$> answers db' !! id
                = Answer.is_flagged <$> answers db !! id))
    ∧ (∀ attempt, views.ordered_ids db' attempt = views.ordered_ids db attempt)
    ∧ (∀ a o, a ≠ answer_id →
              ((a, o) ∈ selected_options db' ↔ (a, o) ∈ selected_options db))
    ∧ (views.HttpRequest.method request = views.HttpRequest.GET → db' = db).
Proof.
  unfold views.question_view.
  destruct (views.get_attempt_or_404 _ _ _) as [attempt|];
    [|eexists _, _, _; by repeat split].
  destruct (views.get_answer_or_404 _ _ _) as [answer|] eqn:Hanswer;
    [|eexists _, _, _; by repeat split].
  apply get_answer_or_404_Some in Hanswer as [Hrow Hatt].
  destruct (views.index _ _) as [idx|]; [|eexists _, _, _; by repeat split].
  destruct (views.HttpRequest.method request) eqn:Hmethod.
  { eexists _, _, _. by repeat split. }
  pose proof (selected_options_add_each_frame
                (views.selected_options_clear db answer_id) answer_id
                (views.HttpRequest.POST_options request)) as Hframe.
  destruct (views.selected_options_add_each _ _ _) as [db1 raised].
  simpl in Hframe. destruct Hframe as (Hc & Hq & Ho & Hat & Han & Hsel).
  assert (∀ a o, a ≠ answer_id →
            ((a, o) ∈ selected_options db1 ↔ (a, o) ∈ selected_options db)) as Hsel'.
  { intros a o Ha. rewrite (Hsel a o Ha), elem_of_filter. simpl. tauto. }
  destruct raised as [e|].
  - eexists _, _, _. split; [reflexivity|]. rewrite Hc, Hq, Ho, Hat.
    do 4 (split; [done|]). split; [by rewrite Han|].
    split; [|split; [done|done]].
    intros attempt0. unfold views.ordered_ids, answers_of. by rewrite Han.
  - eexists _, _, _. split; [reflexivity|]. simpl. rewrite Hc, Hq, Ho, Hat.
    do 4 (split; [done|]). split; [|split; [|split; [done|done]]].
    + intros id. rewrite Han, lookup_insert. case_decide as Hid; [|done].
      subst id. rewrite Hrow. done.
    + intros attempt0.
      rewrite (ordered_ids_save db1 (answer_id, answer) now answer attempt0);
        [|by rewrite Han|done].
      unfold views.ordered_ids, answers_of. by rewrite Han.
Qed.

(** * Selecting and grading *)

Section post.
Implicit Types (db : Store) (request : views.HttpRequest.t).

(** A POST whose values are all ids of options: the database after it. *)
Lemma question_view_post_run db request attempt_id answer_id now attempt answer
    (ids : list Z) :
  views.get_attempt_or_404 db attempt_id (views.HttpRequest.user request)
  = Some attempt →
  views.get_answer_or_404 db answer_id attempt_id = Some answer →
  views.HttpRequest.method request = views.HttpRequest.POST →
  views.HttpRequest.POST_options request = views.numeral <$> ids →
  Forall (λ o, is_Some (options db !! o)) ids →
  ∃ db' context,
    views.question_view db request attempt_id answer_id now
    = (db', [], views.render_question_view context)
    ∧ options db' = options db
    ∧ selected_options db'
      = list_to_set ((λ o, (answer_id, o)) <$> ids)
        ∪ filter (λ p, p.1 ≠ answer_id) (selected_options db)
    ∧ views.has_selection context
      = bool_decide (selected_options_all db' answer_id ≠ [])
    ∧ attempts db' = attempts db
    ∧ answers db'
      = <[answer_id := {| Answer.attempt := Answer.attempt answer;
                          Answer.question := Answer.question answer;
                          Answer.is_flagged := Answer.is_flagged answer;
                          Answer.answered_at := now |}]> (answers db).
Proof.
  intros Hattempt Hanswer Hpost Hposted Hall.
  assert (answer_id ∈ views.ordered_ids db attempt_id) as Hin.
  { apply elem_of_ordered_ids. exists answer. by apply get_answer_or_404_Some. }
  destruct (index_split _ _ Hin) as (before' & after' & _ & _ & Hidx).
  unfold views.question_view. rewrite Hattempt, Hanswer, Hidx, Hpost, Hposted.
  rewrite selected_options_add_each_all by done.
  eexists _, _. split; [reflexivity|]. by repeat split.
Qed.

Lemma selected_in_after_post db db' answer_id (ids : list Z) o :
  options db' = options db →
  Forall (λ o, is_Some (options db !! o)) ids →
  selected_options db'
  = list_to_set ((λ o, (answer_id, o)) <$> ids)
    ∪ filter (λ p, p.1 ≠ answer_id) (selected_options db) →
  selected_in db' answer_id o ↔ o ∈ ids.
Proof.
  intros Ho Hall Hsel. unfold selected_in. rewrite Hsel, Ho.
  rewrite elem_of_cleared_and_added. rewrite decide_True by done.
  rewrite Forall_forall in Hall. split; [tauto|]. intros Hin. split; [done|].
  by apply Hall.
Qed.

End post.

(** After a POST whose values are the ids [ids] of options, the answer is
    graded correct exactly when the posted ids are the correct options of
    its question, in any order and with any repetition; the rendered
    [has_selection] tells whether any id was posted. *)
Theorem question_view_post_graded (db : Store) (request : views.HttpRequest.t)
    (attempt_id answer_id now : Z) (attempt : QuizAttempt.t) (answer : Answer.t)
    (ids : list Z) :
  views.get_attempt_or_404 db attempt_id (views.HttpRequest.user request)
  = Some attempt →
  views.get_answer_or_404 db answer_id attempt_id = Some answer →
  views.HttpRequest.method request = views.HttpRequest.POST →
  views.HttpRequest.POST_options request = views.numeral <$> ids →
  Forall (λ o, is_Some (options db !! o)) ids →
  ∃ db' context,
    views.question_view db request attempt_id answer_id now
    = (db', [], views.render_question_view context)
    ∧ (is_correct db' (answer_id, answer) = true
       ↔ ∀ o, o ∈ ids ↔ correct_for db (Answer.question answer) o)
    ∧ views.has_selection context = bool_decide (ids ≠ []).
Proof.
  intros Hattempt Hanswer Hpost Hposted Hall.
  destruct (question_view_post_run db request attempt_id answer_id now attempt
              answer ids Hattempt Hanswer Hpost Hposted Hall)
    as (db' & context & Hrun & Ho & Hsel & Hhas & _).
  exists db', context. split; [done|].
  pose proof (λ o, selected_in_after_post db db' answer_id _ o Ho Hall Hsel) as Hin.
  split.
  - rewrite is_correct_spec. simpl. unfold correct_for. rewrite Ho.
    split; intros H o; specialize (H o); specialize (Hin o); tauto.
  - rewrite Hhas. apply bool_decide_ext.
    rewrite selected_options_all_nil. split.
    + intros Hne Heq. apply Hne. intros o Ho'%Hin. rewrite Heq in Ho'.
      by apply elem_of_nil in Ho'.
    + intros Hne Hnone.
      destruct ids as [|o ids]; [done|].
      apply (Hnone o), Hin. left.
Qed.

Lemma question_view_post_graded_witness :
  ∃ db' context,
    views.question_view demo.in_progress
      (demo.request 7 views.HttpRequest.POST [9; 9]) 1 3 200
    = (db', [], views.render_question_view context)
    ∧ (is_correct db' (3, demo.answer 1 3) = true
       ↔ ∀ o, o ∈ [9; 9] ↔ correct_for demo.in_progress 3 o)
    ∧ views.has_selection context = true.
Proof.
  apply (question_view_post_graded demo.in_progress
           (demo.request 7 views.HttpRequest.POST [9; 9]) 1 3 200
           (demo.attempt 7 1 3) (demo.answer 1 3) [9; 9]);
    [reflexivity|reflexivity|reflexivity|reflexivity|compute_done].
Defined.

(** The selection a POST stores depends on the set of the posted ids only,
    as long as every posted value is the id of an option: two such POSTs
    for the same answer whose ids have the same members leave the same
    selections, and posting the same ids once more changes no selection.
    (With a value that is not the id of an option the order matters: the
    loop stops there.) *)
Theorem question_view_post_set (db : Store) (request1 request2 : views.HttpRequest.t)
    (attempt_id answer_id now1 now2 : Z) (attempt : QuizAttempt.t) (answer : Answer.t)
    (ids1 ids2 : list Z) :
  views.get_attempt_or_404 db attempt_id (views.HttpRequest.user request1)
  = Some attempt →
  views.HttpRequest.user request2 = views.HttpRequest.user request1 →
  views.get_answer_or_404 db answer_id attempt_id = Some answer →
  views.HttpRequest.method request1 = views.HttpRequest.POST →
  views.HttpRequest.method request2 = views.HttpRequest.POST →
  views.HttpRequest.POST_options request1 = views.numeral <$> ids1 →
  views.HttpRequest.POST_options request2 = views.numeral <$> ids2 →
  Forall (λ o, is_Some (options db !! o)) ids1 →
  (∀ o, o ∈ ids1 ↔ o ∈ ids2) →
  ∃ db1 db2 db3 c1 c2 c3,
    views.question_view db request1 attempt_id answer_id now1
    = (db1, [], views.render_question_view c1)
    ∧ views.question_view db request2 attempt_id answer_id now2
      = (db2, [], views.render_question_view c2)
    ∧ views.question_view db1 request2 attempt_id answer_id now2
      = (db3, [], views.render_question_view c3)
    ∧ selected_options db2 = selected_options db1
    ∧ selected_options db3 = selected_options db1.
Proof.
  intros Hattempt Huser Hanswer Hpost1 Hpost2 Hposted1 Hposted2 Hall1 Hsame.
  assert (Forall (λ o, is_Some (options db !! o)) ids2) as Hall2.
  { rewrite Forall_forall in Hall1 |- *. intros o Ho. by apply Hall1, Hsame. }
  destruct (question_view_post_run db request1 attempt_id answer_id now1 attempt
              answer ids1 Hattempt Hanswer Hpost1 Hposted1 Hall1)
    as (db1 & c1 & Hrun1 & Ho1 & Hsel1 & _ & Hat1 & Hans1).
  rewrite <- Huser in Hattempt.
  destruct (question_view_post_run db request2 attempt_id answer_id now2 attempt
              answer ids2 Hattempt Hanswer Hpost2 Hposted2 Hall2)
    as (db2 & c2 & Hrun2 & Ho2 & Hsel2 & _).
  assert (views.get_attempt_or_404 db1 attempt_id (views.HttpRequest.user request2)
          = Some attempt) as Hattempt1.
  { unfold views.get_attempt_or_404 in *. by rewrite Hat1. }
  assert (∃ answer1, views.get_answer_or_404 db1 answer_id attempt_id = Some answer1)
    as [answer1 Hanswer1].
  { apply get_answer_or_404_Some in Hanswer as [Hrow Hatt].
    eexists. apply get_answer_or_404_Some.
    rewrite Hans1, lookup_insert_eq. split; [reflexivity|done]. }
  assert (Forall (λ o, is_Some (options db1 !! o)) ids2) as Hall3
    by (by rewrite Ho1).
  destruct (question_view_post_run db1 request2 attempt_id answer_id now2 attempt
              answer1 ids2 Hattempt1 Hanswer1 Hpost2 Hposted2 Hall3)
    as (db3 & c3 & Hrun3 & Ho3 & Hsel3 & _).
  exists db1, db2, db3, c1, c2, c3. do 3 (split; [done|]).
  split; apply set_eq; intros [a o].
  - rewrite Hsel1, Hsel2, !elem_of_cleared_and_added.
    case_decide; [by rewrite Hsame|done].
  - rewrite Hsel3, Hsel1, !elem_of_cleared_and_added.
    case_decide; [by rewrite Hsame|].
    rewrite elem_of_cleared_and_added. by rewrite decide_False by done.
Qed.

Lemma question_view_post_set_witness :
  ∃ db1 db2 db3 c1 c2 c3,
    views.question_view demo.in_progress
      (demo.request 7 views.HttpRequest.POST [5; 7]) 1 2 200
    = (db1, [], views.render_question_view c1)
    ∧ views.question_view demo.in_progress
        (demo.request 7 views.HttpRequest.POST [7; 5; 7]) 1 2 201
      = (db2, [], views.render_question_view c2)
    ∧ views.question_view db1
        (demo.request 7 views.HttpRequest.POST [7; 5; 7]) 1 2 201
      = (db3, [], views.render_question_view c3)
    ∧ selected_options db2 = selected_options db1
    ∧ selected_options db3 = selected_options db1.
Proof.
  apply (question_view_post_set demo.in_progress
           (demo.request 7 views.HttpRequest.POST [5; 7])
           (demo.request 7 views.HttpRequest.POST [7; 5; 7]) 1 2 200 201
           (demo.attempt 7 1 3) (demo.answer 1 2) [5; 7] [7; 5; 7]);
    try reflexivity; [compute_done|].
  intros o. rewrite !elem_of_cons, !elem_of_nil. tauto.
Defined.

(** * The dashboard *)

Section dashboard.
Implicit Types (db : Store) (request : views.HttpRequest.t).

#[global] Instance latest_first_total : Total views.latest_first.
Proof.
  intros r1 r2. unfold views.latest_first, views.completed_le.
  destruct (QuizAttempt.completed_at r1.2), (QuizAttempt.completed_at r2.2);
    simpl; auto; lia.
Qed.

#[global] Instance latest_first_trans : Transitive views.latest_first.
Proof.
  intros r1 r2 r3. unfold views.latest_first, views.completed_le.
  destruct (QuizAttempt.completed_at r1.2), (QuizAttempt.completed_at r2.2),
    (QuizAttempt.completed_at r3.2); simpl; auto; try lia; tauto.
Qed.

#[global] Instance by_name_total : Total views.by_name.
Proof. intros r1 r2. unfold views.by_name. apply (total String.le). Qed.

#[global] Instance by_name_trans : Transitive views.by_name.
Proof.
  intros r1 r2 r3. unfold views.by_name. apply (transitivity (R:=String.le)).
Qed.

(** The completed attempts of a user, latest first, before the cut. *)
Lemma completed_attempts_sorted db user :
  let all := merge_sort views.latest_first
               (filter (λ r, QuizAttempt.user r.2 = user
                             ∧ QuizAttempt.completed_at r.2 ≠ None)
                       (order_by_id (attempts db))) in
  StronglySorted views.latest_first all
  ∧ NoDup all.*1
  ∧ ∀ id a, (id, a) ∈ all
            ↔ attempts db !! id = Some a ∧ QuizAttempt.user a = user
              ∧ QuizAttempt.completed_at a ≠ None.
Proof.
  simpl. split; [apply StronglySorted_merge_sort; apply _|]. split.
  - rewrite merge_sort_Permutation.
    apply filter_keys_NoDup, order_by_id_keys_NoDup.
  - intros id a.
    rewrite merge_sort_Permutation, list_elem_of_filter, elem_of_order_by_id.
    simpl. tauto.
Qed.

Lemma recent_attempts_of_spec db user :
  let recent := views.recent_attempts_of db user in
  (length recent ≤ 5)%nat
  ∧ NoDup recent.*1
  ∧ StronglySorted views.latest_first recent
  ∧ (∀ id a, (id, a) ∈ recent →
             attempts db !! id = Some a ∧ QuizAttempt.user a = user
             ∧ ∃ t, QuizAttempt.completed_at a = Some t)
  ∧ (∀ id a t, attempts db !! id = Some a → QuizAttempt.user a = user →
               QuizAttempt.completed_at a = Some t →
               (id, a) ∈ recent
               ∨ (length recent = 5%nat
                  ∧ ∀ r, r ∈ recent →
                         ∃ t', QuizAttempt.completed_at r.2 = Some t' ∧ t ≤ t')).
Proof.
  pose proof (completed_attempts_sorted db user) as (Hsorted & Hnodup & Hin).
  unfold views.recent_attempts_of. simpl in *.
  set (all := merge_sort views.latest_first _) in *.
  assert (∀ id a, (id, a) ∈ take 5 all →
            attempts db !! id = Some a ∧ QuizAttempt.user a = user
            ∧ ∃ t, QuizAttempt.completed_at a = Some t) as Hmem.
  { intros id a Hr. apply (subseteq_take 5) in Hr.
    apply Hin in Hr as (? & ? & Hc). split; [done|]. split; [done|].
    destruct (QuizAttempt.completed_at a) as [t|]; [eauto|done]. }
  rewrite <- (take_drop 5 all) in Hsorted, Hnodup.
  split; [rewrite length_take; lia|]. split.
  { rewrite fmap_app in Hnodup. by apply NoDup_app in Hnodup as (? & _). }
  split; [by apply StronglySorted_app_1_l in Hsorted|]. split; [done|].
  intros id a t Hrow Huser Hdone.
  assert ((id, a) ∈ take 5 all ++ drop 5 all) as Hall.
  { rewrite take_drop. apply Hin. split; [done|]. split; [done|]. by rewrite Hdone. }
  apply elem_of_app in Hall as [Htake|Hdrop]; [by left|right].
  split.
  - rewrite length_take. apply list_elem_of_lookup in Hdrop as [i Hi].
    apply lookup_lt_Some in Hi. rewrite length_drop in Hi. lia.
  - intros [id' a'] Hr.
    pose proof (StronglySorted_app_1_elem_of _ _ _ _ _ Hsorted Hr Hdrop) as Hle.
    destruct (Hmem id' a' Hr) as (_ & _ & t' & Ht').
    exists t'. split; [done|].
    unfold views.latest_first, views.completed_le in Hle. simpl in Hle.
    by rewrite Hdone, Ht' in Hle.
Qed.

End dashboard.

(** The dashboard changes nothing and lists every category, by name.  Its
    recent attempts are at most five attempts of the requesting user, each
    completed and none twice, the latest first; a completed attempt of the
    user that is not listed was completed no later than each of the five
    that are. *)
Theorem dashboard_recent_attempts (db : Store) (request : views.HttpRequest.t) :
  ∃ context,
    views.dashboard db request = (db, [], views.render_dashboard context)
    ∧ (∀ id c, (id, c) ∈ views.ctx_categories context ↔ categories db !! id = Some c)
    ∧ StronglySorted views.by_name (views.ctx_categories context)
    ∧ (length (views.recent_attempts context) ≤ 5)%nat
    ∧ NoDup (views.recent_attempts context).*1
    ∧ StronglySorted views.latest_first (views.recent_attempts context)
    ∧ (∀ id a, (id, a) ∈ views.recent_attempts context →
               attempts db !! id = Some a
               ∧ QuizAttempt.user a = views.HttpRequest.user request
               ∧ ∃ t, QuizAttempt.completed_at a = Some t)
    ∧ (∀ id a t, attempts db !! id = Some a →
                 QuizAttempt.user a = views.HttpRequest.user request →
                 QuizAttempt.completed_at a = Some t →
                 (id, a) ∈ views.recent_attempts context
                 ∨ (length (views.recent_attempts context) = 5%nat
                    ∧ ∀ r, r ∈ views.recent_attempts context →
                           ∃ t', QuizAttempt.completed_at r.2 = Some t' ∧ t ≤ t')).
Proof.
  eexists. split; [reflexivity|]. simpl.
  split.
  { intros id c. by rewrite merge_sort_Permutation, elem_of_order_by_id. }
  split; [apply StronglySorted_merge_sort; apply _|].
  apply recent_attempts_of_spec.
Qed.

(** * Opening and submitting a quiz *)

Section take_quiz.
Implicit Types (db : Store) (request : views.HttpRequest.t).

Lemma index_head id (rest : list Z) : views.index (id :: rest) id = Some 0.
Proof. unfold views.index. simpl. by rewrite decide_True. Qed.

(** A GET of the first answer of an attempt. *)
Lemma question_view_get_first db request attempt_id attempt id rest now :
  views.get_attempt_or_404 db attempt_id (views.HttpRequest.user request)
  = Some attempt →
  views.HttpRequest.method request = views.HttpRequest.GET →
  views.ordered_ids db attempt_id = id :: rest →
  ∃ context,
    views.question_view db request attempt_id id now
    = (db, [], views.render_question_view context)
    ∧ views.is_first context = true
    ∧ views.prev_id context = None
    ∧ views.next_id context = head rest
    ∧ views.is_last context = bool_decide (rest = []).
Proof.
  intros Hattempt Hget Hids.
  assert (id ∈ views.ordered_ids db attempt_id) as Hin by (rewrite Hids; left).
  apply elem_of_ordered_ids in Hin as (row & Hrow & Hatt).
  unfold views.question_view.
  rewrite Hattempt, (proj2 (get_answer_or_404_Some _ _ _ _) (conj Hrow Hatt)).
  rewrite Hids, index_head, Hget.
  eexists. split; [reflexivity|]. simpl.
  split; [done|]. split; [done|].
  pose proof (nav_next [] id rest) as Hnext. simpl in Hnext.
  pose proof (nav_last [] id rest) as Hlast. simpl in Hlast.
  split.
  - rewrite <- Hnext. unfold views.item. simpl.
    replace (Z.pos (Pos.of_succ_nat (length rest)) - 1)
      with (Z.of_nat (S (length rest)) - 1) by lia. done.
  - rewrite <- Hlast.
    replace (Z.pos (Pos.of_succ_nat (length rest)) - 1)
      with (Z.of_nat (S (length rest)) - 1) by lia. done.
Qed.

End take_quiz.

(** [take_quiz] changes nothing.  For a completed attempt of the requester
    it redirects to the results.  Otherwise it renders the answers of the
    attempt in key order with their number as [total_questions], and the
    current answer is the first of them: the one [question_view] renders
    with [is_first] set and no [prev_id]. *)
Theorem take_quiz_current_answer (db : Store) (request request' : views.HttpRequest.t)
    (attempt_id now : Z) (attempt : QuizAttempt.t) :
  views.get_attempt_or_404 db attempt_id (views.HttpRequest.user request)
  = Some attempt →
  views.HttpRequest.user request' = views.HttpRequest.user request →
  views.HttpRequest.method request' = views.HttpRequest.GET →
  match QuizAttempt.completed_at attempt with
  | Some _ =>
      views.take_quiz db request attempt_id
      = (db, [], views.response (views.redirect (views.to_quiz_results attempt_id)))
  | None =>
      ∃ context,
        views.take_quiz db request attempt_id
        = (db, [], views.render_take_quiz context)
        ∧ (views.tq_answers context).*1 = views.ordered_ids db attempt_id
        ∧ views.total_questions context
          = Z.of_nat (length (views.ordered_ids db attempt_id))
        ∧ views.current_answer context = head (views.tq_answers context)
        ∧ (views.current_answer context = None
           ↔ views.ordered_ids db attempt_id = [])
        ∧ ∀ current, views.current_answer context = Some current →
            ∃ c, views.question_view db request' attempt_id current.1 now
                 = (db, [], views.render_question_view c)
                 ∧ views.is_first c = true ∧ views.prev_id c = None
  end.
Proof.
  intros Hattempt Huser Hget. unfold views.take_quiz. rewrite Hattempt.
  destruct (QuizAttempt.completed_at attempt); [done|].
  eexists. split; [reflexivity|]. simpl.
  unfold views.ordered_ids.
  split; [done|]. split; [by rewrite length_fmap|]. split; [done|].
  destruct (answers_of db attempt_id) as [|[id row] rest] eqn:Hanswers; simpl.
  - split; [done|]. intros current [=].
  - split; [split; intros [=]|]. intros current [= <-]. simpl.
    rewrite <- Huser in Hattempt.
    destruct (question_view_get_first db request' attempt_id attempt id rest.*1 now
                Hattempt Hget) as (c & Hrun & Hfirst & Hprev & _).
    { unfold views.ordered_ids. by rewrite Hanswers. }
    eauto.
Qed.

Lemma take_quiz_current_answer_witness :
  ∃ context,
    views.take_quiz demo.in_progress (demo.request 7 views.HttpRequest.GET []) 1
    = (demo.in_progress, [], views.render_take_quiz context)
    ∧ views.total_questions context = 3
    ∧ ∀ current, views.current_answer context = Some current →
        ∃ c, views.question_view demo.in_progress
               (demo.request 7 views.HttpRequest.GET []) 1 current.1 200
             = (demo.in_progress, [], views.render_question_view c)
             ∧ views.is_first c = true ∧ views.prev_id c = None.
Proof.
  destruct (take_quiz_current_answer demo.in_progress
              (demo.request 7 views.HttpRequest.GET [])
              (demo.request 7 views.HttpRequest.GET []) 1 200 (demo.attempt 7 1 3)
              eq_refl eq_refl eq_refl)
    as (context & Hrun & _ & Htotal & _ & _ & Hcurrent).
  exists context. split; [exact Hrun|]. split; [exact Htotal|exact Hcurrent].
Defined.

(** * Results and submission *)

Section results.
Implicit Types (db : Store) (request : views.HttpRequest.t).

Lemma quiz_results_run db request attempt_id attempt :
  views.get_attempt_or_404 db attempt_id (views.HttpRequest.user request)
  = Some attempt →
  views.quiz_results db request attempt_id
  = (db, [], views.render_results attempt_id
               (result_entry_of db <$> answers_of db attempt_id)).
Proof. intros Hattempt. unfold views.quiz_results. by rewrite Hattempt. Qed.

Lemma result_entries_score db attempt_id :
  calculate_score db attempt_id
  = score_of_counts
      (Z.of_nat (length (filter (λ r, views.res_is_correct r = true)
                                (result_entry_of db <$> answers_of db attempt_id))))
      (Z.of_nat (length (result_entry_of db <$> answers_of db attempt_id))).
Proof.
  rewrite calculate_score_counts, length_fmap.
  by rewrite (length_filter_ext _ (λ a, is_correct db a = true)).
Qed.

Lemma result_entry_of_with_attempts db m answer :
  result_entry_of (with_attempts db m) answer = result_entry_of db answer.
Proof. reflexivity. Qed.

End results.

(** [quiz_results] changes nothing and renders for every attempt of the
    requester, submitted or not, one entry per answer.  An entry is marked
    correct exactly when the selected and the correct options it lists have
    the same members, and the score calculated for the attempt is the
    percentage of the entries marked correct. *)
Theorem quiz_results_entries (db : Store) (request : views.HttpRequest.t)
    (attempt_id : Z) (attempt : QuizAttempt.t) :
  views.get_attempt_or_404 db attempt_id (views.HttpRequest.user request)
  = Some attempt →
  ∃ results,
    views.quiz_results db request attempt_id
    = (db, [], views.render_results attempt_id results)
    ∧ views.res_question <$> results
      ≡ₚ Answer.question <$> (answers_of db attempt_id).*2
    ∧ Forall (λ r, views.res_is_correct r
                   = bool_decide (list_to_set (views.res_correct_options r)
                                  =@{gset Z} list_to_set (views.res_selected_options r)))
             results
    ∧ calculate_score db attempt_id
      = score_of_counts
          (Z.of_nat (length (filter (λ r, views.res_is_correct r = true) results)))
          (Z.of_nat (length results)).
Proof.
  intros Hattempt. eexists. split; [exact (quiz_results_run _ _ _ _ Hattempt)|].
  split; [by rewrite <- !list_fmap_compose|].
  split; [|apply result_entries_score].
  apply Forall_fmap, Forall_forall. by intros answer _.
Qed.

Lemma quiz_results_entries_witness :
  ∃ results,
    views.quiz_results demo.in_progress (demo.request 7 views.HttpRequest.GET []) 1
    = (demo.in_progress, [], views.render_results 1 results)
    ∧ views.res_question <$> results ≡ₚ [1; 2; 3]
    ∧ calculate_score demo.in_progress 1
      = score_of_counts
          (Z.of_nat (length (filter (λ r, views.res_is_correct r = true) results)))
          (Z.of_nat (length results)).
Proof.
  destruct (quiz_results_entries demo.in_progress
              (demo.request 7 views.HttpRequest.GET []) 1 (demo.attempt 7 1 3)
              eq_refl)
    as (results & Hrun & Hq & _ & Hscore).
  exists results. split; [exact Hrun|]. split; [exact Hq|exact Hscore].
Defined.



(** * Not found *)

Section not_found.
Implicit Types (db : Store) (request : views.HttpRequest.t).

Lemma get_attempt_or_404_None db attempt_id user :
  views.get_attempt_or_404 db attempt_id user = None
  ↔ ¬ ∃ attempt, attempts db !! attempt_id = Some attempt
                 ∧ QuizAttempt.user attempt = user.
Proof.
  unfold views.get_attempt_or_404.
  destruct (attempts db !! attempt_id) as [row|]; [case_decide|].
  - split; [done|]. intros []. eauto.
  - split; [|done]. intros _ (? & [= <-] & ?). done.
  - split; [|done]. intros _ (? & [=] & ?).
Qed.

Lemma get_answer_or_404_None db answer_id attempt_id :
  views.get_answer_or_404 db answer_id attempt_id = None
  ↔ ¬ ∃ answer, answers db !! answer_id = Some answer
                ∧ Answer.attempt answer = attempt_id.
Proof.
  unfold views.get_answer_or_404.
  destruct (answers db !! answer_id) as [row|]; [case_decide|].
  - split; [done|]. intros []. eauto.
  - split; [|done]. intros _ (? & [= <-] & ?). done.
  - split; [|done]. intros _ (? & [=] & ?).
Qed.

End not_found.

(** When the views answer 404.  [start_quiz] does exactly when the category
    does not exist, [toggle_flag] exactly when the answer does not exist,
    [take_quiz], [review_panel], [submit_quiz] and [quiz_results] exactly
    when the requester has no attempt with the id, and [question_view]
    exactly when the requester has no such attempt or the attempt no answer
    with the id (an answer of another attempt, also of the requester, is
    not found).  A request answered with 404 has written nothing. *)
Theorem views_not_found (db : Store) (request : views.HttpRequest.t)
    (category_id attempt_id answer_id now : Z) (positions : list nat) :
  let owned := ∃ attempt, attempts db !! attempt_id = Some attempt
                          ∧ QuizAttempt.user attempt = views.HttpRequest.user request in
  let answered := ∃ answer, answers db !! answer_id = Some answer
                            ∧ Answer.attempt answer = attempt_id in
  ((views.start_quiz db request category_id now positions).2 = views.Http404
   ↔ categories db !! category_id = None)
  ∧ ((views.toggle_flag db request answer_id now).2 = views.Http404
     ↔ answers db !! answer_id = None)
  ∧ ((views.take_quiz db request attempt_id).2 = views.response views.Http404
     ↔ ¬ owned)
  ∧ ((views.question_view db request attempt_id answer_id now).2 = views.Http404
     ↔ ¬ (owned ∧ answered))
  ∧ ((views.review_panel db request attempt_id).2 = views.Http404 ↔ ¬ owned)
  ∧ ((views.submit_quiz db request attempt_id now).2 = views.Http404 ↔ ¬ owned)
  ∧ ((views.quiz_results db request attempt_id).2 = views.Http404 ↔ ¬ owned)
  ∧ ((views.start_quiz db request category_id now positions).2 = views.Http404 →
     (views.start_quiz db request category_id now positions).1 = (db, []))
  ∧ ((views.toggle_flag db request answer_id now).2 = views.Http404 →
     (views.toggle_flag db request answer_id now).1 = (db, []))
  ∧ ((views.question_view db request attempt_id answer_id now).2 = views.Http404 →
     (views.question_view db request attempt_id answer_id now).1 = (db, []))
  ∧ ((views.submit_quiz db request attempt_id now).2 = views.Http404 →
     (views.submit_quiz db request attempt_id now).1 = (db, []))
  ∧ (views.take_quiz db request attempt_id).1 = (db, [])
  ∧ (views.review_panel db request attempt_id).1 = (db, [])
  ∧ (views.quiz_results db request attempt_id).1 = (db, []).
Proof.
  intros owned answered.
  pose proof (get_attempt_or_404_None db attempt_id (views.HttpRequest.user request))
    as Hattempt.
  pose proof (get_answer_or_404_None db answer_id attempt_id) as Hanswer.
  fold owned in Hattempt. fold answered in Hanswer.
  assert ((views.start_quiz db request category_id now positions).2 = views.Http404
          → categories db !! category_id = None) as Hstart.
  { unfold views.start_quiz.
    destruct (categories db !! category_id); [|done].
    case_match; [done|]. simpl.
    destruct (views.create_answers _ _ _ _) as [? []]; done. }
  assert ((views.question_view db request attempt_id answer_id now).2 = views.Http404
          → views.get_attempt_or_404 db attempt_id (views.HttpRequest.user request) = None
            ∨ views.get_answer_or_404 db answer_id attempt_id = None) as Hview.
  { unfold views.question_view.
    destruct (views.get_attempt_or_404 _ _ _); [|by left].
    destruct (views.get_answer_or_404 _ _ _); [|by right].
    destruct (views.index _ _); [|done].
    destruct (views.HttpRequest.method request).
    - done.
    - destruct (views.selected_options_add_each _ _ _) as [? []]; done. }
  assert ((views.submit_quiz db request attempt_id now).2 = views.Http404
          → views.get_attempt_or_404 db attempt_id (views.HttpRequest.user request) = None)
    as Hsubmit.
  { unfold views.submit_quiz.
    destruct (views.get_attempt_or_404 _ _ _); [|done].
    destruct (views.HttpRequest.method request); [done|].
    destruct (models.submit_quiz _ _ _) as [[]|]; done. }
  split.
  { split; [done|]. intros Hc. unfold views.start_quiz. by rewrite Hc. }
  split.
  { unfold views.toggle_flag. destruct (answers db !! answer_id); done. }
  split.
  { rewrite <- Hattempt. unfold views.take_quiz.
    destruct (views.get_attempt_or_404 _ _ _) as [attempt|]; [|done].
    destruct (QuizAttempt.completed_at attempt); done. }
  split.
  { split.
    - intros [Hn|Hn]%Hview; [apply Hattempt in Hn|apply Hanswer in Hn]; tauto.
    - intros Hn. unfold views.question_view.
      destruct (views.get_attempt_or_404 _ _ _) eqn:Ha; [|done].
      destruct (views.get_answer_or_404 _ _ _) eqn:Hb; [|done].
      exfalso. apply Hn. split.
      + apply get_attempt_or_404_Some in Ha. by eexists.
      + apply get_answer_or_404_Some in Hb. by eexists. }
  split.
  { rewrite <- Hattempt. unfold views.review_panel.
    destruct (views.get_attempt_or_404 _ _ _); done. }
  split.
  { rewrite <- Hattempt. split; [done|]. intros Hn.
    unfold views.submit_quiz. by rewrite Hn. }
  split.
  { rewrite <- Hattempt. unfold views.quiz_results.
    destruct (views.get_attempt_or_404 _ _ _); done. }
  split.
  { intros Hc%Hstart. unfold views.start_quiz. by rewrite Hc. }
  split.
  { unfold views.toggle_flag. destruct (answers db !! answer_id); done. }
  split.
  { intros [Hn|Hn]%Hview; unfold views.question_view; rewrite Hn; [done|].
    destruct (views.get_attempt_or_404 _ _ _); done. }
  split.
  { intros Hn%Hsubmit. unfold views.submit_quiz. by rewrite Hn. }
  split.
  { unfold views.take_quiz.
    destruct (views.get_attempt_or_404 _ _ _) as [attempt|]; [|done].
    destruct (QuizAttempt.completed_at attempt); done. }
  split.
  { unfold views.review_panel. destruct (views.get_attempt_or_404 _ _ _); done. }
  unfold views.quiz_results. destruct (views.get_attempt_or_404 _ _ _); done.
Qed.

(** * The extreme scores *)

Section exact_scores.
Implicit Types (db : Store).

(** A positive integer divided by itself: the quotient digits are [2^53]
    with nothing left over, whatever the integer. *)
Lemma SFdiv_core_binary_same (p : positive) :
  SFdiv_core_binary Py.prec Py.emax (Z.pos p) 0 (Z.pos p) 0
  = (2 ^ 53, -53, loc_Exact).
Proof.
  unfold SFdiv_core_binary.
  replace (Zdigits2 (Z.pos p) + 0 - (Zdigits2 (Z.pos p) + 0)) with 0 by lia.
  change (Z.min (fexp Py.prec Py.emax 0) (0 - 0)) with (-53).
  change (0 - 0 - -53) with 53.
  rewrite Z.shiftl_mul_pow2 by lia.
  pose proof (Z.div_eucl_eq (Z.pos p * 2 ^ 53) (Z.pos p) ltac:(lia)) as Heq.
  pose proof (Z.mod_pos_bound (Z.pos p * 2 ^ 53) (Z.pos p) ltac:(lia)) as Hmod.
  unfold Z.modulo in Hmod.
  destruct (Z.div_eucl (Z.pos p * 2 ^ 53) (Z.pos p)) as [q r].
  assert (q = 2 ^ 53 ∧ r = 0) as [-> ->].
  { generalize dependent (2 ^ 53). intros k Heq. simpl in Hmod.
    assert (Z.pos p * (k - q) = r) as Hr by lia.
    assert (k - q = 0) as Hk by nia. rewrite Hk in Hr. lia. }
  unfold new_location. destruct (Z.even (Z.pos p)); reflexivity.
Qed.

Lemma truediv_same t : 0 < t → Py.truediv t t = S754_finite false 4503599627370496 (-52).
Proof.
  destruct t as [|p|p]; [lia| |lia]. intros _.
  unfold Py.truediv, Py.exact, SFdiv. by rewrite SFdiv_core_binary_same.
Qed.

Lemma score_of_counts_all t :
  0 < t → score_of_counts t t = Py.Float (Py.float_of_int 100).
Proof.
  intros Ht. unfold score_of_counts.
  destruct (Z.eqb_spec t 0); [lia|]. by rewrite truediv_same.
Qed.

Lemma score_of_counts_none t :
  0 < t → score_of_counts 0 t = Py.Float (S754_zero false).
Proof.
  intros Ht. unfold score_of_counts.
  destruct (Z.eqb_spec t 0); [lia|]. by destruct t.
Qed.

Lemma ge_100 (n : Z) : Py.ge (Py.Float (Py.float_of_int 100)) n = bool_decide (n ≤ 100).
Proof.
  change (Py.float_of_int 100) with (S754_finite false 7036874417766400 (-46)).
  unfold Py.ge, Py.compare_int, Py.float_compare_int.
  change (0 <=? -46) with false. cbv iota.
  change (cond_Zopp false 7036874417766400) with 7036874417766400.
  change (2 ^ (- (-46))) with 70368744177664.
  destruct (Z.compare_spec 7036874417766400 (n * 70368744177664));
    case_bool_decide; done || lia.
Qed.

Lemma ge_0 (n : Z) : Py.ge (Py.Float (S754_zero false)) n = bool_decide (n ≤ 0).
Proof.
  unfold Py.ge, Py.compare_int, Py.float_compare_int.
  destruct (Z.compare_spec 0 n); case_bool_decide; done || lia.
Qed.

Lemma filter_all_length {A} (P : A → Prop) `{∀ x, Decision (P x)} (l : list A) :
  Forall P l → length (filter P l) = length l.
Proof.
  induction 1 as [|x l Hx Hl IH]; [done|].
  rewrite filter_cons. case_decide; [|done]. simpl. by rewrite IH.
Qed.

Lemma filter_none_length {A} (P : A → Prop) `{∀ x, Decision (P x)} (l : list A) :
  Forall (λ x, ¬ P x) l → length (filter P l) = 0%nat.
Proof.
  induction 1 as [|x l Hx Hl IH]; [done|].
  rewrite filter_cons. by case_decide.
Qed.

End exact_scores.

(** The two extreme scores are exact, whatever the number of questions.
    An attempt with at least one answer and every answer graded correct
    scores the float 100.0: [submit_quiz] stores 100 and passes it exactly
    when its passing score is at most 100.  With no answer graded correct
    it scores 0.0: 0 is stored, and it passes only with a passing score of
    0 or less. *)
Theorem submit_quiz_all_or_none (db : Store) (self : Z * QuizAttempt.t) (now : Z) :
  answers_of db self.1 ≠ [] →
  (Forall (λ a, is_correct db a = true) (answers_of db self.1) →
   ∃ db' row,
     models.submit_quiz db self now = Some (Py.Float (Py.float_of_int 100), db')
     ∧ attempts db' !! self.1 = Some row
     ∧ QuizAttempt.score row = Some 100
     ∧ QuizAttempt.passed row
       = bool_decide (QuizAttempt.passing_score self.2 ≤ 100))
  ∧ (Forall (λ a, is_correct db a = false) (answers_of db self.1) →
     ∃ db' row,
       models.submit_quiz db self now = Some (Py.Float (S754_zero false), db')
       ∧ attempts db' !! self.1 = Some row
       ∧ QuizAttempt.score row = Some 0
       ∧ QuizAttempt.passed row
         = bool_decide (QuizAttempt.passing_score self.2 ≤ 0)).
Proof.
  intros Hsome.
  assert (0 < Z.of_nat (length (answers_of db self.1))) as Hpos.
  { destruct (answers_of db self.1); [done|simpl; lia]. }
  split; intros Hall.
  - assert (calculate_score db self.1 = Py.Float (Py.float_of_int 100)) as Hscore.
    { rewrite calculate_score_counts, filter_all_length by done.
      by apply score_of_counts_all. }
    unfold models.submit_quiz. rewrite Hscore. simpl.
    eexists _, _. split; [reflexivity|]. simpl. rewrite lookup_insert_eq.
    split; [reflexivity|]. simpl. split; [done|]. apply ge_100.
  - assert (calculate_score db self.1 = Py.Float (S754_zero false)) as Hscore.
    { rewrite calculate_score_counts, filter_none_length.
      - by apply score_of_counts_none.
      - eapply Forall_impl; [exact Hall|]. simpl. intros a ->. done. }
    unfold models.submit_quiz. rewrite Hscore. simpl.
    eexists _, _. split; [reflexivity|]. simpl. rewrite lookup_insert_eq.
    split; [reflexivity|]. simpl. split; [done|]. apply ge_0.
Qed.

Lemma submit_quiz_all_or_none_witness :
  ∃ db' row,
    models.submit_quiz demo.in_progress (2, demo.attempt 7 3 1) 200
    = Some (Py.Float (Py.float_of_int 100), db')
    ∧ attempts db' !! 2 = Some row
    ∧ QuizAttempt.score row = Some 100
    ∧ QuizAttempt.passed row = true.
Proof.
  destruct (submit_quiz_all_or_none demo.in_progress (2, demo.attempt 7 3 1) 200)
    as [Hall _]; [by compute_done|].
  destruct Hall as (db' & row & Hrun & Hrow & Hscore & Hpassed);
    [by compute_done|].
  exists db', row. split; [exact Hrun|]. split; [exact Hrow|].
  split; [exact Hscore|exact Hpassed].
Defined.

(** * Soft delete, and the preview of the admin *)

Section soft_delete.
Implicit Types (db : Store).

Lemma eligible_Question_delete db id q now category_id :
  eligible (Question_delete db (id, q) now) category_id
  = delete id (eligible db category_id).
Proof.
  unfold eligible, Question_delete. simpl.
  apply map_eq. intros i. apply option_eq. intros x.
  rewrite map_lookup_filter_Some.
  destruct (decide (i = id)) as [->|Hne].
  - rewrite lookup_insert_eq, lookup_delete_eq. simpl.
    split; [|done]. intros [[= <-] [_ ?]]. done.
  - rewrite lookup_insert_ne, lookup_delete_ne by done.
    by rewrite map_lookup_filter_Some.
Qed.

End soft_delete.

(** [Question.delete] is a soft delete.  The row stays under its key, marked
    deleted at the time of the call, and no other row of any table changes:
    answers given for the question keep their grade, and the scores of their
    attempts do not change.  The question leaves the pool [start_quiz]
    draws from, and the rest of the pool stays; when it was the last
    question of its category, [start_quiz] reports that none is available.
    Deleting again overwrites the deletion time. *)
Theorem Question_delete_soft (db : Store) (id : Z) (q : Question.t) (now : Z) :
  questions db !! id = Some q →
  let db' := Question_delete db (id, q) now in
  (∃ row, questions db' !! id = Some row
          ∧ Question.is_deleted row = true
          ∧ Question.deleted_at row = Some now
          ∧ Question.category row = Question.category q
          ∧ Question.text row = Question.text q
          ∧ Question.question_type row = Question.question_type q
          ∧ Question.created_at row = Question.created_at q
          ∧ ∀ later, ∃ row', questions (Question_delete db' (id, row) later) !! id
                             = Some row'
                             ∧ Question.deleted_at row' = Some later)
  ∧ dom (questions db') = dom (questions db)
  ∧ (∀ id', id' ≠ id → questions db' !! id' = questions db !! id')
  ∧ categories db' = categories db ∧ options db' = options db
  ∧ attempts db' = attempts db ∧ answers db' = answers db
  ∧ selected_options db' = selected_options db
  ∧ (∀ answer, is_correct db' answer = is_correct db answer)
  ∧ (∀ attempt_id, calculate_score db' attempt_id = calculate_score db attempt_id)
  ∧ (∀ category_id r,
       r ∈ views.all_questions db' category_id
       ↔ r ∈ views.all_questions db category_id ∧ r.1 ≠ id)
  ∧ (∀ request category_id category positions later,
       categories db !! category_id = Some category →
       (∀ r, r ∈ views.all_questions db category_id → r.1 = id) →
       views.start_quiz db' request category_id later positions
       = (db', [(views.ERROR,
                 "No questions available for " +:+ Category.name category)],
          views.redirect views.to_dashboard)).
Proof.
  intros Hq db'.
  assert (∀ category_id r,
            r ∈ views.all_questions db' category_id
            ↔ r ∈ views.all_questions db category_id ∧ r.1 ≠ id) as Hpool.
  { intros category_id [i x]. unfold db'.
    rewrite !elem_of_all_questions, eligible_Question_delete. simpl.
    rewrite lookup_delete_Some. split; intros [? ?]; split; done. }
  split.
  { eexists. split; [apply lookup_insert_eq|]. simpl. do 6 (split; [done|]).
    intros later. eexists. split; [apply lookup_insert_eq|done]. }
  split.
  { unfold db', Question_delete. simpl. apply dom_insert_lookup_L. by eexists. }
  split.
  { intros id' Hne. unfold db', Question_delete. simpl.
    by rewrite lookup_insert_ne. }
  do 5 (split; [done|]).
  split; [done|]. split; [done|]. split; [done|].
  intros request category_id category positions later Hcategory Honly.
  unfold views.start_quiz.
  change (categories db') with (categories db). rewrite Hcategory.
  destruct (views.all_questions db' category_id) as [|r rest] eqn:Hall; [done|].
  exfalso. assert (r ∈ views.all_questions db' category_id) as Hr.
  { rewrite Hall. left. }
  apply Hpool in Hr as [Hr%Honly Hne]. done.
Qed.

Lemma Question_delete_soft_witness :
  let db' := Question_delete demo.catalog (5, demo.question 3 Question.single None 14) 50 in
  (∃ row, questions db' !! 5 = Some row ∧ Question.is_deleted row = true)
  ∧ views.start_quiz db' (demo.request 7 views.HttpRequest.POST []) 3 60 []
    = (db', [(views.ERROR, "No questions available for General Knowledge")],
       views.redirect views.to_dashboard).
Proof.
  intros db'.
  destruct (Question_delete_soft demo.catalog 5
              (demo.question 3 Question.single None 14) 50 eq_refl)
    as ((row & Hrow & Hdeleted & _) & _ & _ & _ & _ & _ & _ & _ & _ & _ & _ & Hstart).
  split; [by exists row|].
  apply (Hstart (demo.request 7 views.HttpRequest.POST []) 3
           (demo.category "General Knowledge") [] 60 eq_refl).
  intros r Hr. vm_compute in Hr. apply list_elem_of_singleton in Hr. by subst r.
Defined.

(** [text_preview] shows a text of at most 100 characters as it is, and a
    longer one as its first 100 characters followed by three dots.  The
    preview never has more than 103 characters, it starts with the first
    100 characters of the text in every case, and the preview of a preview
    is the preview itself. *)
Theorem text_preview_length {C : Type} (dot : C) (text : list C) :
  (length (admin.text_preview dot text) ≤ 103)%nat
  ∧ take 100 (admin.text_preview dot text) = take 100 text
  ∧ ((length text ≤ 100)%nat → admin.text_preview dot text = text)
  ∧ ((100 < length text)%nat →
     length (admin.text_preview dot text) = 103%nat
     ∧ drop 100 (admin.text_preview dot text) = [dot; dot; dot])
  ∧ admin.text_preview dot (admin.text_preview dot text)
    = admin.text_preview dot text.
Proof.
  unfold admin.text_preview.
  destruct (Z.ltb_spec 100 (Z.of_nat (length text))) as [Hlong|Hshort].
  - assert (length (take 100 text) = 100%nat) as Hlen by (rewrite length_take; lia).
    split; [rewrite length_app, Hlen; simpl; lia|].
    split; [by rewrite take_app_length' by done|].
    split; [lia|].
    split.
    { intros _. split; [rewrite length_app, Hlen; simpl; lia|].
      by rewrite drop_app_length' by done. }
    rewrite length_app, Hlen. simpl.
    by rewrite take_app_length' by done.
  - split; [lia|]. split; [done|]. split; [done|]. split; [lia|].
    destruct (Z.ltb_spec 100 (Z.of_nat (length text))); [lia|done].
Qed.

(** * The consistency of the database *)

Section invariant.
Implicit Types (db : Store).

Lemma consistent_with_selected_options db selected :
  consistent db →
  set_Forall (λ p, is_Some (answers db !! p.1) ∧ is_Some (options db !! p.2)) selected →
  consistent (with_selected_options db selected).
Proof.
  intros (H1 & H2 & H3 & H4 & _ & Hn & H6 & H7 & H8) Hsel.
  do 8 (split; [done|]). done.
Qed.

Lemma consistent_with_attempts db id row row' :
  consistent db →
  attempts db !! id = Some row →
  QuizAttempt.category row' = QuizAttempt.category row →
  QuizAttempt.total_questions row' = QuizAttempt.total_questions row →
  consistent (with_attempts db (<[id := row']> (attempts db))).
Proof.
  intros (H1 & H2 & H3 & H4 & H5 & Hn & H6 & H7 & H8) Hrow Hcat Htotal.
  split; [done|]. split; [done|]. split.
  { apply map_Forall_insert_2; [|done]. simpl. rewrite Hcat. by eapply H3. }
  split.
  { intros i a Ha. destruct (H4 i a Ha) as [Hatt Hq]. split; [|done].
    simpl. apply lookup_insert_is_Some'. by right. }
  split; [done|]. split; [done|]. split; [done|]. split.
  { intros i a Ha. pose proof (H7 i a Ha) as Hc. simpl in Hc |- *.
    rewrite Hc.
    destruct (decide (Answer.attempt a = id)) as [->|Hne].
    - rewrite lookup_insert_eq, Hrow. simpl. by rewrite Hcat.
    - by rewrite lookup_insert_ne. }
  apply map_Forall_insert_2.
  - rewrite Htotal. by apply (H8 id row).
  - intros i a Ha. by apply (H8 i a).
Qed.

Lemma consistent_with_questions db id row row' :
  consistent db →
  questions db !! id = Some row →
  Question.category row' = Question.category row →
  consistent (with_questions db (<[id := row']> (questions db))).
Proof.
  intros (H1 & H2 & H3 & H4 & H5 & Hn & H6 & H7 & H8) Hrow Hcat.
  split.
  { apply map_Forall_insert_2; [|done]. simpl. rewrite Hcat. by eapply H1. }
  split.
  { intros i o Ho. simpl. apply lookup_insert_is_Some'. right. by eapply H2. }
  split; [done|]. split.
  { intros i a Ha. destruct (H4 i a Ha) as [Hatt Hq]. split; [done|].
    simpl. apply lookup_insert_is_Some'. by right. }
  split; [done|]. split; [done|]. split; [done|]. split; [|done].
  intros i a Ha. pose proof (H7 i a Ha) as Hc. simpl in Hc |- *.
  rewrite <- Hc.
  destruct (decide (Answer.question a = id)) as [->|Hne].
  - rewrite lookup_insert_eq, Hrow. simpl. by rewrite Hcat.
  - by rewrite lookup_insert_ne.
Qed.

Lemma consistent_Answer_save db (self : Z * Answer.t) now old :
  consistent db →
  answers db !! self.1 = Some old →
  Answer.attempt self.2 = Answer.attempt old →
  Answer.question self.2 = Answer.question old →
  consistent (views.Answer_save db self now).
Proof.
  intros (H1 & H2 & H3 & H4 & H5 & Hn & H6 & H7 & H8) Hold Hatt Hq.
  split; [done|]. split; [done|]. split; [done|]. split.
  { apply map_Forall_insert_2; [|done]. simpl. rewrite Hatt, Hq. by eapply H4. }
  split.
  { intros p Hp. destruct (H5 p Hp) as [Ha Ho]. split; [|done].
    simpl. apply lookup_insert_is_Some'. by right. }
  split; [done|]. split.
  { unfold views.Answer_save. simpl.
    rewrite (order_by_id_update _ _ old) by done.
    rewrite <- list_fmap_compose.
    erewrite list_fmap_ext; [exact H6|].
    intros i [id r] Hin%list_elem_of_lookup_2%elem_of_order_by_id.
    unfold replace_row, attempt_question. simpl.
    case_decide as Hid; [|done]. simpl. rewrite Hatt, Hq. congruence. }
  split.
  { apply map_Forall_insert_2; [|done]. simpl. rewrite Hatt, Hq. by eapply H7. }
  intros i a Ha. rewrite (answers_of_save _ _ _ old) by done.
  rewrite length_fmap. by apply (H8 i a).
Qed.

Lemma consistent_selected_options_clear db answer_id :
  consistent db → consistent (views.selected_options_clear db answer_id).
Proof.
  intros Hdb. apply consistent_with_selected_options; [done|].
  destruct Hdb as (_ & _ & _ & _ & H5 & _).
  intros p [_ Hp]%elem_of_filter. by apply H5.
Qed.

Lemma consistent_selected_options_add_each db answer_id ids :
  consistent db → is_Some (answers db !! answer_id) →
  consistent (views.selected_options_add_each db answer_id ids).1.
Proof.
  revert db. induction ids as [|v ids IH]; intros db Hdb Hanswer; [done|].
  simpl. destruct v as [o|]; simpl; [|done].
  destruct (options db !! o) as [orow|] eqn:Ho; [|done].
  apply IH; [|done].
  apply consistent_with_selected_options; [done|].
  destruct Hdb as (_ & _ & _ & _ & H5 & _).
  intros p [->%elem_of_singleton|Hp]%elem_of_union; [|by apply H5].
  simpl. by rewrite Ho.
Qed.

(** What [start_quiz] writes for a category with eligible questions and a
    sample as [random.sample] draws it. *)
Lemma start_quiz_run db request category_id now positions category :
  map_Forall (λ _ a, is_Some (attempts db !! Answer.attempt a)) (answers db) →
  categories db !! category_id = Some category →
  views.all_questions db category_id ≠ [] →
  views.sample_positions (length (views.all_questions db category_id))
    (Nat.min 10 (length (views.all_questions db category_id))) positions →
  ∃ db' sampled,
    views.start_quiz db request category_id now positions
    = (db', [], views.redirect (views.to_take_quiz (auto_increment (attempts db))))
    ∧ attempts db'
      = <[auto_increment (attempts db) :=
            {| QuizAttempt.user := views.HttpRequest.user request;
               QuizAttempt.category := category_id;
               QuizAttempt.total_questions :=
                 Z.min 10 (Z.of_nat (length (views.all_questions db category_id)));
               QuizAttempt.passing_score := 70;
               QuizAttempt.time_limit := 30;
               QuizAttempt.score := None;
               QuizAttempt.passed := false;
               QuizAttempt.started_at := now;
               QuizAttempt.completed_at := None |}]> (attempts db)
    ∧ order_by_id (answers db')
      = order_by_id (answers db)
        ++ created_answers (auto_increment (answers db))
             (auto_increment (attempts db)) sampled.*1 now
    ∧ length sampled = Nat.min 10 (length (views.all_questions db category_id))
    ∧ NoDup sampled.*1
    ∧ (∀ r, r ∈ sampled → r ∈ views.all_questions db category_id)
    ∧ categories db' = categories db ∧ questions db' = questions db
    ∧ options db' = options db ∧ selected_options db' = selected_options db.
Proof.
  intros Hfk Hcat Hsome Hdraw. unfold views.start_quiz. rewrite Hcat.
  set (all_questions := views.all_questions db category_id) in *.
  destruct (Z.eqb_spec (Z.of_nat (length all_questions)) 0) as [Hz|_].
  { destruct all_questions; [done|simpl in Hz; lia]. }
  replace (Z.to_nat (Z.min 10 (Z.of_nat (length all_questions))))
    with (Nat.min 10 (length all_questions)) by lia.
  assert (views.sample_positions (length all_questions.*1)
            (Nat.min 10 (length all_questions)) positions)
    as Hdraw2 by (by rewrite length_fmap).
  set (selected_questions :=
         views.random_sample all_questions (Nat.min 10 (length all_questions))
                             positions).
  destruct (random_sample_spec all_questions _ _ Hdraw) as (Hslen & Hsin & _).
  assert (NoDup selected_questions.*1) as Hsnodup.
  { unfold selected_questions. rewrite random_sample_fmap.
    apply (random_sample_spec _ _ _ Hdraw2), all_questions_keys_NoDup. }
  unfold views.QuizAttempt_create.
  set (attempt_id := auto_increment (attempts db)).
  set (attempt := {| QuizAttempt.user := views.HttpRequest.user request;
                     QuizAttempt.category := category_id |}).
  set (db1 := with_attempts db (<[attempt_id := attempt]> (attempts db))).
  destruct (create_answers_ok db1 attempt_id selected_questions now Hsnodup)
    as (db' & -> & Horder & Hkept & Hc & Hq & Ho & Ha & Hs).
  { intros id r Hr Heq. destruct (Hfk id r Hr) as [x Hx]. simpl in Hx.
    rewrite Heq in Hx. unfold attempt_id in Hx.
    by rewrite auto_increment_fresh in Hx. }
  exists db', selected_questions. by repeat split.
Qed.

Lemma consistent_start_quiz db request category_id now positions :
  consistent db →
  views.sample_positions (length (views.all_questions db category_id))
    (Nat.min 10 (length (views.all_questions db category_id))) positions →
  consistent (views.start_quiz db request category_id now positions).1.1.
Proof.
  intros Hdb Hdraw.
  destruct (categories db !! category_id) as [category|] eqn:Hcat;
    [|by unfold views.start_quiz; rewrite Hcat].
  destruct (decide (views.all_questions db category_id = [])) as [Hnone|Hsome].
  { unfold views.start_quiz. by rewrite Hcat, Hnone. }
  destruct Hdb as (H1 & H2 & H3 & H4 & H5 & Hn & H6 & H7 & H8).
  destruct (start_quiz_run db request category_id now positions category)
    as (db' & sampled & -> & Hattempts & Horder & Hlen & Hnodup & Hin
        & Hc & Hq & Ho & Hs); [|done|done|done|].
  { intros i a Ha. by destruct (H4 i a Ha). }
  simpl.
  set (attempt_id := auto_increment (attempts db)) in *.
  set (created := created_answers (auto_increment (answers db)) attempt_id
                                  sampled.*1 now) in *.
  assert (∀ id a, answers db' !! id = Some a
                  ↔ answers db !! id = Some a ∨ (id, a) ∈ created) as Hanswers.
  { intros id a. rewrite <- !elem_of_order_by_id, Horder. apply elem_of_app. }
  assert (∀ id a, answers db !! id = Some a → Answer.attempt a ≠ attempt_id)
    as Hold.
  { intros id a Ha Heq. destruct (H4 id a Ha) as [[x Hx] _].
    rewrite Heq in Hx. unfold attempt_id in Hx.
    by rewrite auto_increment_fresh in Hx. }
  assert (∀ q, q ∈ sampled.*1 →
               ∃ row, questions db !! q = Some row
                      ∧ Question.category row = category_id) as Hsampled.
  { intros q ([id row] & -> & Hr%Hin)%list_elem_of_fmap.
    apply elem_of_all_questions in Hr. unfold eligible in Hr.
    apply map_lookup_filter_Some in Hr as (Hr & Hcategory & _). by exists row. }
  split; [by rewrite Hq, Hc|]. split; [by rewrite Ho, Hq|]. split.
  { rewrite Hattempts, Hc. apply map_Forall_insert_2; [simpl; by rewrite Hcat|done]. }
  split.
  { rewrite Hattempts, Hq. intros id a [Ha|Ha]%Hanswers.
    - destruct (H4 id a Ha) as [Hatt Hqa]. split; [|done].
      apply lookup_insert_is_Some'. by right.
    - apply created_answers_keys in Ha as (_ & -> & _ & Hqa).
      split; [by rewrite lookup_insert_eq|].
      destruct (Hsampled _ Hqa) as (row & -> & _). done. }
  split.
  { rewrite Hs, Ho. intros p Hp. destruct (H5 p Hp) as [[a Ha] Hopt].
    split; [|done]. exists a. apply Hanswers. by left. }
  split; [by rewrite Hc|]. split.
  { rewrite Horder, fmap_app. apply NoDup_app. split; [done|]. split.
    - intros pair ([id a] & -> & Ha%elem_of_order_by_id)%list_elem_of_fmap
                  ([id' a'] & Heq & Ha')%list_elem_of_fmap.
      apply created_answers_keys in Ha' as (_ & Hatt & _).
      injection Heq as Heq _. simpl in *. apply (Hold id a Ha). congruence.
    - apply (NoDup_fmap_1 (snd : Z * Z → Z)).
      replace (snd <$> (attempt_question <$> created))
        with (Answer.question <$> created.*2)
        by (rewrite <- !list_fmap_compose; by apply list_fmap_ext).
      unfold created. by rewrite created_answers_questions. }
  split.
  { rewrite Hattempts, Hq. intros id a [Ha|Ha]%Hanswers.
    - rewrite lookup_insert_ne by (intros Heq; by apply (Hold id a Ha)).
      by apply (H7 id a).
    - apply created_answers_keys in Ha as (_ & -> & _ & Hqa).
      destruct (Hsampled _ Hqa) as (row & -> & <-).
      by rewrite lookup_insert_eq. }
  assert (∀ id, answers_of db' id
                = answers_of db id
                  ++ (if decide (id = attempt_id) then created else [])) as Hof.
  { intros id. unfold answers_of. rewrite Horder, filter_app. f_equal.
    case_decide as Hid.
    - apply filter_all, Forall_forall. intros [i a] Ha. simpl.
      apply created_answers_keys in Ha as (_ & Hatt & _). congruence.
    - apply filter_none, Forall_forall. intros [i a] Ha. simpl.
      apply created_answers_keys in Ha as (_ & Hatt & _). congruence. }
  rewrite Hattempts. apply map_Forall_insert_2.
  - assert (answers_of db attempt_id = []) as Hnone.
    { apply filter_none, Forall_forall. intros [i a] Ha%elem_of_order_by_id.
      simpl. by apply (Hold i a). }
    rewrite Hof, decide_True, Hnone by done. simpl.
    unfold created. rewrite created_answers_length, length_fmap, Hlen.
    assert (length (views.all_questions db category_id) ≠ 0%nat)
      by (by destruct (views.all_questions db category_id)).
    lia.
  - intros id a Ha. rewrite Hof.
    rewrite decide_False, app_nil_r; [by apply (H8 id a)|].
    intros ->. unfold attempt_id in Ha. by rewrite auto_increment_fresh in Ha.
Qed.

Lemma consistent_question_view db request attempt_id answer_id now :
  consistent db →
  consistent (views.question_view db request attempt_id answer_id now).1.1.
Proof.
  intros Hdb. unfold views.question_view.
  destruct (views.get_attempt_or_404 _ _ _); [|done].
  destruct (views.get_answer_or_404 _ _ _) as [answer|] eqn:Hanswer; [|done].
  apply get_answer_or_404_Some in Hanswer as [Hanswer _].
  destruct (views.index _ _); [|done].
  destruct (views.HttpRequest.method request); [done|].
  pose proof (consistent_selected_options_add_each
                (views.selected_options_clear db answer_id) answer_id
                (views.HttpRequest.POST_options request)
                (consistent_selected_options_clear db answer_id Hdb)
                ltac:(by eexists)) as Hadded.
  pose proof (selected_options_add_each_frame
                (views.selected_options_clear db answer_id) answer_id
                (views.HttpRequest.POST_options request))
    as (_ & _ & _ & _ & Hanswers & _).
  destruct (views.selected_options_add_each _ _ _) as [db1 [e|]]; [done|].
  simpl in *. apply (consistent_Answer_save _ _ _ answer); [done| |done|done].
  by rewrite Hanswers.
Qed.

Lemma consistent_toggle_flag db request answer_id now :
  consistent db → consistent (views.toggle_flag db request answer_id now).1.1.
Proof.
  intros Hdb. unfold views.toggle_flag.
  destruct (answers db !! answer_id) as [answer|] eqn:Hanswer; [|done].
  by apply (consistent_Answer_save _ _ _ answer).
Qed.

Lemma consistent_submit_quiz db request attempt_id now :
  consistent db → consistent (views.submit_quiz db request attempt_id now).1.1.
Proof.
  intros Hdb. unfold views.submit_quiz.
  destruct (views.get_attempt_or_404 _ _ _) as [attempt|] eqn:Hattempt; [|done].
  apply get_attempt_or_404_Some in Hattempt as [Hattempt _].
  destruct (views.HttpRequest.method request); [done|].
  unfold models.submit_quiz.
  destruct (Py.int_ _) as [stored|]; [|done]. simpl.
  by apply (consistent_with_attempts _ _ attempt).
Qed.

Lemma consistent_Question_delete db id q now :
  consistent db → questions db !! id = Some q →
  consistent (Question_delete db (id, q) now).
Proof. intros Hdb Hq. by apply (consistent_with_questions _ _ q). Qed.

End invariant.

(** * The loader *)

Section loader.
Implicit Types (db : Store).

Lemma extends_refl db : extends db db.
Proof. by repeat split. Qed.

Lemma extends_trans db1 db2 db3 :
  extends db1 db2 → extends db2 db3 → extends db1 db3.
Proof.
  intros (Hc & Hq & Ho & Hat & Han & Hs) (Hc' & Hq' & Ho' & Hat' & Han' & Hs').
  split; [by etrans|]. split; [by etrans|]. split; [by etrans|].
  split; [congruence|]. split; congruence.
Qed.

Lemma categories_named_create db row name :
  loaddemo.categories_named
    (with_categories db (<[auto_increment (categories db) := row]> (categories db)))
    name
  = loaddemo.categories_named db name
    ++ (if decide (Category.name row = name)
        then [(auto_increment (categories db), row)] else []).
Proof.
  unfold loaddemo.categories_named. simpl.
  by rewrite order_by_id_create, filter_app.
Qed.

Lemma questions_matching_create db row text category :
  loaddemo.questions_matching
    (with_questions db (<[auto_increment (questions db) := row]> (questions db)))
    text category
  = loaddemo.questions_matching db text category
    ++ (if decide (Question.text row = text ∧ Question.category row = category)
        then [(auto_increment (questions db), row)] else []).
Proof.
  unfold loaddemo.questions_matching. simpl.
  by rewrite order_by_id_create, filter_app.
Qed.

(** *** get_or_create on categories *)

Lemma Category_get_or_create_spec db data now :
  let r := loaddemo.Category_get_or_create db data now in
  extends db r.1
  ∧ questions r.1 = questions db ∧ options r.1 = options db
  ∧ (∀ name, loaddemo.categories_named db name ≠ [] →
             loaddemo.categories_named r.1 name = loaddemo.categories_named db name)
  ∧ (∀ name, (length (loaddemo.categories_named db name) ≤ 1)%nat →
             (length (loaddemo.categories_named r.1 name) ≤ 1)%nat)
  ∧ match r.2 with
    | inr id => ∃ row, loaddemo.categories_named r.1 (loaddemo.cat_data.name data)
                       = [(id, row)]
    | inl e => e = loaddemo.MultipleObjectsReturned ∧ r.1 = db
               ∧ (2 ≤ length (loaddemo.categories_named db
                                 (loaddemo.cat_data.name data)))%nat
    end.
Proof.
  unfold loaddemo.Category_get_or_create.
  destruct (loaddemo.categories_named db (loaddemo.cat_data.name data))
    as [|[id row] [|r2 rest]] eqn:Hnamed; simpl.
  - split.
    { split; [apply insert_subseteq, auto_increment_fresh|by repeat split]. }
    split; [done|]. split; [done|]. split.
    { intros name Hsome. rewrite categories_named_create.
      case_decide as Hname; [|by rewrite app_nil_r].
      simpl in Hname. congruence. }
    split.
    { intros name Hle. rewrite categories_named_create.
      case_decide as Hname; [|by rewrite app_nil_r].
      simpl in Hname. subst name. by rewrite Hnamed. }
    eexists. rewrite categories_named_create, Hnamed. simpl.
    by rewrite decide_True.
  - split; [apply extends_refl|]. do 4 (split; [done|]). by exists row.
  - split; [apply extends_refl|]. do 4 (split; [done|]).
    split; [done|]. split; [done|]. lia.
Qed.

Lemma load_categories_spec db data now :
  let r := loaddemo.load_categories db data now in
  extends db r.1
  ∧ questions r.1 = questions db ∧ options r.1 = options db
  ∧ (∀ name, loaddemo.categories_named db name ≠ [] →
             loaddemo.categories_named r.1 name = loaddemo.categories_named db name)
  ∧ (∀ name, (length (loaddemo.categories_named db name) ≤ 1)%nat →
             (length (loaddemo.categories_named r.1 name) ≤ 1)%nat)
  ∧ match r.2 with
    | None => ∀ cat, cat ∈ data →
                     ∃ row, loaddemo.categories_named r.1 (loaddemo.cat_data.name cat)
                            = [row]
    | Some e => e = loaddemo.MultipleObjectsReturned
                ∧ ∃ name, (2 ≤ length (loaddemo.categories_named db name))%nat
    end.
Proof.
  revert db. induction data as [|cat rest IH]; intros db; simpl.
  { split; [apply extends_refl|]. do 4 (split; [done|]).
    by intros cat ?%elem_of_nil. }
  pose proof (Category_get_or_create_spec db cat now)
    as (Hext & Hq & Ho & Hkeep & Hone & Hres). simpl in *.
  destruct (loaddemo.Category_get_or_create db cat now) as [db1 [e|id]]; simpl in *.
  { destruct Hres as (-> & -> & Htwo). split; [apply extends_refl|].
    do 4 (split; [done|]). split; [done|]. by eexists. }
  specialize (IH db1) as (Hext' & Hq' & Ho' & Hkeep' & Hone' & Hres').
  destruct (loaddemo.load_categories db1 rest now) as [db2 res]; simpl in *.
  split; [by eapply extends_trans|]. split; [congruence|]. split; [congruence|].
  split.
  { intros name Hsome. rewrite <- (Hkeep name Hsome). apply Hkeep'.
    by rewrite (Hkeep name Hsome). }
  split; [by intros name Hle; apply Hone', Hone|].
  destruct res as [e|].
  { destruct Hres' as (-> & name & Htwo). split; [done|]. exists name.
    destruct (decide (length (loaddemo.categories_named db name) ≤ 1)%nat)
      as [Hle|]; [|lia].
    apply Hone in Hle. lia. }
  intros c [->|Hin]%elem_of_cons; [|by apply Hres'].
  destruct Hres as [row Hrow]. exists (id, row).
  rewrite <- Hrow. apply Hkeep'. by rewrite Hrow.
Qed.

(** *** get_or_create on questions, and their options *)

Lemma Question_get_or_create_spec db text category question_type now :
  let r := loaddemo.Question_get_or_create db text category question_type now in
  extends db r.1
  ∧ categories r.1 = categories db
  ∧ (∀ t c, loaddemo.questions_matching db t c ≠ [] →
            loaddemo.questions_matching r.1 t c = loaddemo.questions_matching db t c)
  ∧ (∀ t c, (length (loaddemo.questions_matching db t c) ≤ 1)%nat →
            (length (loaddemo.questions_matching r.1 t c) ≤ 1)%nat)
  ∧ match r.2 with
    | inr (id, created) =>
        (∃ row, loaddemo.questions_matching r.1 text category = [(id, row)])
        ∧ options r.1 = options db
        ∧ if created then
            questions db !! id = None
            ∧ ∃ row, questions r.1 = <[id := row]> (questions db)
                     ∧ Question.category row = category
                     ∧ Question.text row = text
                     ∧ Question.question_type row = question_type
                     ∧ Question.is_deleted row = false
          else r.1 = db
    | inl e => e = loaddemo.MultipleObjectsReturned ∧ r.1 = db
               ∧ (2 ≤ length (loaddemo.questions_matching db text category))%nat
    end.
Proof.
  unfold loaddemo.Question_get_or_create.
  destruct (loaddemo.questions_matching db text category)
    as [|[id row] [|r2 rest]] eqn:Hmatching; simpl.
  - split.
    { split; [done|]. split; [apply insert_subseteq, auto_increment_fresh|].
      by repeat split. }
    split; [done|]. split.
    { intros t c Hsome. rewrite questions_matching_create.
      case_decide as Hsame; [|by rewrite app_nil_r].
      simpl in Hsame. destruct Hsame as [-> ->]. done. }
    split.
    { intros t c Hle. rewrite questions_matching_create.
      case_decide as Hsame; [|by rewrite app_nil_r].
      simpl in Hsame. destruct Hsame as [-> ->]. by rewrite Hmatching. }
    split.
    { eexists. rewrite questions_matching_create, Hmatching. simpl.
      by rewrite decide_True. }
    split; [done|]. split; [apply auto_increment_fresh|].
    eexists. split; [done|]. done.
  - split; [apply extends_refl|]. do 3 (split; [done|]).
    split; [by exists row|]. done.
  - split; [apply extends_refl|]. do 3 (split; [done|]).
    split; [done|]. split; [done|]. lia.
Qed.

(** The text and the flag of an option row, as the loader's data give
    them. *)
Lemma create_options_spec db question options_data :
  let db' := loaddemo.create_options db question options_data in
  extends db db'
  ∧ categories db' = categories db ∧ questions db' = questions db
  ∧ (∀ o row, options db' !! o = Some row →
              options db !! o = Some row ∨ Option.question row = question)
  ∧ (∀ q, (λ r, (Option.text r.2, Option.is_correct r.2))
            <$> filter (λ r, Option.question r.2 = q) (order_by_id (options db'))
          = ((λ r, (Option.text r.2, Option.is_correct r.2))
               <$> filter (λ r, Option.question r.2 = q) (order_by_id (options db)))
            ++ (if decide (question = q) then options_data else [])).
Proof.
  revert db. induction options_data as [|[option_text is_correct] rest IH];
    intros db; simpl.
  { split; [apply extends_refl|]. do 2 (split; [done|]). split; [by left|].
    intros q. case_decide; by rewrite app_nil_r. }
  set (row := {| Option.question := question; Option.text := option_text;
                 Option.is_correct := is_correct |}).
  set (db1 := with_options db (<[auto_increment (options db) := row]> (options db))).
  specialize (IH db1) as (Hext & Hc & Hq & Hnew & Hdata).
  split.
  { eapply extends_trans; [|exact Hext]. split; [done|]. split; [done|].
    split; [apply insert_subseteq, auto_increment_fresh|by repeat split]. }
  split; [done|]. split; [done|]. split.
  { intros o orow [Ho|Ho]%Hnew; [|by right].
    unfold db1 in Ho. simpl in Ho. rewrite lookup_insert in Ho.
    case_decide; [right|by left]. by injection Ho as <-. }
  intros q. rewrite Hdata. unfold db1. simpl.
  rewrite order_by_id_create, filter_app, fmap_app, <- app_assoc. f_equal.
  rewrite filter_cons, filter_nil. simpl.
  by repeat case_decide.
Qed.

Lemma loaded_refl data db : loaded data db db.
Proof.
  split; [|split].
  - intros id row Hrow Hnone. congruence.
  - done.
  - intros o row Ho. by left.
Qed.

Lemma loaded_weaken (data data' : Z → loaddemo.q_data.t → Prop) db db' :
  (∀ c q, data c q → data' c q) → loaded data db db' → loaded data' db db'.
Proof.
  intros Hsub (Hnew & Hold & Hopt). split; [|done].
  intros id row Hrow Hnone.
  destruct (Hnew id row Hrow Hnone) as (q & Hq & Hrest). exists q. split; [|done].
  by apply Hsub.
Qed.

Lemma loaded_trans data db1 db2 db3 :
  extends db1 db2 → extends db2 db3 →
  loaded data db1 db2 → loaded data db2 db3 →
  loaded data db1 db3.
Proof.
  intros (_ & Hq12 & Ho12 & _) (_ & Hq23 & Ho23 & _)
         (Hnew12 & Hold12 & Hopt12) (Hnew23 & Hold23 & Hopt23).
  split; [|split].
  - intros id row Hrow Hnone.
    destruct (questions db2 !! id) as [row2|] eqn:Hrow2.
    + assert (row2 = row) as ->.
      { eapply lookup_weaken in Hrow2; [|exact Hq23]. congruence. }
      destruct (Hnew12 id row Hrow2 Hnone) as (q & Hq & ? & ? & ? & Hdata).
      exists q. do 4 (split; [done|]).
      rewrite <- Hdata. apply Hold23. left. by eexists.
    + destruct (Hnew23 id row Hrow Hrow2) as (q & Hq & ? & ? & ? & Hdata).
      exists q. do 4 (split; [done|]).
      rewrite Hdata. f_equal. apply Hold12. by right.
  - intros id Hid.
    assert (is_Some (questions db2 !! id) ∨ questions db3 !! id = None) as H23.
    { destruct Hid as [[row Hrow]|Hnone]; [left|by right].
      exists row. by eapply lookup_weaken. }
    assert (is_Some (questions db1 !! id) ∨ questions db2 !! id = None) as H12.
    { destruct Hid as [?|Hnone]; [by left|right].
      destruct (questions db2 !! id) as [row2|] eqn:Hrow2; [|done].
      eapply lookup_weaken in Hrow2; [|exact Hq23]. congruence. }
    by rewrite (Hold23 id H23), (Hold12 id H12).
  - intros o row [Ho|Ho]%Hopt23.
    + destruct (Hopt12 o row Ho) as [?|[x Hx]]; [by left|right].
      exists x. by eapply lookup_weaken.
    + by right.
Qed.

(** One round of the question loop. *)
Lemma load_question_step db category q now :
  let r := loaddemo.Question_get_or_create db (loaddemo.q_data.text q) category
             (loaddemo.q_data.type q) now in
  ∀ id created, r.2 = inr (id, created) →
    let db' := if created
               then loaddemo.create_options r.1 id (loaddemo.q_data.options q)
               else r.1 in
    extends db db' ∧ categories db' = categories db
    ∧ loaded (λ c q', c = category ∧ q' = q) db db'
    ∧ (∀ t c, loaddemo.questions_matching db t c ≠ [] →
              loaddemo.questions_matching db' t c = loaddemo.questions_matching db t c)
    ∧ (∀ t c, (length (loaddemo.questions_matching db t c) ≤ 1)%nat →
              (length (loaddemo.questions_matching db' t c) ≤ 1)%nat)
    ∧ ∃ row, loaddemo.questions_matching db' (loaddemo.q_data.text q) category
             = [(id, row)].
Proof.
  intros r id created Hr.
  pose proof (Question_get_or_create_spec db (loaddemo.q_data.text q) category
                (loaddemo.q_data.type q) now)
    as (Hext & Hc & Hkeep & Hone & Hres).
  fold r in Hext, Hc, Hkeep, Hone, Hres. rewrite Hr in Hres.
  destruct Hres as (Hfound & Hopts & Hcreated).
  destruct created; simpl; [|rewrite Hcreated; split; [apply extends_refl|];
                             split; [done|]; split; [apply loaded_refl|];
                             split; [done|]; split; [done|];
                             by rewrite Hcreated in Hfound].
  destruct Hcreated as (Hfresh & row & Hquestions & Hcat & Htext & Htype & Hdel).
  pose proof (create_options_spec r.1 id (loaddemo.q_data.options q))
    as (Hext' & Hc' & Hq' & Hnew & Hdata).
  set (db' := loaddemo.create_options r.1 id (loaddemo.q_data.options q)) in *.
  assert (∀ t c, loaddemo.questions_matching db' t c
                 = loaddemo.questions_matching r.1 t c) as Hsame.
  { intros t c. unfold loaddemo.questions_matching. by rewrite Hq'. }
  split; [by eapply extends_trans|]. split; [congruence|]. split.
  { split; [|split].
    - intros id' row' Hrow' Hnone. rewrite Hq', Hquestions in Hrow'.
      rewrite lookup_insert in Hrow'. case_decide as Hid; [|congruence].
      injection Hrow' as <-. subst id'. exists q. split; [done|].
      do 3 (split; [done|]).
      unfold options_data_of. rewrite Hdata, decide_True by done.
      by rewrite Hopts.
    - intros id' Hid'. unfold options_data_of. rewrite Hdata, Hopts.
      rewrite decide_False, app_nil_r; [done|].
      intros <-. destruct Hid' as [[x Hx]|Hnone]; [congruence|].
      rewrite Hq', Hquestions, lookup_insert_eq in Hnone. done.
    - intros o orow [Ho|Ho]%Hnew; [left; by rewrite <- Hopts|right].
      rewrite Ho, Hq', Hquestions, lookup_insert_eq. by eexists. }
  split; [by intros t c Hsome; rewrite Hsame; apply Hkeep|].
  split; [by intros t c Hle; rewrite Hsame; apply Hone|].
  by rewrite Hsame.
Qed.

(** The question loop. *)
Lemma load_questions_spec db category data now :
  let r := loaddemo.load_questions db category data now in
  extends db r.1 ∧ categories r.1 = categories db
  ∧ loaded (λ c q, c = category ∧ q ∈ data) db r.1
  ∧ (∀ t c, loaddemo.questions_matching db t c ≠ [] →
            loaddemo.questions_matching r.1 t c = loaddemo.questions_matching db t c)
  ∧ (∀ t c, (length (loaddemo.questions_matching db t c) ≤ 1)%nat →
            (length (loaddemo.questions_matching r.1 t c) ≤ 1)%nat)
  ∧ match r.2 with
    | None => ∀ q, q ∈ data →
                   ∃ row, loaddemo.questions_matching r.1 (loaddemo.q_data.text q)
                            category = [row]
    | Some e => e = loaddemo.MultipleObjectsReturned
                ∧ ∃ t, (2 ≤ length (loaddemo.questions_matching db t category))%nat
    end.
Proof.
  revert db. induction data as [|q rest IH]; intros db; simpl.
  { split; [apply extends_refl|]. split; [done|]. split; [apply loaded_refl|].
    do 2 (split; [done|]). by intros q ?%elem_of_nil. }
  pose proof (Question_get_or_create_spec db (loaddemo.q_data.text q) category
                (loaddemo.q_data.type q) now) as (_ & _ & _ & _ & Hres).
  pose proof (load_question_step db category q now) as Hstep.
  destruct (loaddemo.Question_get_or_create db (loaddemo.q_data.text q) category
              (loaddemo.q_data.type q) now) as [db1 [e|[id created]]];
    simpl in *.
  { destruct Hres as (-> & -> & Htwo).
    split; [apply extends_refl|]. split; [done|]. split; [apply loaded_refl|].
    do 2 (split; [done|]). split; [done|]. by eexists. }
  destruct (Hstep id created eq_refl) as (Hext & Hc & Hloaded & Hkeep & Hone & Hfound).
  set (db2 := if created
              then loaddemo.create_options db1 id (loaddemo.q_data.options q)
              else db1) in *.
  specialize (IH db2) as (Hext' & Hc' & Hloaded' & Hkeep' & Hone' & Hres').
  destruct (loaddemo.load_questions db2 category rest now) as [db3 res]; simpl in *.
  split; [by eapply extends_trans|]. split; [congruence|]. split.
  { apply (loaded_trans _ db db2 db3); [done|done| |].
    - eapply loaded_weaken; [|exact Hloaded].
      intros c q' [-> ->]. split; [done|left].
    - eapply loaded_weaken; [|exact Hloaded'].
      intros c q' [-> Hq']. split; [done|by right]. }
  split.
  { intros t c Hsome. rewrite <- (Hkeep t c Hsome). apply Hkeep'.
    by rewrite (Hkeep t c Hsome). }
  split; [by intros t c Hle; apply Hone', Hone|].
  destruct res as [e|].
  - destruct Hres' as (-> & t & Htwo). split; [done|]. exists t.
    destruct (decide (length (loaddemo.questions_matching db t category) ≤ 1)%nat)
      as [Hle|]; [|lia].
    apply Hone in Hle. lia.
  - intros q' [->|Hin]%elem_of_cons; [|by apply Hres'].
    destruct Hfound as [row Hrow]. exists (id, row).
    rewrite <- Hrow. apply Hkeep'. by rewrite Hrow.
Qed.

(** Running the loops on what they left changes nothing. *)
Lemma load_categories_again db data now :
  (∀ cat, cat ∈ data →
          ∃ row, loaddemo.categories_named db (loaddemo.cat_data.name cat) = [row]) →
  loaddemo.load_categories db data now = (db, None).
Proof.
  induction data as [|cat rest IH]; intros Hall; [done|]. simpl.
  unfold loaddemo.Category_get_or_create.
  destruct (Hall cat ltac:(left)) as [row ->]. simpl.
  apply IH. intros c Hc. apply Hall. by right.
Qed.

Lemma load_questions_again db category data now :
  (∀ q, q ∈ data →
        ∃ row, loaddemo.questions_matching db (loaddemo.q_data.text q) category
               = [row]) →
  loaddemo.load_questions db category data now = (db, None).
Proof.
  induction data as [|q rest IH]; intros Hall; [done|]. simpl.
  unfold loaddemo.Question_get_or_create.
  destruct (Hall q ltac:(left)) as [row ->]. simpl.
  apply IH. intros c Hc. apply Hall. by right.
Qed.

(** One of the three blocks of the command: the category by its name,
    then its questions. *)
Lemma load_category_questions_spec db name data now :
  let r := loaddemo.load_category_questions db name data now in
  extends db r.1 ∧ categories r.1 = categories db
  ∧ loaded (λ c q, (∃ crow, loaddemo.categories_named db name = [(c, crow)])
                   ∧ q ∈ data) db r.1
  ∧ (∀ t c, loaddemo.questions_matching db t c ≠ [] →
            loaddemo.questions_matching r.1 t c = loaddemo.questions_matching db t c)
  ∧ (∀ t c, (length (loaddemo.questions_matching db t c) ≤ 1)%nat →
            (length (loaddemo.questions_matching r.1 t c) ≤ 1)%nat)
  ∧ match r.2 with
    | None => ∃ c crow, loaddemo.categories_named db name = [(c, crow)]
                        ∧ ∀ q, q ∈ data →
                               ∃ row, loaddemo.questions_matching r.1
                                        (loaddemo.q_data.text q) c = [row]
    | Some e => (∀ row, loaddemo.categories_named db name ≠ [row])
                ∨ (e = loaddemo.MultipleObjectsReturned
                   ∧ ∃ t c, (2 ≤ length (loaddemo.questions_matching db t c))%nat)
    end.
Proof.
  unfold loaddemo.load_category_questions.
  destruct (loaddemo.categories_named db name) as [|[c crow] [|r2 rest]] eqn:Hnamed;
    simpl.
  - split; [apply extends_refl|]. split; [done|]. split; [apply loaded_refl|].
    do 2 (split; [done|]). by left.
  - pose proof (load_questions_spec db c data now)
      as (Hext & Hc & Hloaded & Hkeep & Hone & Hres).
    destruct (loaddemo.load_questions db c data now) as [db' res]; simpl in *.
    split; [done|]. split; [done|]. split.
    { eapply loaded_weaken; [|exact Hloaded].
      intros c' q [-> Hq]. split; [by exists crow|done]. }
    do 2 (split; [done|]).
    destruct res as [e|].
    + right. destruct Hres as (-> & t & Htwo). split; [done|]. by exists t, c.
    + by exists c, crow.
  - split; [apply extends_refl|]. split; [done|]. split; [apply loaded_refl|].
    do 2 (split; [done|]). by left.
Qed.

Lemma load_category_questions_again db name data now c crow :
  loaddemo.categories_named db name = [(c, crow)] →
  (∀ q, q ∈ data →
        ∃ row, loaddemo.questions_matching db (loaddemo.q_data.text q) c = [row]) →
  loaddemo.load_category_questions db name data now = (db, None).
Proof.
  intros Hnamed Hall. unfold loaddemo.load_category_questions.
  rewrite Hnamed. simpl. by apply load_questions_again.
Qed.

Lemma keeps_matches_refl db : keeps_matches db db.
Proof. by repeat split. Qed.

Lemma keeps_matches_trans db1 db2 db3 :
  keeps_matches db1 db2 → keeps_matches db2 db3 → keeps_matches db1 db3.
Proof.
  intros (Hc & Hc1 & Hq & Hq1) (Hc' & Hc1' & Hq' & Hq1').
  split; [|split; [|split]].
  - intros name Hsome. rewrite <- (Hc name Hsome). apply Hc'.
    by rewrite (Hc name Hsome).
  - intros name Hle. by apply Hc1', Hc1.
  - intros t c Hsome. rewrite <- (Hq t c Hsome). apply Hq'.
    by rewrite (Hq t c Hsome).
  - intros t c Hle. by apply Hq1', Hq1.
Qed.

Lemma keeps_matches_ambiguous db db' :
  keeps_matches db db' → ambiguous db' → ambiguous db.
Proof.
  intros (_ & Hc1 & _ & Hq1) [[name Htwo]|(t & c & Htwo)]; [left|right].
  - exists name.
    destruct (decide (length (loaddemo.categories_named db name) ≤ 1)%nat)
      as [Hle%Hc1|]; lia.
  - exists t, c.
    destruct (decide (length (loaddemo.questions_matching db t c) ≤ 1)%nat)
      as [Hle%Hq1|]; lia.
Qed.

Lemma loaded_same data db db' :
  questions db' = questions db → options db' = options db → loaded data db db'.
Proof.
  intros Hq Ho. split; [|split].
  - intros id row Hrow Hnone. congruence.
  - intros id _. unfold options_data_of. by rewrite Ho.
  - intros o row Hrow. left. by rewrite <- Ho.
Qed.

Lemma load_categories_progress db data now :
  let r := loaddemo.load_categories db data now in
  extends db r.1 ∧ keeps_matches db r.1
  ∧ questions r.1 = questions db ∧ options r.1 = options db
  ∧ match r.2 with
    | None => ∀ cat, cat ∈ data →
                     ∃ row, loaddemo.categories_named r.1 (loaddemo.cat_data.name cat)
                            = [row]
    | Some e => e = loaddemo.MultipleObjectsReturned ∧ ambiguous db
    end.
Proof.
  pose proof (load_categories_spec db data now)
    as (Hext & Hq & Ho & Hkeep & Hone & Hres). simpl in *.
  split; [done|]. split.
  { split; [done|]. split; [done|].
    unfold loaddemo.questions_matching. rewrite Hq. by split. }
  do 2 (split; [done|]).
  destruct (loaddemo.load_categories db data now).2 as [e|]; [|done].
  destruct Hres as [-> Htwo]. split; [done|by left].
Qed.

Lemma load_category_questions_progress db name data now row :
  loaddemo.categories_named db name = [row] →
  let r := loaddemo.load_category_questions db name data now in
  extends db r.1 ∧ keeps_matches db r.1 ∧ categories r.1 = categories db
  ∧ loaded (λ c q, (∃ crow, loaddemo.categories_named db name = [(c, crow)])
                   ∧ q ∈ data) db r.1
  ∧ match r.2 with
    | None => ∀ q, q ∈ data →
                   ∃ qrow, loaddemo.questions_matching r.1
                             (loaddemo.q_data.text q) row.1 = [qrow]
    | Some e => e = loaddemo.MultipleObjectsReturned ∧ ambiguous db
    end.
Proof.
  intros Hnamed.
  pose proof (load_category_questions_spec db name data now)
    as (Hext & Hc & Hloaded & Hkeep & Hone & Hres). simpl in *.
  split; [done|]. split.
  { unfold keeps_matches, loaddemo.categories_named. rewrite Hc.
    split; [done|]. split; [done|]. by split. }
  do 2 (split; [done|]).
  destruct (loaddemo.load_category_questions db name data now).2 as [e|].
  - destruct Hres as [Hnone|[-> Htwo]]; [by destruct (Hnone row)|].
    split; [done|by right].
  - destruct Hres as (c & crow & Hc' & Hall). rewrite Hnamed in Hc'.
    injection Hc' as ->. done.
Qed.

Lemma categories_named_eq db db' name :
  categories db' = categories db →
  loaddemo.categories_named db' name = loaddemo.categories_named db name.
Proof. intros Hc. unfold loaddemo.categories_named. by rewrite Hc. Qed.

(** A block run after what came before it. *)
Lemma load_category_questions_after db db1 name data now row
    (D : Z → loaddemo.q_data.t → Prop) :
  extends db db1 → keeps_matches db db1 → loaded D db db1 →
  loaddemo.categories_named db1 name = [row] →
  let r := loaddemo.load_category_questions db1 name data now in
  extends db r.1 ∧ keeps_matches db r.1 ∧ keeps_matches db1 r.1
  ∧ categories r.1 = categories db1
  ∧ loaded (λ c q, D c q ∨ (c = row.1 ∧ q ∈ data)) db r.1
  ∧ match r.2 with
    | None => ∀ q, q ∈ data →
                   ∃ qrow, loaddemo.questions_matching r.1
                             (loaddemo.q_data.text q) row.1 = [qrow]
    | Some e => e = loaddemo.MultipleObjectsReturned ∧ ambiguous db
    end.
Proof.
  intros Hext Hkeeps Hloaded Hnamed.
  pose proof (load_category_questions_progress db1 name data now row Hnamed)
    as (Hext' & Hkeeps' & Hc & Hloaded' & Hres). simpl in *.
  split; [by eapply extends_trans|]. split; [by eapply keeps_matches_trans|].
  do 2 (split; [done|]). split.
  { eapply loaded_trans; [exact Hext|exact Hext'| |].
    - eapply loaded_weaken; [|exact Hloaded]. intros c q ?. by left.
    - eapply loaded_weaken; [|exact Hloaded'].
      intros c q [[crow Hcrow] Hq]. right. rewrite Hnamed in Hcrow.
      injection Hcrow as ->. done. }
  destruct (loaddemo.load_category_questions db1 name data now).2 as [e|]; [|done].
  destruct Hres as [-> Hamb]. split; [done|].
  by eapply keeps_matches_ambiguous.
Qed.

Lemma handle_progress db now :
  let r := loaddemo.handle db now in
  extends db r.1 ∧ keeps_matches db r.1
  ∧ loaded (λ c q, ∃ name data crow,
                     (name, data) ∈ questions_data ∧ q ∈ data
                     ∧ loaddemo.categories_named r.1 name = [(c, crow)]) db r.1
  ∧ match r.2 with
    | None =>
        (∀ cat, cat ∈ loaddemo.categories_data →
                ∃ row, loaddemo.categories_named r.1 (loaddemo.cat_data.name cat)
                       = [row])
        ∧ (∀ name data q, (name, data) ∈ questions_data → q ∈ data →
             ∃ c crow qrow,
               loaddemo.categories_named r.1 name = [(c, crow)]
               ∧ loaddemo.questions_matching r.1 (loaddemo.q_data.text q) c = [qrow])
    | Some e => e = loaddemo.MultipleObjectsReturned ∧ ambiguous db
    end.
Proof.
  unfold loaddemo.handle.
  pose proof (load_categories_progress db loaddemo.categories_data now)
    as (Hext0 & Hkeeps0 & Hq0 & Ho0 & Hres0).
  destruct (loaddemo.load_categories db loaddemo.categories_data now)
    as [db1 [e|]]; simpl in *.
  { split; [done|]. split; [done|]. split; [by apply loaded_same|done]. }
  destruct (Hres0 _ ltac:(left)) as [[c1 crow1] H1].
  destruct (Hres0 _ ltac:(right; left)) as [[c2 crow2] H2].
  destruct (Hres0 _ ltac:(right; right; left)) as [[c3 crow3] H3].
  simpl in H1, H2, H3.
  pose proof (load_category_questions_after db db1 "Python Programming"
                loaddemo.python_questions now (c1, crow1) (λ _ _, False)
                Hext0 Hkeeps0 (loaded_same _ _ _ Hq0 Ho0) H1)
    as (Hext1 & Hkeeps1 & Hstep1 & Hc1 & Hloaded1 & Hres1).
  destruct (loaddemo.load_category_questions db1 "Python Programming" _ now)
    as [db2 [e|]]; simpl in *.
  { split; [done|]. split; [done|]. split; [|done].
    eapply loaded_weaken; [|exact Hloaded1]. intros c q [[]|[-> Hq]].
    exists "Python Programming", loaddemo.python_questions, crow1.
    split; [left|]. split; [done|]. by rewrite (categories_named_eq db1). }
  rewrite <- (categories_named_eq db1 db2) in H2, H3 by done.
  pose proof (load_category_questions_after db db2 "Web Development"
                loaddemo.web_questions now (c2, crow2) _
                Hext1 Hkeeps1 Hloaded1 H2)
    as (Hext2 & Hkeeps2 & Hstep2 & Hc2 & Hloaded2 & Hres2).
  destruct (loaddemo.load_category_questions db2 "Web Development" _ now)
    as [db3 [e|]]; simpl in *.
  { split; [done|]. split; [done|]. split; [|done].
    eapply loaded_weaken; [|exact Hloaded2].
    intros c q [[[]|[-> Hq]]|[-> Hq]].
    - exists "Python Programming", loaddemo.python_questions, crow1.
      split; [left|]. split; [done|].
      by rewrite (categories_named_eq db2), (categories_named_eq db1).
    - exists "Web Development", loaddemo.web_questions, crow2.
      split; [right; left|]. split; [done|].
      by rewrite (categories_named_eq db2). }
  rewrite <- (categories_named_eq db2 db3) in H3 by done.
  pose proof (load_category_questions_after db db3 "General Knowledge"
                loaddemo.gk_questions now (c3, crow3) _
                Hext2 Hkeeps2 Hloaded2 H3)
    as (Hext3 & Hkeeps3 & Hstep3 & Hc3 & Hloaded3 & Hres3).
  destruct (loaddemo.load_category_questions db3 "General Knowledge" _ now)
    as [db4 res]; simpl in *.
  assert (∀ name, loaddemo.categories_named db4 name
                  = loaddemo.categories_named db1 name) as Hnames.
  { intros name. by rewrite (categories_named_eq db3), (categories_named_eq db2),
      (categories_named_eq db1). }
  assert (loaddemo.categories_named db4 "Python Programming" = [(c1, crow1)]) as H1'
    by (by rewrite Hnames).
  assert (loaddemo.categories_named db4 "Web Development" = [(c2, crow2)]) as H2'
    by (by rewrite (categories_named_eq db3), (categories_named_eq db2)).
  assert (loaddemo.categories_named db4 "General Knowledge" = [(c3, crow3)]) as H3'
    by (by rewrite (categories_named_eq db3)).
  split; [done|]. split; [done|]. split.
  { eapply loaded_weaken; [|exact Hloaded3].
    intros c q [[[[]|[-> Hq]]|[-> Hq]]|[-> Hq]].
    - exists "Python Programming", loaddemo.python_questions, crow1.
      split; [left|]. by split.
    - exists "Web Development", loaddemo.web_questions, crow2.
      split; [right; left|]. by split.
    - exists "General Knowledge", loaddemo.gk_questions, crow3.
      split; [right; right; left|]. by split. }
  destruct res as [e|]; [done|]. split.
  { intros cat Hcat. rewrite Hnames. by apply Hres0. }
  assert (keeps_matches db2 db4) as Hstep24 by (by eapply keeps_matches_trans).
  destruct Hstep24 as (_ & _ & Hq24 & _). destruct Hstep3 as (_ & _ & Hq34 & _).
  intros name data q Hname Hq. unfold questions_data in Hname.
  apply elem_of_cons in Hname as [[= -> ->]|Hname];
    [|apply elem_of_cons in Hname as [[= -> ->]|Hname];
      [|apply list_elem_of_singleton in Hname as [= -> ->]]].
  - destruct (Hres1 q Hq) as [qrow Hqrow]. exists c1, crow1, qrow.
    split; [done|]. rewrite <- Hqrow. apply Hq24. by rewrite Hqrow.
  - destruct (Hres2 q Hq) as [qrow Hqrow]. exists c2, crow2, qrow.
    split; [done|]. rewrite <- Hqrow. apply Hq34. by rewrite Hqrow.
  - destruct (Hres3 q Hq) as [qrow Hqrow]. by exists c3, crow3, qrow.
Qed.

Lemma NoDup_fmap_filter {A B} `{EqDecision B} (f : A → B) (l : list A) :
  NoDup (f <$> l) ↔ ∀ y, (length (filter (λ x, f x = y) l) ≤ 1)%nat.
Proof.
  induction l as [|x l IH]; csimpl.
  { split; [intros _ y; simpl; lia|constructor]. }
  rewrite NoDup_cons, IH. split.
  - intros [Hx Hl] y. rewrite filter_cons. case_decide as Hy; [|apply Hl].
    simpl. subst y.
    rewrite (filter_none (λ x', f x' = f x)); [simpl; lia|].
    apply Forall_forall. intros x' Hx' Heq. apply Hx.
    rewrite <- Heq. by apply list_elem_of_fmap_2.
  - intros Hall. split.
    + intros (x' & Heq & Hx')%list_elem_of_fmap.
      specialize (Hall (f x)). rewrite filter_cons, decide_True in Hall by done.
      simpl in Hall.
      assert (x' ∈ filter (λ x0, f x0 = f x) l) as Hin
        by (apply list_elem_of_filter; by split).
      destruct (filter (λ x0, f x0 = f x) l); [by apply elem_of_nil in Hin|].
      simpl in Hall. lia.
    + intros y. specialize (Hall y). rewrite filter_cons in Hall.
      case_decide; simpl in Hall; lia.
Qed.

Lemma categories_named_elem db name c crow :
  (c, crow) ∈ loaddemo.categories_named db name
  ↔ categories db !! c = Some crow ∧ Category.name crow = name.
Proof.
  unfold loaddemo.categories_named.
  rewrite list_elem_of_filter, elem_of_order_by_id. simpl. tauto.
Qed.

(** A database extended as the loader does it stays consistent. *)
Lemma consistent_extends data db db' :
  consistent db → extends db db' → keeps_matches db db' → loaded data db db' →
  (∀ c q, data c q → is_Some (categories db' !! c)) →
  consistent db'.
Proof.
  intros (H1 & H2 & H3 & H4 & H5 & Hn & H6 & H7 & H8)
         (Hc & Hq & Ho & Hat & Han & Hs) (_ & Hone & _) (Hnew & _ & Hopt) Hdata.
  split.
  { intros id row Hrow. simpl.
    destruct (questions db !! id) as [row0|] eqn:Hrow0.
    - assert (row0 = row) as ->
        by (eapply lookup_weaken in Hrow0; [|exact Hq]; congruence).
      destruct (H1 id row Hrow0) as [x Hx]. exists x. by eapply lookup_weaken.
    - destruct (Hnew id row Hrow Hrow0) as (q & Hdq & _). by eapply Hdata. }
  split.
  { intros o row [Hrow|Hrow]%Hopt; [|done].
    destruct (H2 o row Hrow) as [x Hx]. exists x. by eapply lookup_weaken. }
  split.
  { rewrite Hat. intros id a Ha. destruct (H3 id a Ha) as [x Hx].
    exists x. by eapply lookup_weaken. }
  split.
  { rewrite Han, Hat. intros id a Ha. destruct (H4 id a Ha) as [Hatt [x Hx]].
    split; [done|]. exists x. by eapply lookup_weaken. }
  split.
  { rewrite Hs, Han. intros p Hp. destruct (H5 p Hp) as [Ha [x Hx]].
    split; [done|]. exists x. by eapply lookup_weaken. }
  split.
  { rewrite <- list_fmap_compose. apply NoDup_fmap_filter. intros name.
    rewrite <- list_fmap_compose in Hn.
    pose proof (proj1 (NoDup_fmap_filter _ _) Hn name) as Hle.
    exact (Hone name Hle). }
  split; [by rewrite Han|]. split.
  { rewrite Han, Hat. intros id a Ha. rewrite <- (H7 id a Ha).
    destruct (H4 id a Ha) as [_ [x Hx]]. rewrite Hx.
    by rewrite (lookup_weaken _ _ _ _ Hx Hq). }
  rewrite Hat. intros id a Ha. unfold answers_of. rewrite Han.
  by apply (H8 id a).
Qed.

Lemma consistent_handle db now :
  consistent db → consistent (loaddemo.handle db now).1.
Proof.
  intros Hdb.
  pose proof (handle_progress db now) as (Hext & Hkeeps & Hloaded & _).
  simpl in *. eapply consistent_extends; [done..|].
  intros c q (name & data & crow & _ & _ & Hnamed). exists crow.
  assert ((c, crow) ∈ loaddemo.categories_named (loaddemo.handle db now).1 name)
    as Hin by (rewrite Hnamed; left).
  by apply categories_named_elem in Hin as [? _].
Qed.

End loader.

(** The loader never changes or removes a row: the database it leaves
    extends the one it found, whether it ends or raises, and what
    [get_or_create] found before it finds after, so that no category or
    question that was there, deleted ones included, gets a second copy.  It
    never raises [DoesNotExist], and [MultipleObjectsReturned] only on a
    database in which some name or some text and category has two matches.
    When it ends, every category of its data is stored once under its name
    and every question of its data once under its text in its category. *)
Theorem loaddemo_handle_extends (db : Store) (now : Z) :
  let r := loaddemo.handle db now in
  extends db r.1 ∧ keeps_matches db r.1
  ∧ r.2 ≠ Some loaddemo.DoesNotExist
  ∧ (r.2 ≠ None → ambiguous db)
  ∧ (r.2 = None →
     (∀ cat, cat ∈ loaddemo.categories_data →
             ∃ row, loaddemo.categories_named r.1 (loaddemo.cat_data.name cat)
                    = [row])
     ∧ (∀ name data q, (name, data) ∈ questions_data → q ∈ data →
          ∃ c crow qrow,
            loaddemo.categories_named r.1 name = [(c, crow)]
            ∧ loaddemo.questions_matching r.1 (loaddemo.q_data.text q) c = [qrow])).
Proof.
  intros r. pose proof (handle_progress db now) as (Hext & Hkeeps & _ & Hres).
  fold r in Hext, Hkeeps, Hres.
  split; [done|]. split; [done|].
  destruct r.2 as [e|].
  - destruct Hres as [-> Hamb]. split; [done|]. split; [done|]. done.
  - split; [done|]. split; done.
Qed.

(** Loading twice is loading once: a run that ended leaves a database on
    which every later run ends without changing anything. *)
Theorem loaddemo_handle_idempotent (db db' : Store) (now : Z) :
  loaddemo.handle db now = (db', None) →
  ∀ later, loaddemo.handle db' later = (db', None).
Proof.
  intros Hrun later.
  pose proof (handle_progress db now) as (_ & _ & _ & Hres).
  rewrite Hrun in Hres. simpl in Hres. destruct Hres as [Hcats Hquestions].
  unfold loaddemo.handle.
  rewrite (load_categories_again db' _ later Hcats).
  destruct (Hcats _ ltac:(left)) as [[c1 crow1] H1].
  destruct (Hcats _ ltac:(right; left)) as [[c2 crow2] H2].
  destruct (Hcats _ ltac:(right; right; left)) as [[c3 crow3] H3].
  simpl in H1, H2, H3.
  assert (∀ name data c crow,
            (name, data) ∈ questions_data →
            loaddemo.categories_named db' name = [(c, crow)] →
            loaddemo.load_category_questions db' name data later = (db', None))
    as Hblock.
  { intros name data c crow Hname Hnamed.
    apply (load_category_questions_again _ _ _ _ c crow Hnamed).
    intros q Hq. destruct (Hquestions name data q Hname Hq)
      as (c' & crow' & qrow & Hnamed' & Hqrow).
    rewrite Hnamed in Hnamed'. injection Hnamed' as <- <-. by exists qrow. }
  rewrite (Hblock _ _ c1 crow1 ltac:(left) H1).
  rewrite (Hblock _ _ c2 crow2 ltac:(right; left) H2).
  apply (Hblock _ _ c3 crow3 ltac:(right; right; left) H3).
Qed.

(** * Reachable databases *)

Lemma loaddemo_handle_idempotent_witness :
  loaddemo.handle (loaddemo.handle demo.catalog 0).1 5
  = ((loaddemo.handle demo.catalog 0).1, None).
Proof.
  apply (loaddemo_handle_idempotent demo.catalog (loaddemo.handle demo.catalog 0).1 0).
  vm_compute. reflexivity.
Defined.

(** A question the loader creates is one of its data: it is of the category
    stored under the name of its list, has the text and the type of its
    entry, is not deleted, and its options are the options of the entry, in
    their order and with their flags.  The options of the questions that
    were there are as they were. *)
Theorem loaddemo_handle_options (db : Store) (now : Z) :
  map_Forall (λ _ o, is_Some (questions db !! Option.question o)) (options db) →
  let r := loaddemo.handle db now in
  (∀ id row, questions r.1 !! id = Some row → questions db !! id = None →
     ∃ name data q crow,
       (name, data) ∈ questions_data ∧ q ∈ data
       ∧ categories r.1 !! Question.category row = Some crow
       ∧ Category.name crow = name
       ∧ Question.text row = loaddemo.q_data.text q
       ∧ Question.question_type row = loaddemo.q_data.type q
       ∧ Question.is_deleted row = false
       ∧ options_data_of r.1 id = loaddemo.q_data.options q)
  ∧ (∀ id, is_Some (questions db !! id) →
           options_data_of r.1 id = options_data_of db id).
Proof.
  intros Hfk r.
  pose proof (handle_progress db now) as (_ & _ & (Hnew & Hold & _) & _).
  fold r in Hnew, Hold. split.
  - intros id row Hrow Hnone.
    destruct (Hnew id row Hrow Hnone)
      as (q & (name & data & crow & Hname & Hq & Hnamed) & Htext & Htype & Hdel & Hdata).
    assert ((Question.category row, crow) ∈ loaddemo.categories_named r.1 name)
      as Hin by (rewrite Hnamed; left).
    apply categories_named_elem in Hin as [Hcrow Hcname].
    exists name, data, q, crow. do 7 (split; [done|]).
    rewrite Hdata. unfold options_data_of at 1.
    rewrite (filter_none (λ r0, Option.question r0.2 = id)); [done|].
    apply Forall_forall. intros [o orow] Ho%elem_of_order_by_id Heq.
    destruct (Hfk o orow Ho) as [x Hx]. simpl in *. congruence.
  - intros id Hid. apply Hold. by left.
Qed.

Lemma loaddemo_handle_options_witness :
  ∃ row q,
    questions (loaddemo.handle demo.catalog 0).1 !! 6 = Some row
    ∧ Question.text row = loaddemo.q_data.text q
    ∧ options_data_of (loaddemo.handle demo.catalog 0).1 6
      = loaddemo.q_data.options q.
Proof.
  destruct (loaddemo_handle_options demo.catalog 0) as [Hnew _];
    [by compute_done|].
  destruct (questions (loaddemo.handle demo.catalog 0).1 !! 6) as [row|] eqn:Hrow;
    [|by vm_compute in Hrow].
  assert (questions demo.catalog !! 6 = None) as Hnone by (vm_compute; reflexivity).
  destruct (Hnew 6 row Hrow Hnone)
    as (name & data & q & crow & _ & _ & _ & _ & Htext & _ & _ & Hdata).
  exists row, q. split; [reflexivity|]. split; [exact Htext|exact Hdata].
Defined.

(** The empty database is consistent, and every database the application
    reaches from a consistent one is consistent: the views that write, the
    soft delete and the loader keep every foreign key, the uniqueness of the
    category names and of the attempt and question of an answer, the
    category of the questions of an attempt and the count of its answers. *)
Theorem consistent_invariant (db db' : Store) :
  consistent empty_store
  ∧ (consistent db → rtc step db db' → consistent db').
Proof.
  split.
  - unfold consistent, empty_store. simpl.
    do 4 (split; [apply map_Forall_empty|]).
    split; [apply set_Forall_empty|].
    split; [constructor|]. split; [constructor|].
    split; apply map_Forall_empty.
  - intros Hdb Hsteps.
    induction Hsteps as [db|db db1 db2 Hstep _ IH]; [done|].
    apply IH. destruct Hstep.
    + by apply consistent_start_quiz.
    + by apply consistent_question_view.
    + by apply consistent_toggle_flag.
    + by apply consistent_submit_quiz.
    + by apply consistent_Question_delete.
    + by apply consistent_handle.
Qed.

Lemma consistent_invariant_witness :
  consistent
    (views.submit_quiz
       (views.start_quiz (loaddemo.handle empty_store 0).1
          (demo.request 7 views.HttpRequest.POST []) 1 10 [4; 2; 0; 1; 3]%nat).1.1
       (demo.request 7 views.HttpRequest.POST []) 1 20).1.1.
Proof.
  destruct (consistent_invariant empty_store
              (views.submit_quiz
                 (views.start_quiz (loaddemo.handle empty_store 0).1
                    (demo.request 7 views.HttpRequest.POST []) 1 10
                    [4; 2; 0; 1; 3]%nat).1.1
                 (demo.request 7 views.HttpRequest.POST []) 1 20).1.1)
    as [Hempty Hreach].
  apply Hreach; [exact Hempty|].
  apply (rtc_l _ _ (loaddemo.handle empty_store 0).1); [apply step_loaddemo|].
  apply (rtc_l _ _ (views.start_quiz (loaddemo.handle empty_store 0).1
                      (demo.request 7 views.HttpRequest.POST []) 1 10
                      [4; 2; 0; 1; 3]%nat).1.1).
  { apply step_start_quiz. split; [reflexivity|]. split; compute_done. }
  apply rtc_once, step_submit_quiz.
Defined.

(** * The score is a percentage *)

Section float_bound.

(** Shifting out digits that are all zero leaves an exact location. *)
Lemma shr_1_exact r k :
  0 ≤ k → 0 ≤ shr_m r → shr_r r = false → shr_s r = false →
  shr_m r mod 2 ^ (1 + k) = 0 →
  0 ≤ shr_m (shr_1 r) ∧ shr_r (shr_1 r) = false ∧ shr_s (shr_1 r) = false
  ∧ shr_m (shr_1 r) mod 2 ^ k = 0.
Proof.
  intros Hk Hm Hr Hs Hmod.
  assert (0 < 2 ^ k) as Hpow by (apply Z.pow_pos_nonneg; lia).
  rewrite Z.pow_add_r, Z.pow_1_r in Hmod by lia.
  assert (shr_m r = 2 * (2 ^ k * (shr_m r / (2 * 2 ^ k)))) as Heven.
  { pose proof (Z.div_mod (shr_m r) (2 * 2 ^ k) ltac:(lia)). lia. }
  pose proof (shr_1_m r Hm) as Hhalf.
  assert (shr_m r / 2 = 2 ^ k * (shr_m r / (2 * 2 ^ k))) as Hdiv.
  { rewrite Heven at 1. rewrite Z.mul_comm, Z.div_mul by lia. done. }
  split; [rewrite Hhalf; apply Z.div_pos; lia|].
  split; [|split].
  - destruct r as [m rr ss]. simpl in *. subst rr ss.
    destruct m as [|[p|p|]|p]; try done; lia.
  - destruct r as [m rr ss]. simpl in *. subst rr ss.
    destruct m as [|[p|p|]|p]; done.
  - rewrite Hhalf, Hdiv. rewrite Z.mul_comm. apply Z.mod_mul. lia.
Qed.

Lemma iter_pos_shr_1_exact p r k :
  0 ≤ k → 0 ≤ shr_m r → shr_r r = false → shr_s r = false →
  shr_m r mod 2 ^ (Z.pos p + k) = 0 →
  let r' := SpecFloat.iter_pos shr_1 p r in
  0 ≤ shr_m r' ∧ shr_r r' = false ∧ shr_s r' = false ∧ shr_m r' mod 2 ^ k = 0.
Proof.
  revert r k. induction p as [p IH|p IH|]; intros r k Hk Hm Hr Hs Hmod; simpl.
  - destruct (shr_1_exact r (Z.pos p + (Z.pos p + k))) as (? & ? & ? & ?);
      [lia|done|done|done| |].
    { by replace (1 + (Z.pos p + (Z.pos p + k))) with (Z.pos p~1 + k) by lia. }
    destruct (IH (shr_1 r) (Z.pos p + k)) as (? & ? & ? & ?); [lia|done..|].
    by apply IH.
  - destruct (IH r (Z.pos p + k)) as (? & ? & ? & ?); [lia|done..| |].
    { by replace (Z.pos p + (Z.pos p + k)) with (Z.pos p~0 + k) by lia. }
    by apply IH.
  - by apply shr_1_exact.
Qed.

Lemma shr_fexp_exact m e l :
  0 ≤ m →
  let r := shr_fexp Py.prec Py.emax m e l in
  r.2 = Z.max e (fexp Py.prec Py.emax (Zdigits2 m + e))
  ∧ shr_m r.1 = m / 2 ^ (r.2 - e)
  ∧ (l = loc_Exact → m mod 2 ^ (r.2 - e) = 0 →
     loc_of_shr_record r.1 = loc_Exact).
Proof.
  intros Hm. unfold shr_fexp, shr.
  set (n := fexp Py.prec Py.emax (Zdigits2 m + e) - e).
  destruct n as [|p|p] eqn:Hn; simpl; rewrite ?shr_record_of_loc_m.
  - split; [lia|]. rewrite Z.sub_diag, Z.div_1_r. split; [done|].
    by intros -> _.
  - split; [lia|].
    replace (e + Z.pos p - e) with (Z.pos p) by lia.
    split; [by rewrite iter_pos_shr_1_m, shr_record_of_loc_m
              by (by rewrite shr_record_of_loc_m)|].
    intros -> Hmod.
    destruct (iter_pos_shr_1_exact p (shr_record_of_loc m loc_Exact) 0)
      as (_ & Hr & Hs & _); [done|done|done|done| |].
    { by rewrite Z.add_0_r. }
    destruct (SpecFloat.iter_pos shr_1 p _) as [m' rr ss]. simpl in *.
    by subst rr ss.
  - split; [lia|]. rewrite Z.sub_diag, Z.div_1_r. split; [done|].
    by intros -> _.
Qed.

Lemma round_nearest_even_le m l :
  round_nearest_even m l ≤ m + 1 ∧ (l = loc_Exact → round_nearest_even m l = m).
Proof.
  unfold round_nearest_even. split; [|by intros ->].
  destruct l as [|[]]; try lia. destruct (Z.even m); lia.
Qed.

(** Scaling a bound: digits below an integer multiple of a power of two,
    shifted right, are below the multiple of the smaller power. *)
Lemma div_pow2_le m K a n :
  0 ≤ m → 0 ≤ K → 0 ≤ n → 0 ≤ a →
  m ≤ K * 2 ^ (a + n) → m / 2 ^ n ≤ K * 2 ^ a.
Proof.
  intros Hm HK Hn Ha Hle.
  assert (0 < 2 ^ n) by (apply Z.pow_pos_nonneg; lia).
  rewrite Z.pow_add_r, Z.mul_assoc in Hle by lia.
  apply Z.div_le_upper_bound; [done|]. lia.
Qed.

Lemma div_pow2_lt m K a n :
  0 ≤ m → 0 ≤ K → 0 ≤ n → 0 ≤ a →
  m < K * 2 ^ (a + n) → m / 2 ^ n < K * 2 ^ a.
Proof.
  intros Hm HK Hn Ha Hlt.
  assert (0 < 2 ^ n) by (apply Z.pow_pos_nonneg; lia).
  rewrite Z.pow_add_r, Z.mul_assoc in Hlt by lia.
  apply Z.div_lt_upper_bound; [done|]. lia.
Qed.

(** Below [K * 2^a] with [K < 2^53]: at most [53 + a] digits. *)
Lemma Zdigits2_at_most m K a :
  0 ≤ m → 0 ≤ a → 0 < K < 2 ^ 53 → m ≤ K * 2 ^ a → Zdigits2 m ≤ 53 + a.
Proof.
  intros Hm Ha HK Hle. apply Zdigits2_le; [done|lia|].
  rewrite Z.pow_add_r by lia.
  assert (0 < 2 ^ a) by (apply Z.pow_pos_nonneg; lia). nia.
Qed.

(** Rounding to nearest never passes an integer [K] that is below [2^53]
    (and so is a float): digits [m * 2^e] below [K], or exactly [K] with
    nothing behind them, round to at most [K]. *)
Lemma binary_round_aux_at_most K s m e l :
  0 < K < 2 ^ 53 → 0 ≤ m → e ≤ 0 →
  m ≤ K * 2 ^ (- e) → (l = loc_Exact ∨ m < K * 2 ^ (- e)) →
  at_most K (binary_round_aux Py.prec Py.emax s m e l).
Proof.
  intros HK Hm He Hle Hstrict. unfold binary_round_aux.
  pose proof (shr_fexp_exact m e l Hm) as H1. simpl in H1.
  destruct (shr_fexp Py.prec Py.emax m e l) as [mrs1 e1]. simpl in H1.
  destruct H1 as (He1 & Hm1 & Hloc1).
  pose proof (Zdigits2_at_most m K (- e) Hm ltac:(lia) HK Hle) as Hd.
  pose proof (Zdigits2_nonneg m) as Hd0.
  assert (e ≤ e1 ≤ 0) as He1'.
  { rewrite He1. unfold fexp, emin, Py.prec, Py.emax. lia. }
  assert (0 < 2 ^ (e1 - e)) as Hpow1 by (apply Z.pow_pos_nonneg; lia).
  assert (0 ≤ shr_m mrs1) as Hm1' by (rewrite Hm1; apply Z.div_pos; lia).
  assert (- e = - e1 + (e1 - e)) as Hsplit by lia.
  pose proof (round_nearest_even_le (shr_m mrs1) (loc_of_shr_record mrs1))
    as [Hup Hsame].
  pose proof (round_nearest_even_bound (shr_m mrs1) (loc_of_shr_record mrs1) Hm1')
    as [Hm2 _].
  set (m2 := round_nearest_even (shr_m mrs1) (loc_of_shr_record mrs1)) in *.
  assert (m2 ≤ K * 2 ^ (- e1)) as Hle2.
  { destruct (decide (m < K * 2 ^ (- e))) as [Hlt|Heq].
    - rewrite Hsplit in Hlt.
      pose proof (div_pow2_lt m K (- e1) (e1 - e) Hm ltac:(lia) ltac:(lia)
                    ltac:(lia) Hlt). lia.
    - destruct Hstrict as [Hexact|]; [|lia].
      assert (m = K * 2 ^ (- e1) * 2 ^ (e1 - e)) as Hmeq.
      { rewrite <- Z.mul_assoc, <- Z.pow_add_r, <- Hsplit by lia. lia. }
      rewrite Hsame.
      + rewrite Hm1, Hmeq, Z.div_mul by lia. lia.
      + apply Hloc1; [done|]. rewrite Hmeq. apply Z.mod_mul. lia. }
  pose proof (shr_fexp_exact m2 e1 loc_Exact Hm2) as H2. simpl in H2.
  destruct (shr_fexp Py.prec Py.emax m2 e1 loc_Exact) as [mrs2 e2]. simpl in H2.
  destruct H2 as (He2 & Hm3 & _).
  pose proof (Zdigits2_at_most m2 K (- e1) Hm2 ltac:(lia) HK Hle2) as Hd2.
  pose proof (Zdigits2_nonneg m2) as Hd20.
  assert (e1 ≤ e2 ≤ 0) as He2'.
  { rewrite He2. unfold fexp, emin, Py.prec, Py.emax. lia. }
  assert (shr_m mrs2 ≤ K * 2 ^ (- e2)) as Hle3.
  { rewrite Hm3. apply div_pow2_le; [done|lia|lia|lia|].
    by replace (- e2 + (e2 - e1)) with (- e1) by lia. }
  destruct (shr_m mrs2) as [|p|p] eqn:Hp; simpl; [done| |].
  - unfold Py.emax, Py.prec. destruct (Z.leb_spec e2 (1024 - 53)); [|lia].
    simpl. split; [lia|done].
  - assert (0 ≤ m2 / 2 ^ (e2 - e1)); [|lia].
    apply Z.div_pos; [done|]. apply Z.pow_pos_nonneg; lia.
Qed.

(** The quotient digits of [m1 / m2]: with exponent [e' <= 0], at most
    [m1 / m2] scaled by [2^(-e')]. *)
Lemma SFdiv_core_quotient m1 m2 :
  0 < m1 → 0 < m2 →
  let r := SFdiv_core_binary Py.prec Py.emax m1 0 m2 0 in
  r.1.2 ≤ 0 ∧ 0 ≤ r.1.1 ∧ r.1.1 * m2 ≤ m1 * 2 ^ (- r.1.2).
Proof.
  intros Hm1 Hm2. unfold SFdiv_core_binary.
  set (e' := Z.min _ (0 - 0)).
  assert (e' ≤ 0) as He' by lia.
  replace (0 - 0 - e') with (- e') by lia.
  set (m' := match - e' with Z.pos _ => Z.shiftl m1 (- e') | 0 => m1 | Z.neg _ => 0 end).
  assert (m' = m1 * 2 ^ (- e')) as Hm'.
  { unfold m'. destruct (- e') as [|p|p] eqn:E; [lia| |lia].
    by rewrite Z.shiftl_mul_pow2. }
  pose proof (Z_div_mod m' m2 ltac:(lia)) as Hdiv.
  destruct (Z.div_eucl m' m2) as [q r]. simpl. destruct Hdiv as [Hq Hr].
  assert (0 < 2 ^ (- e')) by (apply Z.pow_pos_nonneg; lia).
  split; [done|]. split; nia.
Qed.

Lemma SFdiv_at_most K s1 p1 s2 p2 :
  0 < K < 2 ^ 53 → Z.pos p1 < K * Z.pos p2 →
  at_most K (SFdiv Py.prec Py.emax (S754_finite s1 p1 0) (S754_finite s2 p2 0)).
Proof.
  intros HK Hlt. unfold SFdiv.
  pose proof (SFdiv_core_quotient (Z.pos p1) (Z.pos p2) ltac:(lia) ltac:(lia))
    as Hcore. simpl in Hcore.
  destruct (SFdiv_core_binary _ _ _ _ _ _) as [[q e'] l]. simpl in Hcore.
  destruct Hcore as (He' & Hq & Hle).
  assert (0 < 2 ^ (- e')) by (apply Z.pow_pos_nonneg; lia).
  assert (q < K * 2 ^ (- e')) by nia.
  apply binary_round_aux_at_most; [done|done|done|lia|by right].
Qed.

Lemma truediv_at_most c t : 0 ≤ c ≤ t → 0 < t → at_most 1 (Py.truediv c t).
Proof.
  intros Hc Ht. destruct (decide (c = t)) as [->|Hne].
  { rewrite truediv_same by done. split; [lia|].
    change (2 ^ (- (-52))) with 4503599627370496. lia. }
  unfold Py.truediv.
  destruct t as [|pt|pt]; [lia| |lia].
  destruct c as [|pc|pc]; [done| |lia].
  apply SFdiv_at_most; lia.
Qed.

Lemma mul_100_at_most x :
  at_most 1 x → at_most 100 (Py.mul x (Py.float_of_int 100)).
Proof.
  change (Py.float_of_int 100) with (S754_finite false 7036874417766400 (-46)).
  destruct x as [s|s| |s m e]; try done. intros [He Hm].
  unfold Py.mul, SFmul.
  assert (0 < 2 ^ (- e)) by (apply Z.pow_pos_nonneg; lia).
  apply binary_round_aux_at_most; [lia|lia|lia| |by left].
  replace (- (e + -46)) with (- e + 46) by lia.
  rewrite Z.pow_add_r by lia. change (2 ^ 46) with 70368744177664.
  rewrite Pos2Z.inj_mul. nia.
Qed.

Lemma div_half_even_le n d K :
  0 ≤ n → 0 < d → n ≤ K * d → Py.div_half_even n d ≤ K.
Proof.
  intros Hn Hd Hle. unfold Py.div_half_even.
  pose proof (Z.div_mod n d ltac:(lia)) as Hdiv.
  pose proof (Z.mod_pos_bound n d Hd) as Hmod.
  assert (n / d ≤ K) as Hq by (apply Z.div_le_upper_bound; lia).
  destruct (decide (n / d = K)) as [Heq|Hne].
  - rewrite Heq in Hdiv.
    assert ((2 * (n mod d) ?= d) = Lt) as -> by (apply Z.compare_lt_iff; lia).
    lia.
  - destruct (2 * (n mod d) ?= d); [destruct (Z.even (n / d))| |]; lia.
Qed.

Lemma round_2_at_most x : at_most 100 x → at_most 100 (Py.round x 2).
Proof.
  destruct x as [s|s| |s m e]; try done. intros [He Hm].
  unfold Py.round. change (10 ^ Z.of_nat 2) with 100.
  assert (0 < 2 ^ (- e)) by (apply Z.pow_pos_nonneg; lia).
  assert (Py.scaled_half_even m e 100 ≤ 10000) as Hh.
  { unfold Py.scaled_half_even. destruct (Z.leb_spec 0 e).
    - assert (e = 0) as -> by lia. simpl in *. lia.
    - apply div_half_even_le; lia. }
  destruct (Py.scaled_half_even m e 100) as [|h|h]; [done| |done].
  change (Py.exact 100) with (S754_finite false 100 0).
  destruct (decide (Z.pos h = 10000)) as [Heq|Hne].
  - injection Heq as ->. destruct s; vm_compute; split; discriminate.
  - apply SFdiv_at_most; lia.
Qed.

(** A score is a float of at most 100. *)
Lemma score_of_counts_at_most c t :
  0 ≤ c ≤ t → 0 < t →
  ∃ x, score_of_counts c t = Py.Float x ∧ at_most 100 x ∧ sign_clear x.
Proof.
  intros Hc Ht. pose proof (score_of_counts_sign_clear c t ltac:(lia) ltac:(lia))
    as Hsign.
  unfold score_of_counts in *. destruct (Z.eqb_spec t 0); [lia|].
  eexists. split; [done|]. split; [|done].
  by apply round_2_at_most, mul_100_at_most, truediv_at_most.
Qed.

Lemma at_most_int K x :
  at_most K x → sign_clear x → 0 ≤ K →
  ∃ n, Py.int_of_float x = Some n ∧ 0 ≤ n ≤ K.
Proof.
  destruct x as [s|s| |s m e]; try done.
  { intros _ _ HK. exists 0. split; [done|lia]. }
  intros [He Hm] Hs HK. simpl in Hs. subst s. simpl.
  eexists. split; [done|].
  assert (0 < 2 ^ (- e)) by (apply Z.pow_pos_nonneg; lia).
  destruct (Z.leb_spec 0 e).
  - assert (e = 0) as -> by lia. simpl in *. lia.
  - split; [apply Z.div_pos; lia|].
    apply Z.div_le_upper_bound; lia.
Qed.

Lemma at_most_compare K x :
  at_most K x → sign_clear x → 0 ≤ K →
  Py.float_compare_int x K = Some Lt ∨ Py.float_compare_int x K = Some Eq.
Proof.
  destruct x as [s|s| |s m e]; try done.
  { intros _ _ HK. unfold Py.float_compare_int.
    destruct (Z.compare_spec 0 K); auto; lia. }
  intros [He Hm] Hs HK. simpl in Hs. subst s.
  unfold Py.float_compare_int, cond_Zopp.
  destruct (Z.leb_spec 0 e).
  - assert (e = 0) as -> by lia. rewrite Z.pow_0_r, Z.mul_1_r in *.
    destruct (Z.compare_spec (Z.pos m) K); auto; lia.
  - destruct (Z.compare_spec (Z.pos m) (K * 2 ^ (- e))); auto; lia.
Qed.

End float_bound.

(** The score is a percentage.  Whatever the answers, [calculate_score]
    returns 0 or a float from 0 to 100, and [submit_quiz] stores an integer
    from 0 to 100: an attempt with a passing score above 100 never passes,
    one with a passing score of 0 or less always does. *)
Theorem submit_quiz_score_range (db : Store) (self : Z * QuizAttempt.t) (now : Z) :
  ∃ db' row stored,
    models.submit_quiz db self now = Some (calculate_score db self.1, db')
    ∧ Py.ge (calculate_score db self.1) 0 = true
    ∧ (Py.compare_int (calculate_score db self.1) 100 = Some Lt
       ∨ Py.compare_int (calculate_score db self.1) 100 = Some Eq)
    ∧ attempts db' !! self.1 = Some row
    ∧ QuizAttempt.score row = Some stored
    ∧ 0 ≤ stored ≤ 100
    ∧ (100 < QuizAttempt.passing_score self.2 → QuizAttempt.passed row = false)
    ∧ (QuizAttempt.passing_score self.2 ≤ 0 → QuizAttempt.passed row = true).
Proof.
  assert (∃ stored, Py.int_ (calculate_score db self.1) = Some stored
                    ∧ 0 ≤ stored ≤ 100
                    ∧ (∀ n, Py.ge (calculate_score db self.1) n = (n <=? stored))
                    ∧ (Py.compare_int (calculate_score db self.1) 100 = Some Lt
                       ∨ Py.compare_int (calculate_score db self.1) 100 = Some Eq))
    as (stored & Hint & Hrange & Hge & Hle).
  { rewrite calculate_score_counts.
    set (t := Z.of_nat (length (answers_of db self.1))).
    set (c := Z.of_nat (length (filter _ (answers_of db self.1)))).
    assert (0 ≤ c ≤ t) as Hc.
    { pose proof (length_filter (λ a, is_correct db a = true) (answers_of db self.1)).
      unfold c, t. lia. }
    destruct (decide (t = 0)) as [Ht|Ht].
    { unfold score_of_counts. rewrite Ht. simpl. exists 0.
      split; [done|]. split; [lia|]. split; [|by left]. intros n.
      cbv beta iota delta [Py.ge Py.compare_int].
      destruct (Z.compare_spec 0 n), (Z.leb_spec n 0); done || lia. }
    destruct (score_of_counts_at_most c t Hc ltac:(lia)) as (x & -> & Hx & Hsign).
    destruct (at_most_int 100 x Hx Hsign ltac:(lia)) as (n & Hn & Hrange).
    exists n. split; [done|]. split; [done|]. split.
    - intros k. by apply ge_int_of_float.
    - by apply at_most_compare. }
  unfold models.submit_quiz. rewrite Hint. simpl.
  eexists _, _, stored. split; [done|].
  split; [rewrite Hge; apply Z.leb_le; lia|].
  split; [done|].
  simpl. rewrite lookup_insert_eq. split; [done|]. simpl. split; [done|].
  split; [done|]. rewrite Hge.
  split; intros Hp; [apply Z.leb_gt|apply Z.leb_le]; lia.
Qed.

(** * Small categories *)

(** A category with at most 10 eligible questions is asked in full:
    [start_quiz] gives the new attempt one answer for every eligible
    question of the category and no other, whatever the sample, and
    records their number as [total_questions]. *)
Theorem start_quiz_small_category (db : Store) (request : views.HttpRequest.t)
    (category_id now : Z) (positions : list nat) (category : Category.t) :
  fk_integrity db →
  categories db !! category_id = Some category →
  (0 < size (eligible db category_id) ≤ 10)%nat →
  views.sample_positions (size (eligible db category_id))
                         (Nat.min 10 (size (eligible db category_id)))
                         positions →
  ∃ db' attempt_id attempt,
    views.start_quiz db request category_id now positions
    = (db', [], views.redirect (views.to_take_quiz attempt_id))
    ∧ attempts db' !! attempt_id = Some attempt
    ∧ QuizAttempt.total_questions attempt
      = Z.of_nat (size (eligible db category_id))
    ∧ Answer.question <$> (answers_of db' attempt_id).*2
      ≡ₚ (map_to_list (eligible db category_id)).*1.
Proof.
  intros [Hfk _] Hcat Hk Hdraw.
  pose proof (all_questions_length db category_id) as Hlen.
  destruct (start_quiz_run db request category_id now positions category)
    as (db' & sampled & Hrun & Hattempts & Horder & Hslen & Hnodup & Hin & _);
    [done|done| | |].
  { intros Hnone. rewrite Hnone in Hlen. simpl in Hlen. lia. }
  { by rewrite Hlen. }
  set (attempt_id := auto_increment (attempts db)) in *.
  assert (answers_of db' attempt_id
          = created_answers (auto_increment (answers db)) attempt_id
                            sampled.*1 now) as Hanswers.
  { unfold answers_of. rewrite Horder, filter_app.
    rewrite filter_none, filter_all; [done| |].
    - apply Forall_forall. intros [id r] Hr.
      by apply created_answers_keys in Hr as (_ & ? & _).
    - apply Forall_forall. intros [id r] Hr%elem_of_order_by_id Heq.
      destruct (Hfk id r Hr) as [x Hx]. simpl in *. rewrite Heq in Hx.
      unfold attempt_id in Hx. by rewrite auto_increment_fresh in Hx. }
  eexists db', attempt_id, _. split; [exact Hrun|]. split.
  { rewrite Hattempts. apply lookup_insert_eq. }
  split; [simpl; lia|].
  rewrite Hanswers, created_answers_questions, <- all_questions_perm.
  apply submseteq_length_Permutation.
  - apply NoDup_submseteq; [done|].
    intros q (r & -> & Hr%Hin)%list_elem_of_fmap. by apply list_elem_of_fmap_2.
  - rewrite !length_fmap, Hslen. lia.
Qed.

Lemma start_quiz_small_category_witness :
  ∃ db' attempt_id,
    views.start_quiz demo.in_progress (demo.request 8 views.HttpRequest.GET [])
                     1 300 [2; 0; 1]%nat
    = (db', [], views.redirect (views.to_take_quiz attempt_id))
    ∧ Answer.question <$> (answers_of db' attempt_id).*2
      ≡ₚ (map_to_list (eligible demo.in_progress 1)).*1.
Proof.
  destruct (start_quiz_small_category demo.in_progress
              (demo.request 8 views.HttpRequest.GET []) 1 300 [2; 0; 1]%nat
              (demo.category "Python Programming"))
    as (db' & attempt_id & attempt & Hrun & _ & _ & Hall).
  - split; compute_done.
  - reflexivity.
  - vm_compute. lia.
  - split; [reflexivity|]. split; compute_done.
  - exists db', attempt_id. split; [exact Hrun|exact Hall].
Defined.

(** * Exact percentages *)

Section small_quizzes.

(** For the quizzes [start_quiz] makes, of 1 to 10 questions, the float
    arithmetic of the score loses nothing: the integer part of the score
    is the integer part of the exact percentage.  (65 cases, computed.) *)
Lemma score_of_counts_small c t :
  1 ≤ t ≤ 10 → 0 ≤ c ≤ t →
  Py.int_ (score_of_counts c t) = Some (100 * c / t).
Proof.
  intros Ht Hc.
  assert (forallb (λ t', forallb (λ c', (t' <? c')
                                        || bool_decide (Py.int_ (score_of_counts c' t')
                                                        = Some (100 * c' / t')))
                                 (seqZ 0 11))
                  (seqZ 1 10) = true) as Hall by (vm_compute; reflexivity).
  rewrite forallb_forall in Hall.
  assert (In t (seqZ 1 10)) as Hint by (apply list_elem_of_In, elem_of_seqZ; lia).
  specialize (Hall t Hint). rewrite forallb_forall in Hall.
  assert (In c (seqZ 0 11)) as Hinc by (apply list_elem_of_In, elem_of_seqZ; lia).
  specialize (Hall c Hinc).
  apply orb_true_iff in Hall as [Hlt%Z.ltb_lt|Hok]; [lia|].
  by apply bool_decide_eq_true in Hok.
Qed.

End small_quizzes.

(** An attempt with 1 to 10 answers, as [start_quiz] makes them, gets the
    exact result: [submit_quiz] stores the integer part of the exact
    percentage [100 * correct / total], and the attempt passes exactly when
    the exact percentage is at least its passing score. *)
Theorem submit_quiz_exact_percentage (db : Store) (self : Z * QuizAttempt.t)
    (now : Z) :
  let total := Z.of_nat (length (answers_of db self.1)) in
  let correct :=
    Z.of_nat (length (filter (λ a, is_correct db a = true) (answers_of db self.1))) in
  1 ≤ total ≤ 10 →
  ∃ score db' row,
    models.submit_quiz db self now = Some (score, db')
    ∧ attempts db' !! self.1 = Some row
    ∧ QuizAttempt.score row = Some (100 * correct / total)
    ∧ QuizAttempt.passed row
      = bool_decide (QuizAttempt.passing_score self.2 * total ≤ 100 * correct).
Proof.
  intros total correct Ht.
  assert (0 ≤ correct ≤ total) as Hc.
  { pose proof (length_filter (λ a, is_correct db a = true) (answers_of db self.1)).
    unfold correct, total. lia. }
  pose proof (score_of_counts_small correct total Ht Hc) as Hint.
  pose proof (score_of_counts_sign_clear correct total ltac:(lia) ltac:(lia))
    as Hsign.
  unfold models.submit_quiz. rewrite calculate_score_counts.
  fold total correct. rewrite Hint. simpl.
  eexists _, _, _. split; [reflexivity|]. simpl. rewrite lookup_insert_eq.
  split; [reflexivity|]. simpl. split; [done|].
  assert (Py.ge (score_of_counts correct total) (QuizAttempt.passing_score self.2)
          = (QuizAttempt.passing_score self.2 <=? 100 * correct / total)) as ->.
  { destruct (score_of_counts correct total) as [n|x]; simpl in *.
    - injection Hint as <-. subst n.
      cbv beta iota delta [Py.ge Py.compare_int].
      destruct (Z.compare_spec 0 (QuizAttempt.passing_score self.2)),
        (Z.leb_spec (QuizAttempt.passing_score self.2) 0); done || lia.
    - by apply ge_int_of_float. }
  destruct (Z.leb_spec (QuizAttempt.passing_score self.2) (100 * correct / total))
    as [Hle|Hgt]; symmetry.
  - apply bool_decide_eq_true.
    pose proof (Z.mul_div_le (100 * correct) total ltac:(lia)). nia.
  - apply bool_decide_eq_false. intros Hle.
    assert (QuizAttempt.passing_score self.2 ≤ 100 * correct / total); [|lia].
    apply Z.div_le_lower_bound; lia.
Qed.

Lemma submit_quiz_exact_percentage_witness :
  ∃ score db' row,
    models.submit_quiz demo.in_progress (1, demo.attempt 7 1 3) 200
    = Some (score, db')
    ∧ attempts db' !! 1 = Some row
    ∧ QuizAttempt.score row = Some 66
    ∧ QuizAttempt.passed row = false.
Proof.
  destruct (submit_quiz_exact_percentage demo.in_progress (1, demo.attempt 7 1 3) 200)
    as (score & db' & row & Hrun & Hrow & Hscore & Hpassed).
  - vm_compute. split; discriminate.
  - exists score, db', row. split; [exact Hrun|]. split; [exact Hrow|].
    split; [exact Hscore|exact Hpassed].
Defined.

(** * Exceptions *)

Section exceptions.
Implicit Types (db : Store) (request : views.HttpRequest.t).

(** The loop over the posted values raises exactly when one of them is not
    the id of an option, and then the exception of the lookup of the first
    such value. *)
Lemma selected_options_add_each_raises db answer_id (l : list views.posted) e :
  (views.selected_options_add_each db answer_id l).2 = Some e
  ↔ ∃ before bad after,
      l = before ++ bad :: after
      ∧ Forall (names_option db) before
      ∧ ¬ names_option db bad
      ∧ e = lookup_error bad.
Proof.
  split.
  - intros Hraised.
    destruct (decide (Forall (names_option db) l)) as [Hall|Hnot].
    + apply posted_ids in Hall as (ids & -> & Hids).
      by rewrite selected_options_add_each_all in Hraised.
    + apply posted_first_bad in Hnot as (before & bad & after & -> & Hbefore & Hbad).
      rewrite selected_options_add_each_missing in Hraised by done.
      injection Hraised as <-.
      exists (views.numeral <$> before), bad, after. split; [done|].
      split; [|done]. apply Forall_fmap. by eapply Forall_impl.
  - intros (before & bad & after & -> & (ids & -> & Hids)%posted_ids & Hbad & ->).
    by rewrite selected_options_add_each_missing.
Qed.

Lemma question_view_index db attempt_id answer_id answer :
  views.get_answer_or_404 db answer_id attempt_id = Some answer →
  is_Some (views.index (views.ordered_ids db attempt_id) answer_id).
Proof.
  intros Hanswer%get_answer_or_404_Some.
  destruct (index_split (views.ordered_ids db attempt_id) answer_id)
    as (before & after & _ & _ & ->); [|done].
  apply elem_of_ordered_ids. by exists answer.
Qed.

End exceptions.

(** The only exceptions a view ends in.  [question_view] raises exactly on
    a POST, for an answer of an attempt of the requester, that carries a
    value that is not the id of an option, and then the exception of the
    lookup of the first such value: [ValueError] for a value that is no
    number, [Option.DoesNotExist] for a number that is the key of no
    option.  It never raises on the position of the answer, so never on a
    GET.  The other views never raise: [submit_quiz] always gets an integer
    to store, and [start_quiz], on a database whose answers refer to stored
    attempts and with a sample as [random.sample] draws it, never violates
    [unique_together]. *)
Theorem views_exceptions (db : Store) (request : views.HttpRequest.t)
    (category_id attempt_id answer_id now : Z) (positions : list nat) :
  let owned := ∃ attempt, attempts db !! attempt_id = Some attempt
                          ∧ QuizAttempt.user attempt = views.HttpRequest.user request in
  let answered := ∃ answer, answers db !! answer_id = Some answer
                            ∧ Answer.attempt answer = attempt_id in
  let first_bad e :=
    ∃ before bad after,
      views.HttpRequest.POST_options request = before ++ bad :: after
      ∧ Forall (names_option db) before
      ∧ ¬ names_option db bad
      ∧ e = lookup_error bad in
  (∀ e, (views.question_view db request attempt_id answer_id now).2
        = views.ServerError e
        ↔ views.HttpRequest.method request = views.HttpRequest.POST
          ∧ owned ∧ answered ∧ first_bad e)
  ∧ (∀ e, (views.toggle_flag db request answer_id now).2 ≠ views.ServerError e)
  ∧ (∀ e, (views.review_panel db request attempt_id).2 ≠ views.ServerError e)
  ∧ (∀ e, (views.submit_quiz db request attempt_id now).2 ≠ views.ServerError e)
  ∧ (∀ e, (views.quiz_results db request attempt_id).2 ≠ views.ServerError e)
  ∧ (∀ e, (views.take_quiz db request attempt_id).2
          ≠ views.response (views.ServerError e))
  ∧ (map_Forall (λ _ a, is_Some (attempts db !! Answer.attempt a)) (answers db) →
     views.sample_positions
       (length (views.all_questions db category_id))
       (Nat.min 10 (length (views.all_questions db category_id))) positions →
     ∀ e, (views.start_quiz db request category_id now positions).2
          ≠ views.ServerError e).
Proof.
  intros owned answered first_bad.
  split.
  { intros e. unfold views.question_view.
    destruct (views.get_attempt_or_404 _ _ _) as [attempt|] eqn:Hattempt.
    2:{ split; [done|]. intros (_ & Howned & _).
        by apply get_attempt_or_404_None in Hattempt. }
    destruct (views.get_answer_or_404 _ _ _) as [answer|] eqn:Hanswer.
    2:{ split; [done|]. intros (_ & _ & Hanswered & _).
        by apply get_answer_or_404_None in Hanswer. }
    destruct (question_view_index db attempt_id answer_id answer Hanswer)
      as [idx ->].
    apply get_attempt_or_404_Some in Hattempt.
    apply get_answer_or_404_Some in Hanswer.
    destruct (views.HttpRequest.method request) eqn:Hmethod.
    { split; [done|]. by intros (? & _). }
    pose proof (selected_options_add_each_raises
                  (views.selected_options_clear db answer_id) answer_id
                  (views.HttpRequest.POST_options request)) as Hraises.
    change (names_option (views.selected_options_clear db answer_id))
      with (names_option db) in Hraises.
    destruct (views.selected_options_add_each _ _ _) as [db1 raised].
    simpl in Hraises. destruct raised as [e'|]; simpl.
    - split.
      + intros [= <-]. split; [done|]. split; [by eexists|].
        split; [by eexists|]. by apply Hraises.
      + intros (_ & _ & _ & Hbad). apply Hraises in Hbad. congruence.
    - split; [done|]. intros (_ & _ & _ & Hbad). by apply Hraises in Hbad. }
  split.
  { intros e. unfold views.toggle_flag. by destruct (answers db !! answer_id). }
  split.
  { intros e. unfold views.review_panel.
    by destruct (views.get_attempt_or_404 _ _ _). }
  split.
  { intros e. unfold views.submit_quiz.
    destruct (views.get_attempt_or_404 _ _ _) as [attempt|]; [|done].
    destruct (views.HttpRequest.method request); [done|].
    destruct (submit_quiz_total db (attempt_id, attempt) now) as [[score db'] ->].
    done. }
  split.
  { intros e. unfold views.quiz_results.
    by destruct (views.get_attempt_or_404 _ _ _). }
  split.
  { intros e. unfold views.take_quiz.
    destruct (views.get_attempt_or_404 _ _ _) as [attempt|]; [|done].
    by destruct (QuizAttempt.completed_at attempt). }
  intros Hfk Hdraw e.
  destruct (categories db !! category_id) as [category|] eqn:Hcat;
    [|by unfold views.start_quiz; rewrite Hcat].
  destruct (decide (views.all_questions db category_id = [])) as [Hnone|Hsome].
  { unfold views.start_quiz. by rewrite Hcat, Hnone. }
  destruct (start_quiz_run db request category_id now positions category
              Hfk Hcat Hsome Hdraw) as (db' & sampled & -> & _).
  done.
Qed.
